(** * jinjaRenderer: a shallow embedding of the column-name template engine

    Source: superset-frontend/plugins/plugin-chart-custom-table/src/utils/jinjaRenderer.ts
    (renderJinjaTemplate, processConditionalBlocks, evaluateCondition,
    transformColumnName) and the context-building generateDynamicColumnName
    listed in the plugin's implementation notes.

    JavaScript strings are sequences of UTF-16 code units; a code unit is an
    [N].  The regular expressions of the source are written as syntax trees
    and run by a backtracking matcher in continuation-passing style, the way
    ECMA-262 defines pattern matching (priority order, greedy and lazy
    quantifiers, capture groups). *)

From Stdlib Require Import String Ascii.
From Stdlib Require Import List NArith ZArith Arith Bool Lia.
Import ListNotations.

Set Implicit Arguments.

(** ** Strings as lists of code units *)

Abbreviation char := N.
Abbreviation str := (list char).

Definition u (s : string) : str :=
  map (fun a => N_of_ascii a) (list_ascii_of_string s).
Arguments u _%_string.

Fixpoint eqb_str (a b : str) : bool :=
  match a, b with
  | [], [] => true
  | x :: a', y :: b' => N.eqb x y && eqb_str a' b'
  | _, _ => false
  end.

Fixpoint startsWith (s p : str) : bool :=
  match p, s with
  | [], _ => true
  | y :: p', x :: s' => N.eqb x y && startsWith s' p'
  | _ :: _, [] => false
  end.

Definition substring (s : str) (a b : nat) : str := firstn (b - a) (skipn a s).

(** [String.prototype.indexOf(p, from)], for a non-empty [p]. *)
Fixpoint indexOf_aux (p s : str) (i : nat) : option nat :=
  if startsWith s p then Some i
  else match s with
       | [] => None
       | _ :: s' => indexOf_aux p s' (S i)
       end.

Definition indexOf (s p : str) (from : nat) : option nat :=
  indexOf_aux p (skipn from s) from.

(** WhiteSpace and LineTerminator code points of ECMA-262: the set matched by
    [\s] and stripped by [String.prototype.trim]. *)
Definition is_space (c : char) : bool :=
  ((9 <=? c) && (c <=? 13) || (c =? 32) || (c =? 160) || (c =? 5760)
   || (8192 <=? c) && (c <=? 8202) || (c =? 8232) || (c =? 8233)
   || (c =? 8239) || (c =? 8287) || (c =? 12288) || (c =? 65279))%N.

(** The characters that [.] does not match (no [s] flag). *)
Definition is_line_terminator (c : char) : bool :=
  ((c =? 10) || (c =? 13) || (c =? 8232) || (c =? 8233))%N.

Fixpoint trimStart (s : str) : str :=
  match s with
  | c :: s' => if is_space c then trimStart s' else s
  | [] => []
  end.

Definition trimEnd (s : str) : str := rev (trimStart (rev s)).

Definition trim (s : str) : str := trimEnd (trimStart s).

(** ASCII upper-casing; the source applies [toUpperCase] only to text matched
    by [(SUM|COUNT|AVG|MAX|MIN)] under the [i] flag, which is ASCII letters. *)
Definition upper_ascii (c : char) : char :=
  if ((97 <=? c) && (c <=? 122))%N then (c - 32)%N else c.

(** ** Regular expressions *)

Inductive regex : Type :=
| Eps : regex
| Chr : (char -> bool) -> regex
| Seq : regex -> regex -> regex
| Alt : regex -> regex -> regex
| Star : bool -> regex -> regex      (* [true]: greedy; [false]: lazy *)
| Group : nat -> regex -> regex
| Bol : regex                        (* [^] without the [m] flag *)
| Eol : regex.                       (* [$] without the [m] flag *)

Definition Plus (g : bool) (r : regex) : regex := Seq r (Star g r).

Definition lit (c : char) : regex := Chr (N.eqb c).

(** Case-insensitive literal for an ASCII letter: without the [u] flag,
    Canonicalize maps a character to its upper case unless that would turn a
    non-ASCII character into an ASCII one, so only the two ASCII cases of the
    letter match. *)
Definition lit_i (c : char) : regex :=
  Chr (fun x => N.eqb (upper_ascii x) (upper_ascii c)).

Fixpoint lits (s : str) : regex :=
  match s with
  | [] => Eps
  | c :: s' => Seq (lit c) (lits s')
  end.

Fixpoint lits_i (s : str) : regex :=
  match s with
  | [] => Eps
  | c :: s' => Seq (lit_i c) (lits_i s')
  end.

Definition ws : regex := Chr is_space.
Definition dot : regex := Chr (fun c => negb (is_line_terminator c)).
Definition anychar : regex := Chr (fun _ => true).

(** Matcher state: the input that remains and the captures recorded so far
    (most recent first).  The index reached is the length of the whole input
    minus the length of what remains. *)
Record mstate : Type := MState {
  rest : str;
  caps : list (nat * str)
}.

Definition cont := mstate -> option mstate.

(** RepeatMatcher for [r*] and [r*?]: an iteration that consumes nothing is
    rejected, so [fuel] above the length of the remaining input is never
    exhausted. *)
Fixpoint repeat_m (g : bool) (mr : mstate -> cont -> option mstate)
         (fuel : nat) (x : mstate) (k : cont) : option mstate :=
  match fuel with
  | O => None
  | S f =>
      let iter :=
        mr x (fun y =>
                if length (rest y) <? length (rest x)
                then repeat_m g mr f y k else None) in
      if g then match iter with Some z => Some z | None => k x end
      else match k x with Some z => Some z | None => iter end
  end.

(** [m n r x k]: match [r] at state [x] of an input of length [n], then
    continue with [k]. *)
Fixpoint m (n : nat) (r : regex) (x : mstate) (k : cont) : option mstate :=
  match r with
  | Eps => k x
  | Chr p =>
      match rest x with
      | c :: t => if p c then k (MState t (caps x)) else None
      | [] => None
      end
  | Seq a b => m n a x (fun y => m n b y k)
  | Alt a b => match m n a x k with Some z => Some z | None => m n b x k end
  | Star g a => repeat_m g (m n a) (S (length (rest x))) x k
  | Group i a =>
      m n a x (fun y =>
                 k (MState (rest y)
                      ((i, firstn (length (rest x) - length (rest y)) (rest x))
                         :: caps y)))
  | Bol => if Nat.eqb (length (rest x)) n then k x else None
  | Eol => match rest x with [] => k x | _ :: _ => None end
  end.

(** One match: the input skipped before it (from where the search began),
    the matched text, the input after it, and the captures. *)
Record rmatch : Type := RMatch {
  m_before : str;
  m_text : str;
  m_after : str;
  m_caps : list (nat * str)
}.

Fixpoint cap (i : nat) (cs : list (nat * str)) : str :=
  match cs with
  | [] => []
  | (j, s) :: cs' => if Nat.eqb i j then s else cap i cs'
  end.

(** The pattern tried at the head of [s], a suffix of an input of length [n]. *)
Definition match_at (n : nat) (r : regex) (s : str) : option rmatch :=
  match m n r (MState s []) (fun y => Some y) with
  | Some y =>
      Some (RMatch [] (firstn (length s - length (rest y)) s) (rest y) (caps y))
  | None => None
  end.

Definition skip1 (c : char) (o : option rmatch) : option rmatch :=
  match o with
  | Some mt => Some (RMatch (c :: m_before mt) (m_text mt) (m_after mt) (m_caps mt))
  | None => None
  end.

(** RegExpBuiltinExec without the sticky flag: the first index, from the head
    of [s] on, where the pattern matches. *)
Fixpoint search (n : nat) (r : regex) (s : str) : option rmatch :=
  match match_at n r s with
  | Some mt => Some mt
  | None => match s with
            | [] => None
            | c :: s' => skip1 c (search n r s')
            end
  end.

(** [String.prototype.match] and a first [exec] of a fresh pattern: search
    from index 0. *)
Definition exec (r : regex) (s : str) : option rmatch := search (length s) r s.

(** ** Exceptions *)

(** [OutOfFuel] stands for a loop of the source that would not end. *)
Inductive exn : Type := TypeError | OutOfFuel.

Inductive result (A : Type) : Type :=
| Ok : A -> result A
| Throw : exn -> result A.
Arguments Ok {A} _.
Arguments Throw {A} _.

Definition bind {A B : Type} (c : result A) (f : A -> result B) : result B :=
  match c with
  | Ok a => f a
  | Throw e => Throw e
  end.

Notation "x <- c ;; k" := (bind c (fun x => k))
  (at level 61, c at next level, right associativity).

(** ** String.prototype.replace with a global pattern *)

(** The replacer is called with the match, the input before it and the
    input after it; an exception it throws propagates.  After an empty match
    the search resumes one code unit further. *)
Fixpoint replace_loop (fuel n : nat) (r : regex)
         (f : rmatch -> str -> str -> result str)
         (done s : str) : result str :=
  match fuel with
  | O => Throw OutOfFuel
  | S fuel' =>
      match search n r s with
      | None => Ok s
      | Some mt =>
          let before := done ++ m_before mt in
          rep <- f mt before (m_after mt) ;;
          match m_text mt, m_after mt with
          | [], [] => Ok (m_before mt ++ rep)
          | [], c :: t =>
              tl <- replace_loop fuel' n r f (before ++ [c]) t ;;
              Ok (m_before mt ++ rep ++ c :: tl)
          | _ :: _, _ =>
              tl <- replace_loop fuel' n r f (before ++ m_text mt) (m_after mt) ;;
              Ok (m_before mt ++ rep ++ tl)
          end
      end
  end.

Definition replace_all (r : regex) (f : rmatch -> str -> str -> result str)
           (s : str) : result str :=
  replace_loop (S (length s)) (length s) r f [] s.

(** GetSubstitution for a pattern without capture groups: a dollar followed
    by a dollar (one dollar), an ampersand (the match), a backquote (the
    input before the match) or a quote (the input after it) is expanded;
    every other dollar is literal. *)
Fixpoint getSubstitution (matched before after repl : str) : str :=
  match repl with
  | [] => []
  | d :: t0 =>
      if N.eqb d 36 then
        match t0 with
        | c :: t =>
            if N.eqb c 36 then 36%N :: getSubstitution matched before after t
            else if N.eqb c 38 then matched ++ getSubstitution matched before after t
            else if N.eqb c 96 then before ++ getSubstitution matched before after t
            else if N.eqb c 39 then after ++ getSubstitution matched before after t
            else 36%N :: getSubstitution matched before after t0
        | [] => [36%N]
        end
      else d :: getSubstitution matched before after t0
  end.

(** [String.prototype.substring(a, b)]: the bounds are clamped to the string
    and swapped when [a > b]. *)
Definition js_substring (s : str) (a b : nat) : str :=
  substring s (Nat.min a b) (Nat.max a b).

Fixpoint seqs (l : list regex) : regex :=
  match l with
  | [] => Eps
  | [r] => r
  | r :: l' => Seq r (seqs l')
  end.

(** ** The patterns of the source *)

(** [[^%}]] *)
Definition not_pct_brace (c : char) : bool :=
  negb (N.eqb c 37 || N.eqb c 125).

(** The character class of the single and the double quote, written Q in
    the patterns below. *)
Definition is_quote (c : char) : bool := N.eqb c 39 || N.eqb c 34.

(** [/\{\%\s*if\s+([^%}]+)\s*\%\}([\s\S]*?)\{\%\s*endif\s*\%\}/g] *)
Definition fullBlockPattern : regex :=
  seqs [lits (u "{%"); Star true ws; lits (u "if"); Plus true ws;
        Group 1 (Plus true (Chr not_pct_brace)); Star true ws; lits (u "%}");
        Group 2 (Star false anychar);
        lits (u "{%"); Star true ws; lits (u "endif"); Star true ws;
        lits (u "%}")].

(** [/\{\%\s*elif\s+([^%}]+)\s*\%\}/g] *)
Definition elifRegex : regex :=
  seqs [lits (u "{%"); Star true ws; lits (u "elif"); Plus true ws;
        Group 1 (Plus true (Chr not_pct_brace)); Star true ws; lits (u "%}")].

(** [/\{\%\s*else\s*\%\}/g] *)
Definition elseRegex : regex :=
  seqs [lits (u "{%"); Star true ws; lits (u "else"); Star true ws;
        lits (u "%}")].

(** [/(.+?)\s*==\s*Q(.+?)Q/] *)
Definition equalRegex : regex :=
  seqs [Group 1 (Plus false dot); Star true ws; lits (u "=="); Star true ws;
        Chr is_quote; Group 2 (Plus false dot); Chr is_quote].

(** [/(.+?)\.startswith\(Q(.+?)Q\)/] *)
Definition startsWithRegex : regex :=
  seqs [Group 1 (Plus false dot); lits (u ".startswith("); Chr is_quote;
        Group 2 (Plus false dot); Chr is_quote; lits (u ")")].

(** [/^(SUM|COUNT|AVG|MAX|MIN)\(G\)$/i], where the group G is a greedy star of
    the dot. *)
Definition functionRegex : regex :=
  seqs [Bol;
        Group 1 (Alt (lits_i (u "SUM")) (Alt (lits_i (u "COUNT"))
                (Alt (lits_i (u "AVG")) (Alt (lits_i (u "MAX"))
                                             (lits_i (u "MIN"))))));
        lit 40%N; Group 2 (Star true dot); lit 41%N; Eol].

(** The pattern built for a context key: two opening braces, white space,
    the key, white space, two closing braces, with the global flag.  The
    source escapes each pattern character of the key (dot, star, plus,
    question mark, caret, dollar, braces, parentheses, bar, brackets,
    backslash) before building the pattern, so the key's code units are
    matched literally. *)
Definition keyRegex (key : str) : regex :=
  seqs [lits (u "{{"); Star true ws; lits key; Star true ws; lits (u "}}")].

(** ** Values and contexts *)

Section Renderer.

(** Numbers, structured values (records, lists) and functions, with the
    conversions the JavaScript runtime provides for them. *)
Variable num : Type.
Variable num_toString : num -> str.          (* String(n) *)
Variable num_toLocaleString : num -> str.    (* n.toLocaleString() *)
Variable num_truthy : num -> bool.           (* Boolean(n) *)
Variable obj : Type.
Variable obj_toString : obj -> str.          (* String(o) *)
(** [JSON.stringify(o)]: the text, or the TypeError it throws on a cyclic
    structure or on a BigInt member. *)
Variable JSON_stringify : obj -> result str.
Variable fn : Type.
Variable fn_toString : fn -> str.            (* String(f) *)

Inductive value : Type :=
| VUndefined : value
| VNull : value
| VBool : bool -> value
| VNum : num -> value
| VStr : str -> value
| VObj : obj -> value
| VFun : fn -> value.

(** A record, as [Object.entries] enumerates it; a context is one. *)
Definition context := list (str * value).

(** [f.call(this, arg)] for a string argument: the truth value of what the
    function returns, or the exception it throws. *)
Variable fn_call : fn -> context -> str -> result bool.

(** The properties every plain object inherits from Object.prototype
    ([constructor], [toString], ...). *)
Variable proto : str -> option value.

Fixpoint own (ctx : context) (k : str) : option value :=
  match ctx with
  | [] => None
  | (k', v) :: ctx' => if eqb_str k k' then Some v else own ctx' k
  end.

Definition hasOwn (ctx : context) (k : str) : bool :=
  match own ctx k with Some _ => true | None => false end.

(** [o[k]]: an own property, else one inherited from Object.prototype, else
    [undefined]. *)
Definition get (o : context) (k : str) : value :=
  match own o k with
  | Some v => v
  | None => match proto k with
            | Some v => v
            | None => VUndefined
            end
  end.

(** [String(v)] *)
Definition toStr (v : value) : str :=
  match v with
  | VUndefined => u "undefined"
  | VNull => u "null"
  | VBool true => u "true"
  | VBool false => u "false"
  | VNum n => num_toString n
  | VStr s => s
  | VObj o => obj_toString o
  | VFun f => fn_toString f
  end.

(** [Boolean(v)] *)
Definition truthy (v : value) : bool :=
  match v with
  | VUndefined | VNull => false
  | VBool b => b
  | VNum n => num_truthy n
  | VStr [] => false
  | VStr (_ :: _) => true
  | VObj _ => true
  | VFun _ => true
  end.

(** [a || b] *)
Definition js_or (a b : value) : value := if truthy a then a else b.

(** [variables.hasOwnProperty(k)]: the method is itself looked up on the
    object, so an own property of that name shadows the inherited one; a
    value that is not a function cannot be called. *)
Definition call_hasOwnProperty (variables : context) (k : str) : result bool :=
  match own variables (u "hasOwnProperty") with
  | Some (VFun f) => fn_call f variables k
  | Some _ => Throw TypeError
  | None => Ok (hasOwn variables k)
  end.

(** ** evaluateCondition *)

(** The body of the [try] block. *)
Definition evaluateCondition_try (condition : str) (variables : context)
  : result bool :=
  match exec equalRegex condition with
  | Some mt =>
      let varName := cap 1 (m_caps mt) in
      let expectedValue := cap 2 (m_caps mt) in
      let actualValue := get variables (trim varName) in
      Ok (eqb_str (toStr actualValue) expectedValue)
  | None =>
      match exec startsWithRegex condition with
      | Some mt =>
          let varName := cap 1 (m_caps mt) in
          let prefix := cap 2 (m_caps mt) in
          let actualValue :=
            toStr (js_or (get variables (trim varName)) (VStr [])) in
          Ok (startsWith actualValue prefix)
      | None =>
          let varName := trim condition in
          has <- call_hasOwnProperty variables varName ;;
          if has then Ok (truthy (get variables varName)) else Ok false
      end
  end.

Definition evaluateCondition (condition : str) (variables : context) : bool :=
  match evaluateCondition_try condition variables with
  | Ok b => b
  | Throw _ => false
  end.

(** ** processConditionalBlocks *)

Inductive blockType : Type := TIf | TElif | TElse.

Record breakpoint : Type := Breakpoint {
  bp_index : nat;
  bp_type : blockType;
  bp_condition : option str
}.

Record block : Type := Block {
  b_type : blockType;
  b_condition : option str;
  b_content : str
}.

(** The [while] loop over [elifRegex.exec(content)]: each match is recorded
    with its index and its trimmed first group, and the next search starts
    where the match ended.  An empty match would leave [lastIndex] in place
    and the loop would never end. *)
Fixpoint elifLoop (fuel n : nat) (done s : str)
  : result (list breakpoint) :=
  match fuel with
  | O => Throw OutOfFuel
  | S fuel' =>
      match search n elifRegex s with
      | None => Ok []
      | Some mt =>
          match m_text mt with
          | [] => Throw OutOfFuel
          | _ :: _ =>
              let index := length done + length (m_before mt) in
              tl <- elifLoop fuel' n (done ++ m_before mt ++ m_text mt)
                             (m_after mt) ;;
              Ok (Breakpoint index TElif (Some (trim (cap 1 (m_caps mt)))) :: tl)
          end
      end
  end.

Definition elifMatches (content : str) : result (list breakpoint) :=
  elifLoop (S (length content)) (length content) [] content.

Definition elseBreakpoint (content : str) : list breakpoint :=
  match exec elseRegex content with
  | Some mt => [Breakpoint (length (m_before mt)) TElse None]
  | None => []
  end.

(** [Array.prototype.sort] with the comparator [a.index - b.index]; the sort
    is stable. *)
Fixpoint insert_bp (b : breakpoint) (l : list breakpoint) : list breakpoint :=
  match l with
  | [] => [b]
  | c :: l' => if bp_index c <=? bp_index b then c :: insert_bp b l'
               else b :: l
  end.

Definition sort_bp (l : list breakpoint) : list breakpoint :=
  fold_right insert_bp [] l.

(** The [for] loop that cuts the content at the breakpoints. *)
Fixpoint restBlocks (content : str) (bps : list breakpoint) : list block :=
  match bps with
  | [] => []
  | bp :: bps' =>
      let tagEnd := match indexOf content (u "%}") (bp_index bp) with
                    | Some i => i + 2
                    | None => 1       (* -1 + 2 *)
                    end in
      let blockEnd := match bps' with
                      | nb :: _ => bp_index nb
                      | [] => length content
                      end in
      Block (bp_type bp) (bp_condition bp)
            (trim (js_substring content tagEnd blockEnd))
        :: restBlocks content bps'
  end.

Definition condition_present (c : option str) : bool :=
  match c with
  | Some (_ :: _) => true
  | _ => false
  end.

(** The [for] loop that picks the block to keep. *)
Fixpoint selectBlock (blocks : list block) (variables : context) : str :=
  match blocks with
  | [] => []
  | b :: bs =>
      match b_type b with
      | TElse => b_content b
      | _ =>
          if condition_present (b_condition b)
             && evaluateCondition (match b_condition b with
                                   | Some c => c
                                   | None => []
                                   end) variables
          then b_content b
          else selectBlock bs variables
      end
  end.

(** The replacer of [processConditionalBlocks]. *)
Definition blockReplacer (variables : context) (firstCondition content : str)
  : result str :=
  elifs <- elifMatches content ;;
  let breakpoints := sort_bp (elifs ++ elseBreakpoint content) in
  let firstBlockEnd := match breakpoints with
                       | bp :: _ => bp_index bp
                       | [] => length content
                       end in
  let blocks :=
    Block TIf (Some (trim firstCondition))
          (trim (js_substring content 0 firstBlockEnd))
      :: restBlocks content breakpoints in
  Ok (selectBlock blocks variables).

Definition processConditionalBlocks (template : str) (variables : context)
  : result str :=
  replace_all fullBlockPattern
    (fun mt _ _ =>
       blockReplacer variables (cap 1 (m_caps mt)) (cap 2 (m_caps mt)))
    template.

(** ** renderJinjaTemplate *)

(** The formatted value of an entry; the serialisation of an object is not
    guarded, so what it throws leaves the function. *)
Definition displayValue (v : value) : result str :=
  match v with
  | VNum n => Ok (num_toLocaleString n)
  | VObj o => JSON_stringify o
  | VNull | VUndefined => Ok []
  | VBool _ | VStr _ | VFun _ => Ok (toStr v)
  end.

(** The body of the [forEach] callback: the value is formatted first,
    whether or not the template has a placeholder for the key. *)
Definition replaceKey (key : str) (v : value) (s : str) : result str :=
  d <- displayValue v ;;
  replace_all (keyRegex key)
    (fun mt before after =>
       Ok (getSubstitution (m_text mt) before after d))
    s.

Fixpoint interpolate (entries : context) (s : str) : result str :=
  match entries with
  | [] => Ok s
  | (key, v) :: entries' =>
      s' <- replaceKey key v s ;;
      interpolate entries' s'
  end.

Definition renderJinjaTemplate (template : str) (variables : context)
  : result str :=
  match template with
  | [] => Ok []
  | _ :: _ =>
      s <- processConditionalBlocks template variables ;;
      interpolate variables s
  end.

(** ** transformColumnName *)

(** The [transformations] object literal. *)
Definition transformations : context :=
  [(u "jefe_marca", VStr (u "Jefe Marca"));
   (u "sell_in", VStr (u "Sell In"));
   (u "anio_id", VStr (u "A" ++ [241%N] ++ u "o"));
   (u "mes_id", VStr (u "Mes"));
   (u "fecha", VStr (u "Fecha"))].

(** The [switch] on the upper-cased function name. *)
Definition functionPrefix (func : str) : str :=
  if eqb_str func (u "SUM") then u "Total"
  else if eqb_str func (u "COUNT") then u "Cantidad"
  else if eqb_str func (u "AVG") then u "Promedio"
  else if eqb_str func (u "MAX") then u "M" ++ [225%N] ++ u "ximo"
  else if eqb_str func (u "MIN") then u "M" ++ [237%N] ++ u "nimo"
  else func.

(** The function is declared to return a string; what it returns in the
    direct case is whatever the lookup yields. *)
Definition transformColumnName (columnName : str) : value :=
  match exec functionRegex columnName with
  | Some mt =>
      let func := map upper_ascii (cap 1 (m_caps mt)) in
      let field := cap 2 (m_caps mt) in
      let transformedField := js_or (get transformations field) (VStr field) in
      VStr (functionPrefix func ++ u " " ++ toStr transformedField)
  | None => js_or (get transformations columnName) (VStr columnName)
  end.

(** ** The context built by generateDynamicColumnName

    From the listing of [generateDynamicColumnName(column, data, template,
    useMetricInColumnNames, metrics)] in the implementation notes. *)

Variable num_of_nat : nat -> num.            (* a length as a number *)
Variable num_zero : num.
Variable num_add : num -> num -> num.
Variable num_div : num -> num -> num.
Variable Math_min : list num -> num.         (* Math.min(...l) *)
Variable Math_max : list num -> num.         (* Math.max(...l) *)
Variable obj_of_record : context -> obj.     (* a record as an object *)
Variable obj_of_array : list value -> obj.   (* an array as an object *)

Record column : Type := Column {
  col_label : str;
  col_originalLabel : value;
  col_key : str;
  col_dataType : value;
  col_isMetric : value;
  col_isPercentMetric : value;
  col_isNumeric : value
}.

Definition not_nullish (v : value) : bool :=
  match v with
  | VNull | VUndefined => false
  | _ => true
  end.

(** [columnData.filter(val => typeof val === 'number')] *)
Fixpoint numbers (l : list value) : list num :=
  match l with
  | [] => []
  | VNum n :: l' => n :: numbers l'
  | _ :: l' => numbers l'
  end.

Definition columnData (c : column) (data : list context) : list value :=
  filter not_nullish (map (fun row => get row (col_key c)) data).

Definition columnMetrics (c : column) (data : list context) : context :=
  if truthy (col_isNumeric c) && (0 <? length (columnData c data)) then
    let numericData := numbers (columnData c data) in
    if 0 <? length numericData then
      [(u "sum", VNum (fold_left num_add numericData num_zero));
       (u "avg", VNum (num_div (fold_left num_add numericData num_zero)
                               (num_of_nat (length numericData))));
       (u "min", VNum (Math_min numericData));
       (u "max", VNum (Math_max numericData));
       (u "count", VNum (num_of_nat (length numericData)))]
    else []
  else [].

Definition is_undefined (v : value) : bool :=
  match v with VUndefined => true | _ => false end.

Definition buildVariables (c : column) (data : list context)
           (useMetricInColumnNames : bool) (metrics : option (list value))
  : context :=
  let firstRow := hd [] data in
  let lastRow := last data [] in
  [(u "column_name", VStr (col_label c));
   (u "original_label", js_or (col_originalLabel c) (VStr (col_label c)));
   (u "key", VStr (col_key c));
   (u "data_type", col_dataType c);
   (u "row_count", VNum (num_of_nat (length data)));
   (u "first_row", VObj (obj_of_record firstRow));
   (u "last_row", VObj (obj_of_record lastRow));
   (u "data", VObj (obj_of_array (map (fun r => VObj (obj_of_record r)) data)));
   (u "is_metric", col_isMetric c);
   (u "is_percent_metric", col_isPercentMetric c);
   (u "is_numeric", col_isNumeric c)]
  ++ columnMetrics c data
  ++ match useMetricInColumnNames, metrics with
     | true, Some ms =>
         [(u "metrics", VObj (obj_of_array ms));
          (u "metric_count", VNum (num_of_nat (length ms)))]
     | _, _ => []
     end
  ++ (if is_undefined (get firstRow (col_key c)) then []
      else [(u "first_value", get firstRow (col_key c))])
  ++ (if is_undefined (get lastRow (col_key c)) then []
      else [(u "last_value", get lastRow (col_key c))]).

(** The notes' renderer substitutes the variables and has no conditional
    blocks; its keys are the ones above, which have no pattern characters. *)
Definition generateDynamicColumnName (c : column) (data : list context)
           (template : str) (useMetricInColumnNames : bool)
           (metrics : option (list value)) : result str :=
  match template with
  | [] => Ok (col_label c)
  | _ :: _ =>
      interpolate (buildVariables c data useMetricInColumnNames metrics)
                  template
  end.

(** Every value of the context can be formatted: JSON.stringify accepts the
    objects among them. *)
Definition serialisable (variables : context) : Prop :=
  forall key v, In (key, v) variables -> exists d, displayValue v = Ok d.

(** The formatted value, empty where there is none. *)
Definition shown (v : value) : str :=
  match displayValue v with
  | Ok d => d
  | Throw _ => []
  end.

(** The numeric entries of the column: the numbers among the values the rows
    have under the column's key; and whether the statistics are computed. *)
Definition numericEntries (c : column) (data : list context) : list num :=
  numbers (map (fun row => get row (col_key c)) data).

Definition hasStatistics (c : column) (data : list context) : bool :=
  truthy (col_isNumeric c)
  && negb (Nat.eqb (length (numericEntries c data)) 0).

(** What the specification says a conditional span reduces to: the body of
    the first branch whose condition is true, else the body of the [else]
    branch, else nothing; here with the bodies and conditions trimmed, as the
    source cuts them. *)
Fixpoint selected_body (branches : list (str * str)) (els : option str)
         (variables : context) : str :=
  match branches with
  | (c, b) :: branches' =>
      if evaluateCondition (trim c) variables then trim b
      else selected_body branches' els variables
  | [] => match els with
          | Some b => trim b
          | None => []
          end
  end.

(** The label a column name has in the [transformations] table, the name
    itself when the table has none for it. *)
Definition translation (name : str) : str :=
  match own transformations name with
  | Some (VStr label) => label
  | _ => name
  end.

End Renderer.

Arguments VUndefined {num obj fn}.
Arguments VNull {num obj fn}.
Arguments VBool {num obj fn} _.
Arguments VNum {num obj fn} _.
Arguments VStr {num obj fn} _.
Arguments VObj {num obj fn} _.
Arguments VFun {num obj fn} _.

(** ** An instance of the runtime

    The examples run the definitions with integers for numbers (printed in
    decimal, and grouped by thousands the way the en-US locale does), trees of
    records and arrays for structured values, and the built-in functions of
    Object.prototype as the only functions.

    The numbers of the instance stand for the doubles that are integers of
    magnitude below 2^53: there a double is the integer, [String] writes its
    digits (the exponent form starts at 1e21) and sums are exact.  The
    quotient is the integer quotient, which is the quotient of the doubles
    only where the division is exact; the examples read no average that is
    not.  The statements of the facts below are over any runtime (the
    variables of their sections) and do not depend on the instance. *)

Module Instance.

Definition num := Z.

Fixpoint digits_of (fuel : nat) (n : N) (acc : str) : str :=
  match fuel with
  | O => acc
  | S f =>
      let acc' := (48 + n mod 10)%N :: acc in
      if (n <? 10)%N then acc' else digits_of f (n / 10)%N acc'
  end.

Definition digits (n : N) : str := digits_of (S (N.to_nat (N.log2 n))) n [].

Definition num_toString (z : Z) : str :=
  match z with
  | Z0 => u "0"
  | Zpos p => digits (Npos p)
  | Zneg p => 45%N :: digits (Npos p)
  end.

(** Commas between groups of three digits, counted from the right. *)
Fixpoint group3 (rev_digits : str) (i : nat) : str :=
  match rev_digits with
  | [] => []
  | d :: t =>
      match i, t with
      | 2, _ :: _ => d :: 44%N :: group3 t 0
      | _, _ => d :: group3 t (S i)
      end
  end.

Definition num_toLocaleString (z : Z) : str :=
  match z with
  | Z0 => u "0"
  | Zpos p => rev (group3 (rev (digits (Npos p))) 0)
  | Zneg p => 45%N :: rev (group3 (rev (digits (Npos p))) 0)
  end.

Definition num_truthy (z : Z) : bool := negb (Z.eqb z 0).

Inductive builtin : Type :=
| BObject | BtoString | BtoLocaleString | BvalueOf | BhasOwnProperty
| BisPrototypeOf | BpropertyIsEnumerable | BdefineGetter | BdefineSetter
| BlookupGetter | BlookupSetter.

Definition builtin_name (b : builtin) : str :=
  match b with
  | BObject => u "Object"
  | BtoString => u "toString"
  | BtoLocaleString => u "toLocaleString"
  | BvalueOf => u "valueOf"
  | BhasOwnProperty => u "hasOwnProperty"
  | BisPrototypeOf => u "isPrototypeOf"
  | BpropertyIsEnumerable => u "propertyIsEnumerable"
  | BdefineGetter => u "__defineGetter__"
  | BdefineSetter => u "__defineSetter__"
  | BlookupGetter => u "__lookupGetter__"
  | BlookupSetter => u "__lookupSetter__"
  end.

Definition fn_toString (b : builtin) : str :=
  u "function " ++ builtin_name b ++ u "() { [native code] }".

#[local] Unset Elimination Schemes.
Inductive tree : Type :=
| TUndef : tree
| TNull : tree
| TBool : bool -> tree
| TNum : Z -> tree
| TStr : str -> tree
| TFun : builtin -> tree
| TBigInt : Z -> tree
| TRecord : list (str * tree) -> tree
| TArray : list tree -> tree.
#[local] Set Elimination Schemes.

Inductive obj : Type :=
| Rec : list (str * tree) -> obj
| Arr : list tree -> obj.

Definition value := value num obj builtin.
Definition context := context num obj builtin.

Definition hex_digit (n : N) : char :=
  if (n <? 10)%N then (48 + n)%N else (87 + n)%N.

Definition escape_u (c : char) : str :=
  u "\u" ++ [hex_digit (c / 4096 mod 16); hex_digit (c / 256 mod 16);
             hex_digit (c / 16 mod 16); hex_digit (c mod 16)]%N.

Definition is_lead (c : char) : bool := ((55296 <=? c) && (c <=? 56319))%N.
Definition is_trail (c : char) : bool := ((56320 <=? c) && (c <=? 57343))%N.

(** QuoteJSONString, without the enclosing quotes. *)
Fixpoint quote_body (s : str) : str :=
  match s with
  | [] => []
  | c :: t =>
      if N.eqb c 8 then u "\b" ++ quote_body t
      else if N.eqb c 9 then u "\t" ++ quote_body t
      else if N.eqb c 10 then u "\n" ++ quote_body t
      else if N.eqb c 12 then u "\f" ++ quote_body t
      else if N.eqb c 13 then u "\r" ++ quote_body t
      else if N.eqb c 34 then [92; 34]%N ++ quote_body t
      else if N.eqb c 92 then [92; 92]%N ++ quote_body t
      else if (c <? 32)%N then escape_u c ++ quote_body t
      else if is_lead c then
             match t with
             | d :: t' => if is_trail d then c :: d :: quote_body t'
                          else escape_u c ++ quote_body t
             | [] => escape_u c
             end
      else if is_trail c then escape_u c ++ quote_body t
      else c :: quote_body t
  end.

Definition quoteJSON (s : str) : str := [34%N] ++ quote_body s ++ [34%N].

(** The text [JSON.stringify] gives: inside a record a member that is
    [undefined] or a function is left out; inside an array it is written
    [null].  There is no text for a BigInt: the call throws when it meets
    one ([JSON_stringify] below), and the case is not read. *)
Fixpoint json (t : tree) : str :=
  match t with
  | TUndef | TFun _ | TNull => u "null"
  | TBool true => u "true"
  | TBool false => u "false"
  | TNum z => num_toString z
  | TBigInt _ => []
  | TStr s => quoteJSON s
  | TRecord l =>
      u "{" ++
      (fix members (l : list (str * tree)) (first : bool) : str :=
         match l with
         | [] => []
         | (k, TUndef) :: l' | (k, TFun _) :: l' => members l' first
         | (k, v) :: l' =>
             (if first then [] else u ",") ++ quoteJSON k ++ u ":" ++ json v
               ++ members l' false
         end) l true
      ++ u "}"
  | TArray l =>
      u "[" ++
      (fix elements (l : list tree) (first : bool) : str :=
         match l with
         | [] => []
         | v :: l' =>
             (if first then [] else u ",") ++ json v ++ elements l' false
         end) l true
      ++ u "]"
  end.

(** [String(t)]; an array is joined with commas, and its [null] and
    [undefined] elements are empty. *)
Fixpoint tree_toString (t : tree) : str :=
  match t with
  | TUndef => u "undefined"
  | TNull => u "null"
  | TBool true => u "true"
  | TBool false => u "false"
  | TNum z => num_toString z
  | TBigInt z => num_toString z
  | TStr s => s
  | TFun b => fn_toString b
  | TRecord _ => u "[object Object]"
  | TArray l =>
      (fix join (l : list tree) (first : bool) : str :=
         match l with
         | [] => []
         | v :: l' =>
             (if first then [] else u ",")
               ++ match v with
                  | TUndef | TNull => []
                  | _ => tree_toString v
                  end
               ++ join l' false
         end) l true
  end.

Definition tree_of_obj (o : obj) : tree :=
  match o with
  | Rec l => TRecord l
  | Arr l => TArray l
  end.

Definition obj_toString (o : obj) : str := tree_toString (tree_of_obj o).
(** Whether the serialisation meets a BigInt: every member of a record and
    every element of an array is visited. *)
Fixpoint has_bigint (t : tree) : bool :=
  match t with
  | TBigInt _ => true
  | TRecord l =>
      (fix members (l : list (str * tree)) : bool :=
         match l with
         | [] => false
         | (_, v) :: l' => has_bigint v || members l'
         end) l
  | TArray l =>
      (fix elements (l : list tree) : bool :=
         match l with
         | [] => false
         | v :: l' => has_bigint v || elements l'
         end) l
  | _ => false
  end.

Definition JSON_stringify (o : obj) : result str :=
  if has_bigint (tree_of_obj o) then Throw TypeError
  else Ok (json (tree_of_obj o)).

Definition tree_of_value (v : value) : tree :=
  match v with
  | VUndefined => TUndef
  | VNull => TNull
  | VBool b => TBool b
  | VNum z => TNum z
  | VStr s => TStr s
  | VObj o => tree_of_obj o
  | VFun b => TFun b
  end.

Definition obj_of_record (r : context) : obj :=
  Rec (map (fun kv => (fst kv, tree_of_value (snd kv))) r).

Definition obj_of_array (l : list value) : obj := Arr (map tree_of_value l).

(** The built-in methods called with one string argument. *)
Definition fn_call (b : builtin) (this : context) (arg : str) : result bool :=
  match b with
  | BhasOwnProperty | BpropertyIsEnumerable =>
      Ok (hasOwn this arg)
  | BisPrototypeOf | BlookupGetter | BlookupSetter => Ok false
  | BObject | BtoString | BtoLocaleString | BvalueOf => Ok true
  | BdefineGetter | BdefineSetter => Throw TypeError
  end.

Definition proto (k : str) : option value :=
  if eqb_str k (u "__proto__") then Some (VObj (Rec []))
  else if eqb_str k (u "constructor") then Some (VFun BObject)
  else option_map (fun b => VFun b)
         (find (fun b => eqb_str k (builtin_name b))
               [BtoString; BtoLocaleString; BvalueOf; BhasOwnProperty;
                BisPrototypeOf; BpropertyIsEnumerable; BdefineGetter;
                BdefineSetter; BlookupGetter; BlookupSetter]).

Definition evaluateCondition : str -> context -> bool :=
  evaluateCondition num_toString num_truthy obj_toString fn_toString
    fn_call proto.

Definition processConditionalBlocks : str -> context -> result str :=
  processConditionalBlocks num_toString num_truthy obj_toString fn_toString
    fn_call proto.

Definition renderJinjaTemplate : str -> context -> result str :=
  renderJinjaTemplate num_toString num_toLocaleString num_truthy obj_toString
    JSON_stringify fn_toString fn_call proto.

Definition transformColumnName : str -> value :=
  transformColumnName num_toString num_truthy obj_toString fn_toString proto.

Definition Math_min (l : list Z) : Z :=
  match l with
  | [] => 0%Z
  | x :: l' => fold_left Z.min l' x
  end.

Definition Math_max (l : list Z) : Z :=
  match l with
  | [] => 0%Z
  | x :: l' => fold_left Z.max l' x
  end.

Definition buildVariables
  : column num obj builtin -> list context -> bool -> option (list value)
    -> context :=
  buildVariables num_truthy proto (fun n => Z.of_nat n) 0%Z Z.add Z.div
    Math_min Math_max obj_of_record obj_of_array.

Definition generateDynamicColumnName
  : column num obj builtin -> list context -> str -> bool
    -> option (list value) -> result str :=
  generateDynamicColumnName num_toString num_toLocaleString num_truthy
    obj_toString
    JSON_stringify fn_toString proto (fun n => Z.of_nat n) 0%Z Z.add Z.div
    Math_min Math_max obj_of_record obj_of_array.

(** Sample data: a column of sales figures. *)
Definition sales_column (isNumeric : value) : column num obj builtin :=
  Column (u "Sales") VUndefined (u "k") (VNum 0%Z) VUndefined VUndefined
         isNumeric.

(** A row with a BigInt member: JSON.stringify throws on it. *)
Definition big_row : value := VObj (Rec [(u "id", TBigInt 7%Z)]).

Definition sales_rows : list context :=
  [[(u "k", VNum 10%Z)]; [(u "k", VNum 999%Z)]; [(u "k", VNum 50%Z)]].

End Instance.

(** * The other entry points of the renderer file *)

Module JinjaRenderer.
Section Entry.

Variable num : Type.
Variable num_toString : num -> str.
Variable num_toLocaleString : num -> str.
Variable num_truthy : num -> bool.
Variable obj : Type.
Variable obj_toString : obj -> str.
Variable JSON_stringify : obj -> result str.
Variable fn : Type.
Variable fn_toString : fn -> str.
Variable fn_call : fn -> context num obj fn -> str -> result bool.
Variable proto : str -> option (value num obj fn).

(** [generateDynamicColumnName(template, jinjaFieldValues, filterValues)] of
    the renderer file: nothing for an empty template, else the render of the
    template with the field values, trimmed.  The lines that write to the
    console read the field values and change nothing; the third argument is
    not used. *)
Definition generateDynamicColumnName (template : str)
           (jinjaFieldValues : context num obj fn)
           (filterValues : option (context num obj fn)) : result str :=
  match template with
  | [] => Ok []
  | _ :: _ =>
      result <- renderJinjaTemplate num_toString num_toLocaleString num_truthy
                  obj_toString JSON_stringify fn_toString fn_call proto
                  template jinjaFieldValues ;;
      Ok (trim result)
  end.

End Entry.
End JinjaRenderer.

(** ** escapeHtml

    The text is made the text content of a new [div] element and the inner
    HTML of the element is read back.  The element then has the text as its
    one child (no child for the empty text), and the serialisation of a text
    child of a [div] replaces the ampersand, the no-break space and the two
    angle brackets by their entities and keeps every other code unit. *)
Definition escapeCodeUnit (c : char) : str :=
  if N.eqb c 38 then u "&amp;"
  else if N.eqb c 160 then u "&nbsp;"
  else if N.eqb c 60 then u "&lt;"
  else if N.eqb c 62 then u "&gt;"
  else [c].

Definition escapeHtml (text : str) : str := flat_map escapeCodeUnit text.

(** * Vocabulary of the statements *)

(** ** What a pattern can match *)

Inductive matches : regex -> str -> Prop :=
| M_Eps : matches Eps []
| M_Chr : forall (p : char -> bool) c, p c = true -> matches (Chr p) [c]
| M_Seq : forall a b w1 w2,
    matches a w1 -> matches b w2 -> matches (Seq a b) (w1 ++ w2)
| M_AltL : forall a b w, matches a w -> matches (Alt a b) w
| M_AltR : forall a b w, matches b w -> matches (Alt a b) w
| M_Star0 : forall g a, matches (Star g a) []
| M_StarS : forall g a w1 w2,
    matches a w1 -> matches (Star g a) w2 -> matches (Star g a) (w1 ++ w2)
| M_Group : forall i a w, matches a w -> matches (Group i a) w
| M_Bol : matches Bol []
| M_Eol : matches Eol [].

(** Whether a pattern matches the empty word, and which code units can
    begin a word it matches. *)
Fixpoint nullable (r : regex) : bool :=
  match r with
  | Eps | Bol | Eol => true
  | Chr _ => false
  | Seq a b => nullable a && nullable b
  | Alt a b => nullable a || nullable b
  | Star _ _ => true
  | Group _ a => nullable a
  end.

Fixpoint first_ok (r : regex) (c : char) : bool :=
  match r with
  | Eps | Bol | Eol => false
  | Chr p => p c
  | Seq a b => first_ok a c || (nullable a && first_ok b c)
  | Alt a b => first_ok a c || first_ok b c
  | Star _ a => first_ok a c
  | Group _ a => first_ok a c
  end.

(** ** Placeholders and directive spans *)

Definition all_space (w : str) : Prop := forallb is_space w = true.

(** [t] contains [p]. *)
Definition occurs (p t : str) : Prop := exists a b, t = a ++ p ++ b.

(** A placeholder for [key]: the key between double braces, with optional
    white space around it. *)
Definition placeholder_for (key p : str) : Prop :=
  exists w1 w2, all_space w1 /\ all_space w2 /\
    p = u "{{" ++ w1 ++ key ++ w2 ++ u "}}".

(** An opening [if] directive with its condition. *)
Definition if_tag (tag : str) : Prop :=
  exists w1 w2 cond w3,
    all_space w1 /\ all_space w2 /\ w2 <> [] /\
    forallb not_pct_brace cond = true /\ cond <> [] /\ all_space w3 /\
    tag = u "{%" ++ w1 ++ u "if" ++ w2 ++ cond ++ w3 ++ u "%}".

(** A closing [endif] directive. *)
Definition endif_tag (tag : str) : Prop :=
  exists w1 w2, all_space w1 /\ all_space w2 /\
    tag = u "{%" ++ w1 ++ u "endif" ++ w2 ++ u "%}".

(** A complete directive span: an [if] directive, any text, an [endif]
    directive. *)
Definition if_span (sp : str) : Prop :=
  exists tag body close, if_tag tag /\ endif_tag close /\
    sp = tag ++ body ++ close.

(** ** Names and keys *)

Definition is_brace (c : char) : bool := N.eqb c 123 || N.eqb c 125.

(** No brace in the text: it cannot hold part of a placeholder delimiter. *)
Definition brace_free (s : str) : Prop :=
  forallb (fun c => negb (is_brace c)) s = true.

(** A name as it is written in a placeholder: no brace and no white space. *)
Definition plain_name (s : str) : Prop :=
  forallb (fun c => negb (is_brace c || is_space c)) s = true.

(** The placeholder for [name], written without white space. *)
Definition placeholder (name : str) : str := u "{{" ++ name ++ u "}}".


(** The text is over, or goes on with a code unit outside the class. *)
Definition stops_at (p : char -> bool) (s : str) : Prop :=
  match s with [] => True | c :: _ => p c = false end.

(** ** Conditions *)

(** A name as it is written in a condition: not empty, without white space
    and without an equals sign. *)
Definition condition_name (s : str) : Prop :=
  s <> [] /\ forallb (fun c => negb (is_space c || N.eqb c 61)) s = true.

(** A literal as it is written between quotes: not empty, without a quote
    and without a line terminator. *)
Definition quoted_literal (s : str) : Prop :=
  s <> []
  /\ forallb (fun c => negb (is_quote c || is_line_terminator c)) s = true.

(** The equality condition [name == 'literal'], with the white space around
    the operator and the two quote characters as they are written. *)
Definition equality_condition (name w1 w2 : str) (q1 : char) (lit : str)
           (q2 : char) : str :=
  name ++ w1 ++ u "==" ++ w2 ++ q1 :: lit ++ [q2].

(** ** Conditional spans in canonical form *)

(** A condition as it is written in a directive: it begins with a character
    that is not white space and is made of the characters that the directive
    patterns accept in a condition, all but the percent sign and the closing
    brace. *)
Definition clean_condition (c : str) : Prop :=
  stops_at is_space c /\ c <> [] /\ forallb not_pct_brace c = true.

(** A branch body: any text in which no directive opens. *)
Definition clean_body (b : str) : Prop := ~ occurs (u "{%") b.

Definition if_directive (c : str) : str := u "{% if " ++ c ++ u " %}".
Definition elif_directive (c : str) : str := u "{% elif " ++ c ++ u " %}".
Definition else_directive : str := u "{% else %}".
Definition endif_directive : str := u "{% endif %}".

(** The [else] branch, when there is one. *)
Definition else_text (els : option str) : str :=
  match els with
  | Some b => else_directive ++ b
  | None => []
  end.

(** The [elif] branches, each a condition and a body, then the [else]
    branch. *)
Fixpoint branches_text (elifs : list (str * str)) (els : option str) : str :=
  match elifs with
  | [] => else_text els
  | (c, b) :: elifs' => elif_directive c ++ b ++ branches_text elifs' els
  end.

(** The whole span, from the [if] directive to the [endif] directive. *)
Definition span_text (c1 b1 : str) (elifs : list (str * str))
           (els : option str) : str :=
  if_directive c1 ++ (b1 ++ branches_text elifs els) ++ endif_directive.

(** The text that follows a body: nothing, or something that begins with an
    opening brace. *)
Definition opens_or_ends (t : str) : Prop :=
  match t with [] => True | c :: _ => c = 123%N end.

(** A match found further on, after the text [b]. *)
Definition prepend (b : str) (o : option rmatch) : option rmatch :=
  match o with
  | Some mt =>
      Some (RMatch (b ++ m_before mt) (m_text mt) (m_after mt) (m_caps mt))
  | None => None
  end.

(** The property [P] holds of the input from every place inside [x], when
    [x] is followed by [s]. *)
Definition everywhere (P : str -> Prop) (x s : str) : Prop :=
  forall w1 c w2, x = w1 ++ c :: w2 -> P (c :: w2 ++ s).

(** The closing part of the block pattern. *)
Definition endifPattern : regex :=
  seqs [lits (u "{%"); Star true ws; lits (u "endif"); Star true ws;
        lits (u "%}")].

(** The pattern fails on the input [t], whatever comes after the pattern. *)
Definition fails_at (r : regex) (t : str) : Prop :=
  forall n cs k, m n r (MState t cs) k = None.

(** A pattern for a directive: the opening, white space, a keyword, and the
    rest. *)
Definition directivePattern (kw : str) (r' : regex) : regex :=
  Seq (lits (u "{%")) (Seq (Star true ws) (Seq (lits kw) r')).

Definition clean_branch (cb : str * str) : Prop :=
  clean_condition (fst cb) /\ clean_body (snd cb).

Definition clean_else (els : option str) : Prop :=
  match els with
  | Some b => clean_body b
  | None => True
  end.

(** The [elif] branches alone. *)
Definition elifs_text (elifs : list (str * str)) : str :=
  branches_text elifs None.

(** The breakpoints of the [elif] branches, the first one at index [off]. *)
Fixpoint bps_from (off : nat) (elifs : list (str * str)) : list breakpoint :=
  match elifs with
  | [] => []
  | (c, b) :: elifs' =>
      Breakpoint off TElif (Some (trim (c ++ u " ")))
        :: bps_from (off + length (elif_directive c) + length b) elifs'
  end.

(** All the breakpoints of a span whose [elif] branches begin at [off]. *)
Definition all_bps (off : nat) (elifs : list (str * str)) (els : option str)
  : list breakpoint :=
  bps_from off elifs
  ++ match els with
     | Some _ => [Breakpoint (off + length (elifs_text elifs)) TElse None]
     | None => []
     end.

Fixpoint increasing (l : list breakpoint) : Prop :=
  match l with
  | a :: (b :: _) as t => bp_index a < bp_index b /\ increasing t
  | _ => True
  end.

(** The blocks after the first one. *)
Definition blocks_of (elifs : list (str * str)) (els : option str)
  : list block :=
  map (fun cb => Block TElif (Some (trim (fst cb ++ u " "))) (trim (snd cb)))
      elifs
  ++ match els with
     | Some b => [Block TElse None (trim b)]
     | None => []
     end.

(** ** Aggregate wrappers *)

(** The function names of the wrapper pattern, in the order of its
    alternatives. *)
Definition function_names : list str :=
  [u "SUM"; u "COUNT"; u "AVG"; u "MAX"; u "MIN"].

(** [FUNC(field)] *)
Definition wrapped (func field : str) : str :=
  func ++ 40%N :: field ++ [41%N].

(** Whether the input begins with the text [p], letter case apart. *)
Fixpoint prefix_i (p s : str) : bool :=
  match p, s with
  | [], _ => true
  | a :: p', c :: s' => N.eqb (upper_ascii c) (upper_ascii a) && prefix_i p' s'
  | _ :: _, [] => false
  end.

(** ** Templates cut at their placeholders *)

(** A template without directives, as a sequence of pieces: the text between
    placeholders, and the placeholders, each with its name and the white
    space written before and after the name. *)
Inductive piece : Type :=
| Text : str -> piece
| Hole : str -> str -> str -> piece.

Definition piece_text (p : piece) : str :=
  match p with
  | Text s => s
  | Hole name w1 w2 => u "{{" ++ w1 ++ name ++ w2 ++ u "}}"
  end.

Definition template_text (tpl : list piece) : str := flat_map piece_text tpl.

(** The text between placeholders has no brace; a name has no brace and no
    white space. *)
Definition well_formed (p : piece) : Prop :=
  match p with
  | Text s => brace_free s
  | Hole name w1 w2 => plain_name name /\ all_space w1 /\ all_space w2
  end.

(** The one name whose placeholder reads as the opening of a directive. *)
Definition no_directive (p : piece) : Prop :=
  match p with
  | Text _ => True
  | Hole name _ _ => name <> u "%if"
  end.

(** A piece once the placeholders of the names that [resolve] knows are
    replaced. *)
Definition fill (resolve : str -> option str) (p : piece) : str :=
  match p with
  | Text s => s
  | Hole name _ _ =>
      match resolve name with
      | Some d => d
      | None => piece_text p
      end
  end.

(** One replacement pass: the placeholders of [key] become the text that [h]
    makes of them. *)
Definition subst_piece (key : str) (h : str -> str) (p : piece) : piece :=
  match p with
  | Text _ => p
  | Hole name _ _ => if eqb_str name key then Text (h (piece_text p)) else p
  end.

(** A template of well-formed pieces in which no directive opens. *)
Definition plain_template (tpl : list piece) : Prop :=
  Forall (fun p => well_formed p /\ no_directive p) tpl.

(** The formatted value of a context entry can stand in a text as it is: it
    has no brace, so that no later key finds a placeholder in it, and no
    dollar sign, so that the replacement inserts it unchanged. *)
Definition inert (d : str) : Prop := brace_free d /\ ~ In 36%N d.

(** ** Method and bare conditions *)

(** The name a [startswith] condition tests: not empty, without white space,
    without an equals sign and without a dot. *)
Definition receiver_name (s : str) : Prop :=
  s <> []
  /\ forallb (fun c => negb (is_space c || N.eqb c 61 || N.eqb c 46)) s = true.

(** The condition [name.startswith('prefix')], with the two quote characters
    as they are written. *)
Definition startswith_condition (name : str) (q1 : char) (prefix : str)
           (q2 : char) : str :=
  name ++ u ".startswith(" ++ q1 :: prefix ++ q2 :: u ")".

(** A condition that is neither an equality nor a method call: it has no
    equals sign and no opening parenthesis. *)
Definition bare_condition (s : str) : Prop := ~ In 61%N s /\ ~ In 40%N s.

(** An identifier that is, as a whole, one of the five function names in any
    letter case followed by a field in parentheses, the field without a line
    terminator. *)
Definition wrapped_name (name : str) : Prop :=
  exists f field,
    In (map upper_ascii f) function_names
    /\ forallb (fun c => negb (is_line_terminator c)) field = true
    /\ name = wrapped f field.

(** A text with no white space at either end. *)
Definition trimmed (s : str) : Prop :=
  stops_at is_space s /\ stops_at is_space (rev s).

(** ** Templates with several conditional spans *)

(** A conditional span in canonical form with the text that follows it, up
    to the next span. *)
Record cspan : Type := CSpan {
  sp_cond : str;
  sp_body : str;
  sp_elifs : list (str * str);
  sp_else : option str;
  sp_after : str
}.

Definition cspan_text (s : cspan) : str :=
  span_text (sp_cond s) (sp_body s) (sp_elifs s) (sp_else s) ++ sp_after s.

Definition clean_cspan (s : cspan) : Prop :=
  clean_condition (sp_cond s) /\ clean_body (sp_body s)
  /\ Forall clean_branch (sp_elifs s) /\ clean_else (sp_else s)
  /\ clean_body (sp_after s).

Section SpanVocabulary.

Variable num : Type.
Variable num_toString : num -> str.
Variable num_truthy : num -> bool.
Variable obj : Type.
Variable obj_toString : obj -> str.
Variable fn : Type.
Variable fn_toString : fn -> str.
Variable fn_call : fn -> context num obj fn -> str -> result bool.
Variable proto : str -> option (value num obj fn).

(** What a span and the text after it become: the selected body, and the
    text. *)
Definition resolved_span (variables : context num obj fn) (s : cspan) : str :=
  selected_body num_toString num_truthy obj_toString fn_toString fn_call proto
    ((sp_cond s, sp_body s) :: sp_elifs s) (sp_else s) variables
  ++ sp_after s.

End SpanVocabulary.

(** A condition written without any quote character. *)
Definition unquoted (s : str) : Prop :=
  forallb (fun c => negb (is_quote c)) s = true.

(** * Facts about the matcher *)

#[local] Hint Constructors matches : core.

Lemma repeat_m_sound (g : bool) (mr : mstate -> cont -> option mstate)
      (a : regex) (k : cont) :
  (forall x k' z, mr x k' = Some z ->
     exists w y, rest x = w ++ rest y /\ matches a w /\ k' y = Some z) ->
  forall fuel x z,
    repeat_m g mr fuel x k = Some z ->
    exists w y, rest x = w ++ rest y /\ matches (Star g a) w /\ k y = Some z.
Proof.
  intros Hmr fuel. induction fuel as [|f IH]; intros x z H; simpl in H.
  - discriminate.
  - assert (Hiter : forall z',
      mr x (fun y => if length (rest y) <? length (rest x)
                     then repeat_m g mr f y k else None) = Some z' ->
      exists w y, rest x = w ++ rest y /\ matches (Star g a) w /\ k y = Some z').
    { intros z' Hz. apply Hmr in Hz. destruct Hz as (w1 & y1 & E1 & M1 & K1).
      destruct (length (rest y1) <? length (rest x)); [|discriminate].
      apply IH in K1. destruct K1 as (w2 & y2 & E2 & M2 & K2).
      exists (w1 ++ w2), y2. rewrite E1, E2, app_assoc. auto. }
    assert (Hk : forall z', k x = Some z' ->
      exists w y, rest x = w ++ rest y /\ matches (Star g a) w /\ k y = Some z').
    { intros z' Hz. exists [], x. auto. }
    destruct g.
    + destruct (mr x _) as [z'|] eqn:E.
      * inversion H; subst. now apply Hiter.
      * now apply Hk.
    + destruct (k x) as [z'|] eqn:E.
      * inversion H; subst. now apply Hk.
      * now apply Hiter.
Qed.

(** Soundness: a successful run consumed a word of the pattern's language and
    then ran the continuation on what was left. *)
Lemma m_sound (n : nat) (r : regex) :
  forall x k z, m n r x k = Some z ->
    exists w y, rest x = w ++ rest y /\ matches r w /\ k y = Some z.
Proof.
  induction r as [|p|a IHa b IHb|a IHa b IHb|g a IHa|i a IHa| |];
    intros x k z H; cbn [m] in H.
  - exists [], x. auto.
  - destruct (rest x) as [|c t] eqn:E; [discriminate|].
    destruct (p c) eqn:Ep; [|discriminate].
    exists [c], (MState t (caps x)). auto.
  - apply IHa in H. destruct H as (w1 & y1 & E1 & M1 & H).
    apply IHb in H. destruct H as (w2 & y2 & E2 & M2 & H).
    exists (w1 ++ w2), y2. rewrite E1, E2, app_assoc. auto.
  - destruct (m n a x k) as [z'|] eqn:E.
    + inversion H; subst. apply IHa in E.
      destruct E as (w & y & E1 & M1 & K1). exists w, y. auto.
    + apply IHb in H. destruct H as (w & y & E1 & M1 & K1). exists w, y. auto.
  - eapply repeat_m_sound; [|exact H]. intros x' k' z' H'. now apply IHa.
  - apply IHa in H. destruct H as (w & y & E1 & M1 & K1).
    exists w, (MState (rest y)
      ((i, firstn (length (rest x) - length (rest y)) (rest x)) :: caps y)).
    simpl. auto.
  - destruct (Nat.eqb _ _); [|discriminate]. exists [], x. auto.
  - destruct (rest x) eqn:E; [|discriminate]. exists [], x. auto.
Qed.

Lemma match_at_sound n r s mt :
  match_at n r s = Some mt ->
  m_before mt = [] /\ s = m_text mt ++ m_after mt /\ matches r (m_text mt).
Proof.
  unfold match_at. intros H.
  destruct (m n r (MState s []) (fun y => Some y)) as [y|] eqn:E; [|discriminate].
  inversion H; subst; clear H. simpl.
  apply m_sound in E. destruct E as (w & y' & E1 & M1 & K1).
  inversion K1; subst. simpl in E1. subst s.
  rewrite length_app, Nat.add_sub.
  rewrite firstn_app, Nat.sub_diag, firstn_all. simpl. rewrite app_nil_r. auto.
Qed.

Lemma search_sound n r s mt :
  search n r s = Some mt ->
  s = m_before mt ++ m_text mt ++ m_after mt /\ matches r (m_text mt).
Proof.
  revert mt. induction s as [|c s IH]; intros mt H; simpl in H.
  - destruct (match_at n r []) as [mt'|] eqn:E; [|discriminate].
    inversion H; subst. apply match_at_sound in E. destruct E as (E0 & E1 & E2).
    rewrite E0. auto.
  - destruct (match_at n r (c :: s)) as [mt'|] eqn:E.
    + inversion H; subst. apply match_at_sound in E. destruct E as (E0 & E1 & E2).
      rewrite E0. auto.
    + destruct (search n r s) as [mt'|] eqn:E'; [|discriminate].
      simpl in H. inversion H; subst; simpl.
      destruct (IH _ eq_refl) as (E1 & E2). rewrite <- E1. auto.
Qed.

(** The matcher only looks at what its continuation answers. *)
Lemma repeat_m_ext g (mr : mstate -> cont -> option mstate) :
  (forall x k1 k2, (forall y, k1 y = k2 y) -> mr x k1 = mr x k2) ->
  forall fuel x k1 k2, (forall y, k1 y = k2 y) ->
    repeat_m g mr fuel x k1 = repeat_m g mr fuel x k2.
Proof.
  intros Hmr fuel. induction fuel as [|f IH]; intros x k1 k2 Hk; simpl.
  - reflexivity.
  - rewrite (Hk x).
    rewrite (Hmr x _ (fun y => if length (rest y) <? length (rest x)
                               then repeat_m g mr f y k2 else None)).
    + reflexivity.
    + intros y. destruct (_ <? _); [|reflexivity]. now apply IH.
Qed.

Lemma m_ext n r :
  forall x k1 k2, (forall y, k1 y = k2 y) -> m n r x k1 = m n r x k2.
Proof.
  induction r as [|p|a IHa b IHb|a IHa b IHb|g a IHa|i a IHa| |];
    intros x k1 k2 Hk; cbn [m].
  - apply Hk.
  - destruct (rest x) as [|c t]; [reflexivity|].
    destruct (p c); [apply Hk|reflexivity].
  - apply IHa. intros y. now apply IHb.
  - rewrite (IHa x k1 k2 Hk), (IHb x k1 k2 Hk). reflexivity.
  - now apply repeat_m_ext.
  - apply IHa. intros y. apply Hk.
  - destruct (Nat.eqb _ _); [apply Hk|reflexivity].
  - destruct (rest x); [apply Hk|reflexivity].
Qed.

(** The fuel given to a star is never used up: any two amounts above the
    length of the remaining input give the same answer. *)
Lemma repeat_m_fuel g n a k :
  forall f1 f2 x, length (rest x) < f1 -> length (rest x) < f2 ->
    repeat_m g (m n a) f1 x k = repeat_m g (m n a) f2 x k.
Proof.
  induction f1 as [|f1 IH]; intros f2 x H1 H2; [lia|].
  destruct f2 as [|f2]; [lia|]. simpl.
  rewrite (m_ext n a x _
             (fun y => if length (rest y) <? length (rest x)
                       then repeat_m g (m n a) f2 y k else None)).
  - reflexivity.
  - intros y. destruct (length (rest y) <? length (rest x)) eqn:E; [|reflexivity].
    apply Nat.ltb_lt in E. apply IH; lia.
Qed.

Lemma matches_nullable r w : matches r w -> w = [] -> nullable r = true.
Proof.
  induction 1; intros E; simpl; try reflexivity; try discriminate.
  - apply app_eq_nil in E. destruct E. now rewrite IHmatches1, IHmatches2.
  - now rewrite IHmatches.
  - rewrite IHmatches by assumption. apply orb_true_r.
  - auto.
Qed.

Lemma matches_first r w0 :
  matches r w0 -> forall c w, w0 = c :: w -> first_ok r c = true.
Proof.
  induction 1; intros c0 w0 E; simpl; try discriminate.
  - inversion E; subst. assumption.
  - destruct w1 as [|c1 w1]; simpl in E.
    + rewrite (matches_nullable H eq_refl), (IHmatches2 _ _ E).
      apply orb_true_r.
    + inversion E; subst. now rewrite (IHmatches1 _ _ eq_refl).
  - now rewrite (IHmatches _ _ E).
  - rewrite (IHmatches _ _ E). apply orb_true_r.
  - destruct w1 as [|c1 w1]; simpl in E.
    + exact (IHmatches2 _ _ E).
    + inversion E; subst. exact (IHmatches1 _ _ eq_refl).
  - exact (IHmatches _ _ E).
Qed.

(** A pattern that needs a first code unit fails where the input is over or
    begins with a code unit the pattern cannot begin with. *)
Lemma m_none_first n r x k :
  nullable r = false ->
  match rest x with [] => True | c :: _ => first_ok r c = false end ->
  m n r x k = None.
Proof.
  intros Hn Hf. destruct (m n r x k) as [z|] eqn:E; [|reflexivity].
  apply m_sound in E. destruct E as (w & y & E1 & M1 & _).
  destruct w as [|c w].
  - rewrite (matches_nullable M1 eq_refl) in Hn. discriminate.
  - rewrite E1 in Hf. simpl in Hf.
    rewrite (matches_first M1 eq_refl) in Hf. discriminate.
Qed.

Lemma matches_nonempty r w : nullable r = false -> matches r w -> w <> [].
Proof.
  intros Hn M E. rewrite (matches_nullable M E) in Hn. discriminate.
Qed.

(** ** The loops end *)

Lemma replace_loop_ok n r (f : rmatch -> str -> str -> result str) :
  (forall mt b a, exists rep, f mt b a = Ok rep) ->
  forall fuel done s, length s < fuel ->
    exists out, replace_loop fuel n r f done s = Ok out.
Proof.
  intros Hf fuel. induction fuel as [|fuel IH]; intros done s Hlen; [lia|].
  simpl. destruct (search n r s) as [mt|] eqn:E; [|eauto].
  apply search_sound in E. destruct E as (E & _).
  destruct (Hf mt (done ++ m_before mt) (m_after mt)) as (rep & Hrep).
  rewrite Hrep. simpl.
  assert (L : length s = length (m_before mt) + length (m_text mt)
                         + length (m_after mt)).
  { rewrite E at 1. rewrite !length_app. lia. }
  destruct (m_text mt) as [|c0 t0] eqn:Et.
  - destruct (m_after mt) as [|c t] eqn:Ea; [eauto|].
    destruct (IH ((done ++ m_before mt) ++ [c]) t) as (tl & Htl).
    { simpl in L. lia. }
    rewrite Htl. simpl. eauto.
  - destruct (IH ((done ++ m_before mt) ++ c0 :: t0) (m_after mt)) as (tl & Htl).
    { simpl in L. lia. }
    rewrite Htl. simpl. eauto.
Qed.

Lemma replace_all_ok r (f : rmatch -> str -> str -> result str) s :
  (forall mt b a, exists rep, f mt b a = Ok rep) ->
  exists out, replace_all r f s = Ok out.
Proof.
  intros Hf. unfold replace_all. apply replace_loop_ok; auto.
Qed.

Lemma elifLoop_ok n :
  forall fuel done s, length s < fuel ->
    exists l, elifLoop fuel n done s = Ok l.
Proof.
  induction fuel as [|fuel IH]; intros done s Hlen; [lia|].
  simpl. destruct (search n elifRegex s) as [mt|] eqn:E; [|eauto].
  apply search_sound in E. destruct E as (E & M).
  apply matches_nonempty in M; [|reflexivity].
  destruct (m_text mt) as [|c0 t0] eqn:Et; [congruence|].
  destruct (IH (done ++ m_before mt ++ c0 :: t0) (m_after mt)) as (tl & Htl).
  { rewrite E, !length_app in Hlen. simpl in Hlen. lia. }
  rewrite Htl. simpl. eauto.
Qed.

(** ** Inversion of [matches] *)

Lemma matches_Seq_inv a b w :
  matches (Seq a b) w ->
  exists w1 w2, w = w1 ++ w2 /\ matches a w1 /\ matches b w2.
Proof. inversion 1; subst; eauto. Qed.

Lemma matches_Group_inv i a w : matches (Group i a) w -> matches a w.
Proof. inversion 1; subst; auto. Qed.

Lemma matches_Chr_inv (p : char -> bool) w :
  matches (Chr p) w -> exists c, w = [c] /\ p c = true.
Proof. inversion 1; subst; eauto. Qed.

Lemma matches_Eps_inv w : matches Eps w -> w = [].
Proof. inversion 1; subst; auto. Qed.

Lemma matches_lits_inv p : forall w, matches (lits p) w -> w = p.
Proof.
  induction p as [|c p IH]; intros w H; simpl in H.
  - now apply matches_Eps_inv.
  - apply matches_Seq_inv in H. destruct H as (w1 & w2 & E & H1 & H2).
    apply matches_Chr_inv in H1. destruct H1 as (c' & E1 & Hc).
    apply N.eqb_eq in Hc. apply IH in H2. subst. reflexivity.
Qed.

Lemma matches_Star_Chr g (p : char -> bool) w :
  matches (Star g (Chr p)) w -> forallb p w = true.
Proof.
  intros H. remember (Star g (Chr p)) as r eqn:Er.
  induction H; inversion Er; subst; simpl; auto.
  apply matches_Chr_inv in H. destruct H as (c & E & Hc). subst. simpl.
  rewrite Hc. simpl. apply IHmatches2. reflexivity.
Qed.

Lemma matches_Plus_Chr g (p : char -> bool) w :
  matches (Plus g (Chr p)) w -> forallb p w = true /\ w <> [].
Proof.
  unfold Plus. intros H.
  apply matches_Seq_inv in H. destruct H as (w1 & w2 & E & H1 & H2).
  apply matches_Chr_inv in H1. destruct H1 as (c & E1 & Hc).
  apply matches_Star_Chr in H2. subst. simpl. rewrite Hc, H2.
  split; [reflexivity|discriminate].
Qed.

Ltac minv :=
  repeat match goal with
  | H : matches (Seq _ _) _ |- _ =>
      apply matches_Seq_inv in H;
      let w1 := fresh "w" in let w2 := fresh "w" in
      let E := fresh "E" in let H1 := fresh "M" in let H2 := fresh "M" in
      destruct H as (w1 & w2 & E & H1 & H2)
  | H : matches (Group _ _) _ |- _ => apply matches_Group_inv in H
  | H : matches (lits _) _ |- _ => apply matches_lits_inv in H
  | H : matches (Star _ (Chr _)) _ |- _ => apply matches_Star_Chr in H
  | H : matches (Plus _ (Chr _)) _ |- _ =>
      apply matches_Plus_Chr in H;
      let H1 := fresh "M" in let H2 := fresh "M" in destruct H as (H1 & H2)
  end.

Lemma keyRegex_placeholder key w :
  matches (keyRegex key) w -> placeholder_for key w.
Proof.
  unfold keyRegex, ws. cbn [seqs]. intros H. minv. subst.
  eexists _, _. split; [|split]; cycle 2.
  - reflexivity.
  - assumption.
  - assumption.
Qed.

Lemma fullBlockPattern_span w : matches fullBlockPattern w -> if_span w.
Proof.
  unfold fullBlockPattern, ws, anychar. cbn [seqs]. intros H. minv. subst.
  match goal with
  | |- if_span (_ ++ ?a ++ _ ++ ?b ++ ?c ++ ?d ++ _ ++ ?body ++ _ ++ ?e ++ _
                  ++ ?f ++ _) =>
      exists (u "{%" ++ a ++ u "if" ++ b ++ c ++ d ++ u "%}"), body,
        (u "{%" ++ e ++ u "endif" ++ f ++ u "%}");
      split; [exists a, b, c, d|split; [exists e, f|]]
  end.
  - repeat match goal with |- _ /\ _ => split end;
      try assumption; reflexivity.
  - repeat match goal with |- _ /\ _ => split end;
      try assumption; reflexivity.
  - rewrite <- !app_assoc. reflexivity.
Qed.

(** ** A pattern that matches nowhere *)

Lemma search_none_replace_all r (f : rmatch -> str -> str -> result str) s :
  search (length s) r s = None -> replace_all r f s = Ok s.
Proof. unfold replace_all. simpl. intros ->. reflexivity. Qed.

Lemma no_occurrence_search n r s :
  (forall w, matches r w -> ~ occurs w s) -> search n r s = None.
Proof.
  intros H. destruct (search n r s) as [mt|] eqn:E; [|reflexivity].
  apply search_sound in E. destruct E as (E & M).
  exfalso. apply (H _ M). exists (m_before mt), (m_after mt). exact E.
Qed.

Lemma occurs_In p t (c : char) : occurs p t -> In c p -> In c t.
Proof.
  intros (a & b & ->) Hc. apply in_or_app. right. apply in_or_app. now left.
Qed.

Lemma placeholder_has_brace key p : placeholder_for key p -> In 123%N p.
Proof. intros (w1 & w2 & _ & _ & ->). simpl. auto. Qed.

Lemma if_span_has_brace sp : if_span sp -> In 123%N sp.
Proof.
  intros (tag & body & close & (w1 & w2 & c & w3 & _ & _ & _ & _ & _ & _ & ->)
          & _ & ->).
  simpl. auto.
Qed.

(** ** Where a search stops *)

Lemma match_at_before n r s mt : match_at n r s = Some mt -> m_before mt = [].
Proof. intros H. now apply match_at_sound in H. Qed.

Lemma search_first n r s mt :
  search n r s = Some mt ->
  match_at n r (skipn (length (m_before mt)) s)
  = Some (RMatch [] (m_text mt) (m_after mt) (m_caps mt))
  /\ forall j, j < length (m_before mt) -> match_at n r (skipn j s) = None.
Proof.
  revert mt. induction s as [|c s IH]; intros mt H; simpl in H.
  - destruct (match_at n r []) as [mt'|] eqn:E; [|discriminate].
    inversion H; subst. rewrite (match_at_before _ _ _ E). simpl.
    split; [|intros; lia].
    rewrite E. destruct mt as [b t a cs]. simpl.
    now rewrite <- (match_at_before _ _ _ E).
  - destruct (match_at n r (c :: s)) as [mt'|] eqn:E.
    + inversion H; subst. rewrite (match_at_before _ _ _ E). simpl.
      split; [|intros; lia].
      rewrite E. destruct mt as [b t a cs]. simpl.
      now rewrite <- (match_at_before _ _ _ E).
    + destruct (search n r s) as [mt'|] eqn:E'; [|discriminate].
      simpl in H. inversion H; subst; simpl.
      destruct (IH _ eq_refl) as (H1 & H2). split; [exact H1|].
      intros [|j] Hj; simpl; [exact E|]. apply H2. lia.
Qed.

Lemma search_exists n r :
  forall s j, match_at n r (skipn j s) <> None ->
    exists mt, search n r s = Some mt /\ length (m_before mt) <= j.
Proof.
  induction s as [|c s IH]; intros j H; simpl.
  - rewrite skipn_nil in H.
    destruct (match_at n r []) as [mt|] eqn:E; [|congruence].
    exists mt. rewrite (match_at_before _ _ _ E). simpl. split; [auto|lia].
  - destruct (match_at n r (c :: s)) as [mt|] eqn:E.
    + exists mt. rewrite (match_at_before _ _ _ E). simpl. split; [auto|lia].
    + destruct j as [|j]; simpl in H; [congruence|].
      destruct (IH j H) as (mt & Hs & Hl). rewrite Hs. simpl.
      eexists. split; [reflexivity|]. simpl. lia.
Qed.

(** ** Splitting a text at two places *)

Lemma app_split_left (x r1 b r2 : str) :
  x ++ r1 = b ++ r2 -> length b <= length x ->
  exists x2, x = b ++ x2 /\ r2 = x2 ++ r1.
Proof.
  revert b. induction x as [|c x IH]; intros b E L.
  - destruct b; [|simpl in L; lia]. exists []. simpl in *. auto.
  - destruct b as [|c' b].
    + exists (c :: x). simpl in *. auto.
    + simpl in E. inversion E; subst. simpl in L.
      destruct (IH b H1) as (x2 & E1 & E2); [lia|].
      exists x2. subst. auto.
Qed.

Lemma app_split_right (x r1 b r2 : str) :
  x ++ r1 = b ++ r2 -> length x <= length b ->
  exists b2, b = x ++ b2 /\ r1 = b2 ++ r2.
Proof.
  intros E L. symmetry in E. now apply app_split_left in E.
Qed.

(** ** A text that the replacement leaves alone

    [d] sits in the input between [x] and [y]; when every match of the
    pattern in the input lies wholly before [d] or wholly after it, the
    replacement keeps [d] in place. *)
Lemma replace_loop_keeps n r (f : rmatch -> str -> str -> result str) (d : str) :
  nullable r = false ->
  (forall mt b a, exists rep, f mt b a = Ok rep) ->
  forall fuel done x y,
    length (x ++ d ++ y) < fuel ->
    (forall b w a, x ++ d ++ y = b ++ w ++ a -> matches r w ->
       length b + length w <= length x \/ length x + length d <= length b) ->
    exists x' y', replace_loop fuel n r f done (x ++ d ++ y) = Ok (x' ++ d ++ y').
Proof.
  intros Hn Hf fuel. induction fuel as [|fuel IH]; intros done x y Hlen Hap; [lia|].
  simpl. destruct (search n r (x ++ d ++ y)) as [mt|] eqn:E.
  2:{ exists x, y. reflexivity. }
  apply search_sound in E. destruct E as (E & M).
  destruct (Hf mt (done ++ m_before mt) (m_after mt)) as (rep & Hrep).
  rewrite Hrep. simpl.
  pose proof (matches_nonempty Hn M) as Hne.
  assert (Hpos : 0 < length (m_text mt)).
  { destruct (m_text mt); [congruence|simpl; lia]. }
  destruct (Hap _ _ _ E M) as [L|L].
  - (* the match lies before [d] *)
    rewrite (app_assoc (m_before mt)) in E.
    apply app_split_left in E; [|rewrite length_app; lia].
    destruct E as (x2 & Ex & Ea).
    destruct (IH ((done ++ m_before mt) ++ m_text mt) x2 y) as (x' & y' & Hr).
    { rewrite Ex, !length_app in Hlen. rewrite !length_app. lia. }
    { intros b w a Eb Mw.
      destruct (Hap ((m_before mt ++ m_text mt) ++ b) w a) as [L'|L']; auto.
      - rewrite Ex, <- !app_assoc. do 2 f_equal. exact Eb.
      - left. rewrite Ex, !length_app in L'. lia.
      - right. rewrite Ex, !length_app in L'. lia. }
    rewrite Ea. destruct (m_text mt) as [|c0 t0] eqn:Et; [congruence|].
    rewrite Hr. simpl.
    exists (m_before mt ++ rep ++ x'), y'. now rewrite <- !app_assoc.
  - (* the match lies after [d] *)
    rewrite (app_assoc x) in E.
    apply app_split_right in E; [|rewrite length_app; lia].
    destruct E as (b2 & Eb & Ey).
    destruct (replace_loop_ok n r f Hf (fuel := fuel)
                ((done ++ m_before mt) ++ m_text mt) (m_after mt))
      as (tl & Htl).
    { rewrite Ey, !length_app in Hlen. lia. }
    destruct (m_text mt) as [|c0 t0] eqn:Et; [congruence|].
    rewrite Htl. simpl.
    exists x, (b2 ++ rep ++ tl). rewrite Eb, <- !app_assoc. reflexivity.
Qed.

Lemma replace_all_keeps r (f : rmatch -> str -> str -> result str) x d y :
  nullable r = false ->
  (forall mt b a, exists rep, f mt b a = Ok rep) ->
  (forall b w a, x ++ d ++ y = b ++ w ++ a -> matches r w ->
     length b + length w <= length x \/ length x + length d <= length b) ->
  exists x' y', replace_all r f (x ++ d ++ y) = Ok (x' ++ d ++ y').
Proof.
  intros Hn Hf Hap. unfold replace_all. apply replace_loop_keeps; auto.
Qed.

(** ** Code units of a text that sits inside another *)

Lemma nth_error_mid (x d y : str) j :
  j < length d -> nth_error (x ++ d ++ y) (length x + j) = nth_error d j.
Proof.
  intros H. rewrite nth_error_app2 by lia.
  replace (length x + j - length x) with j by lia.
  now rewrite nth_error_app1.
Qed.

(** Where two texts inside the same input overlap they agree. *)
Lemma overlap_char (x d y b w a : str) i :
  x ++ d ++ y = b ++ w ++ a ->
  length x <= i < length x + length d ->
  length b <= i < length b + length w ->
  nth_error d (i - length x) = nth_error w (i - length b).
Proof.
  intros E H1 H2.
  rewrite <- (nth_error_mid x d y) by lia.
  rewrite <- (nth_error_mid b w a) by lia.
  rewrite E. f_equal. lia.
Qed.

(** A text between a two-unit opening and a two-unit closing. *)
Lemma nth_error_wrapped (a0 a1 z0 z1 : char) (mid : str) j :
  nth_error (a0 :: a1 :: mid ++ [z0; z1]) j =
  if j =? 0 then Some a0
  else if j =? 1 then Some a1
  else if j <? length mid + 2 then nth_error mid (j - 2)
  else if j =? length mid + 2 then Some z0
  else if j =? length mid + 3 then Some z1
  else None.
Proof.
  destruct j as [|[|j]]; try reflexivity.
  change (nth_error (a0 :: a1 :: mid ++ [z0; z1]) (S (S j)))
    with (nth_error (mid ++ [z0; z1]) j).
  change (S (S j) =? 0) with false. change (S (S j) =? 1) with false.
  cbv iota. replace (S (S j) - 2) with j by lia.
  destruct (Nat.ltb_spec (S (S j)) (length mid + 2)) as [L|L].
  - rewrite nth_error_app1 by lia. reflexivity.
  - rewrite nth_error_app2 by lia.
    destruct (Nat.eqb_spec (S (S j)) (length mid + 2)) as [E|E].
    + replace (j - length mid) with 0 by lia. reflexivity.
    + destruct (Nat.eqb_spec (S (S j)) (length mid + 3)) as [E'|E'].
      * replace (j - length mid) with 1 by lia. reflexivity.
      * destruct (j - length mid) as [|[|k]] eqn:Ek; try lia.
        simpl. now destruct k.
Qed.

Lemma brace_free_In s c : brace_free s -> In c s -> is_brace c = false.
Proof.
  unfold brace_free. rewrite forallb_forall. intros H Hin.
  apply H in Hin. now apply negb_true_iff in Hin.
Qed.

Lemma all_space_In s c : all_space s -> In c s -> is_space c = true.
Proof. unfold all_space. rewrite forallb_forall. auto. Qed.

Lemma plain_name_In s c :
  plain_name s -> In c s -> is_brace c = false /\ is_space c = false.
Proof.
  unfold plain_name. rewrite forallb_forall. intros H Hin.
  apply H in Hin. apply negb_true_iff, orb_false_iff in Hin. exact Hin.
Qed.

Lemma plain_name_brace_free s : plain_name s -> brace_free s.
Proof.
  unfold plain_name, brace_free. rewrite !forallb_forall. intros H c Hin.
  apply H in Hin. apply negb_true_iff, orb_false_iff in Hin.
  apply negb_true_iff. tauto.
Qed.

Lemma space_not_brace c : is_space c = true -> is_brace c = false.
Proof.
  unfold is_space, is_brace. intros H.
  destruct (N.eqb_spec c 123) as [->|]; [discriminate H|].
  destruct (N.eqb_spec c 125) as [->|]; [discriminate H|]. reflexivity.
Qed.

(** The inside of a placeholder for a brace-free key has no brace. *)
Lemma placeholder_for_shape key w :
  brace_free key -> placeholder_for key w ->
  exists mid, w = 123%N :: 123%N :: mid ++ [125%N; 125%N] /\ brace_free mid
    /\ exists w1 w2, all_space w1 /\ all_space w2 /\ mid = w1 ++ key ++ w2.
Proof.
  intros Hk (w1 & w2 & H1 & H2 & ->).
  exists (w1 ++ key ++ w2). split; [|split].
  - simpl. rewrite <- !app_assoc. reflexivity.
  - unfold brace_free. rewrite !forallb_app. 
    assert (S1 : forallb (fun c => negb (is_brace c)) w1 = true).
    { apply forallb_forall. intros c Hc. apply negb_true_iff, space_not_brace.
      eapply all_space_In; [exact H1|exact Hc]. }
    assert (S2 : forallb (fun c => negb (is_brace c)) w2 = true).
    { apply forallb_forall. intros c Hc. apply negb_true_iff, space_not_brace.
      eapply all_space_In; [exact H2|exact Hc]. }
    rewrite S1, S2, Hk. reflexivity.
  - eauto.
Qed.

Lemma brace_free_nth mid j c :
  brace_free mid -> nth_error mid j = Some c -> is_brace c = false.
Proof. intros H E. apply (brace_free_In _ H). eapply nth_error_In; eauto. Qed.

Lemma placeholder_unfold name :
  placeholder name = 123%N :: 123%N :: name ++ [125%N; 125%N].
Proof. reflexivity. Qed.

Lemma wrapped_length (a0 a1 z0 z1 : char) (mid : str) :
  length (a0 :: a1 :: mid ++ [z0; z1]) = length mid + 4.
Proof. simpl. rewrite length_app. simpl. lia. Qed.

(** Split the cases of an equation between code units read at given
    indexes, and close those that arithmetic or a brace refutes. *)
Ltac index_cases H :=
  repeat match type of H with
  | context [if ?c then _ else _] =>
      let E := fresh "C" in
      destruct c eqn:E;
      [ first [apply Nat.eqb_eq in E | apply Nat.ltb_lt in E]
      | first [apply Nat.eqb_neq in E | apply Nat.ltb_ge in E] ]
  end;
  try discriminate H; try lia;
  try (symmetry in H;
       match type of H with
       | nth_error ?mid _ = Some ?c =>
           match goal with
           | B : brace_free mid |- _ =>
               let F := fresh in
               pose proof (brace_free_nth _ B H) as F; discriminate F
           end
       end);
  try (match type of H with
       | nth_error ?mid _ = Some ?c =>
           match goal with
           | B : brace_free mid |- _ =>
               let F := fresh in
               pose proof (brace_free_nth _ B H) as F; discriminate F
           end
       end).

(** A placeholder for a brace-free key that overlaps the placeholder of a
    brace-free name covers exactly that placeholder. *)
Lemma placeholder_overlap key name (x y b w a : str) :
  brace_free key -> brace_free name ->
  x ++ placeholder name ++ y = b ++ w ++ a ->
  placeholder_for key w ->
  length b < length x + length (placeholder name) ->
  length x < length b + length w ->
  length b = length x /\ length w = length (placeholder name).
Proof.
  intros Hk Hn E Hw.
  destruct (placeholder_for_shape Hk Hw) as (mid & -> & Hmid & _).
  rewrite placeholder_unfold in *. rewrite !wrapped_length.
  intros L1 L2.
  assert (P : forall i,
    length x <= i < length x + (length name + 4) ->
    length b <= i < length b + (length mid + 4) ->
    nth_error (123%N :: 123%N :: name ++ [125%N; 125%N]) (i - length x)
    = nth_error (123%N :: 123%N :: mid ++ [125%N; 125%N]) (i - length b)).
  { intros i H1 H2. apply (overlap_char _ _ _ _ _ _ E);
      rewrite wrapped_length; assumption. }
  destruct (Nat.le_gt_cases (length b) (length x)) as [Lb|Lb].
  - assert (P0 := P (length x)); specialize (P0 ltac:(lia) ltac:(lia)).
    rewrite !nth_error_wrapped in P0.
    replace (length x - length x) with 0 in P0 by lia. simpl in P0.
    index_cases P0.
    + (* both begin at the same index *)
      split; [lia|].
      destruct (Nat.lt_trichotomy (length mid) (length name)) as [Lt|[Eq|Gt]];
        [| lia |].
      * assert (P1 := P (length x + length mid + 2)); specialize (P1 ltac:(lia) ltac:(lia)).
        rewrite !nth_error_wrapped in P1. index_cases P1.
      * assert (P1 := P (length x + length name + 2)); specialize (P1 ltac:(lia) ltac:(lia)).
        rewrite !nth_error_wrapped in P1. index_cases P1.
    + (* the overlapping one begins one unit earlier *)
      assert (P1 := P (length x + 1)); specialize (P1 ltac:(lia) ltac:(lia)).
      rewrite !nth_error_wrapped in P1. index_cases P1.
  - assert (P0 := P (length b)); specialize (P0 ltac:(lia) ltac:(lia)).
    rewrite !nth_error_wrapped in P0.
    replace (length b - length b) with 0 in P0 by lia. simpl (0 =? 0) in P0.
    cbv iota in P0.
    index_cases P0.
    assert (P1 := P (length b + 1)); specialize (P1 ltac:(lia) ltac:(lia)).
    rewrite !nth_error_wrapped in P1. index_cases P1.
Qed.

Lemma placeholder_for_plain key name :
  plain_name name -> placeholder_for key (placeholder name) -> key = name.
Proof.
  intros Hn (w1 & w2 & H1 & H2 & E).
  unfold placeholder in E. apply app_inv_head in E.
  replace (w1 ++ key ++ w2 ++ u "}}") with ((w1 ++ key ++ w2) ++ u "}}") in E
    by (now rewrite <- !app_assoc).
  apply app_inv_tail in E.
  destruct w1 as [|c w1].
  - destruct w2 as [|c w2]; [now rewrite app_nil_r in E|].
    exfalso.
    assert (Hin : In c name) by (rewrite E; simpl; apply in_elt).
    destruct (@plain_name_In name c Hn Hin) as (_ & Hs).
    rewrite (@all_space_In (c :: w2) c H2 (or_introl eq_refl)) in Hs. discriminate.
  - exfalso.
    assert (Hin : In c name) by (rewrite E; now left).
    destruct (@plain_name_In name c Hn Hin) as (_ & Hs).
    rewrite (@all_space_In (c :: w1) c H1 (or_introl eq_refl)) in Hs. discriminate.
Qed.

(** Placeholders of different names do not overlap. *)
Lemma placeholder_apart key name (x y b w a : str) :
  brace_free key -> plain_name name -> key <> name ->
  x ++ placeholder name ++ y = b ++ w ++ a ->
  placeholder_for key w ->
  length b + length w <= length x
  \/ length x + length (placeholder name) <= length b.
Proof.
  intros Hk Hn Hne E Hw.
  destruct (Nat.le_gt_cases (length b + length w) (length x)) as [L1|L1];
    [now left|].
  destruct (Nat.le_gt_cases (length x + length (placeholder name)) (length b))
    as [L2|L2]; [now right|].
  exfalso. apply Hne.
  destruct (@placeholder_overlap key name x y b w a Hk
              (@plain_name_brace_free name Hn) E Hw L2 L1)
    as (Lb & Lw).
  apply app_split_left in E; [|lia].
  destruct E as (x2 & Ex & Ed).
  assert (x2 = []) as ->.
  { apply (f_equal (@length _)) in Ex. rewrite length_app in Ex.
    apply length_zero_iff_nil. lia. }
  rewrite app_nil_l in Ed.
  apply app_split_left in Ed; [|lia].
  destruct Ed as (d2 & Ew & _).
  assert (d2 = []) as ->.
  { apply (f_equal (@length _)) in Ew. rewrite length_app in Ew.
    apply length_zero_iff_nil. lia. }
  rewrite app_nil_r in Ew. subst w.
  now apply placeholder_for_plain.
Qed.

Lemma eqb_str_eq a b : eqb_str a b = true <-> a = b.
Proof.
  revert b. induction a as [|x a IH]; intros [|y b]; simpl;
    try (split; [discriminate|discriminate]); [tauto|].
  rewrite andb_true_iff, N.eqb_eq, IH. split.
  - intros (-> & ->). reflexivity.
  - intros E. inversion E. auto.
Qed.

Lemma eqb_str_refl a : eqb_str a a = true.
Proof. now apply eqb_str_eq. Qed.

Lemma eqb_str_neq a b : a <> b -> eqb_str a b = false.
Proof.
  intros H. destruct (eqb_str a b) eqn:E; [|reflexivity].
  apply eqb_str_eq in E. contradiction.
Qed.

(** ** Running a pattern on a text of known shape *)

Lemma m_lits n p : forall s c k,
  m n (lits p) (MState (p ++ s) c) k = k (MState s c).
Proof.
  induction p as [|a p IH]; intros s c k; simpl; [reflexivity|].
  rewrite N.eqb_refl. apply IH.
Qed.

(** A star stops at once where the next code unit is not in its class. *)
Lemma m_star_stop n g (p : char -> bool) x k :
  match rest x with [] => True | c :: _ => p c = false end ->
  m n (Star g (Chr p)) x k = k x.
Proof.
  intros H. cbn [m repeat_m].
  destruct (rest x) as [|c t]; [|rewrite H]; destruct g, (k x); reflexivity.
Qed.

Lemma skipn_app_length (x s : str) : skipn (length x) (x ++ s) = s.
Proof. induction x; simpl; auto. Qed.

(** ** A match that the replacement reaches

    [d] sits in the input between [x] and [y], the pattern matches [d] there,
    and every other match in the input lies wholly before [d] or wholly after
    it: the replacement calls the replacer on [d], with the input before it
    and after it. *)
Lemma replace_loop_hits n r (f : rmatch -> str -> str -> result str)
      (d y : str) cs :
  nullable r = false ->
  (forall mt b a, exists rep, f mt b a = Ok rep) ->
  match_at n r (d ++ y) = Some (RMatch [] d y cs) ->
  forall fuel done x,
    length (x ++ d ++ y) < fuel ->
    (forall b w a, x ++ d ++ y = b ++ w ++ a -> matches r w ->
       length b + length w <= length x \/ length x + length d <= length b
       \/ (length b = length x /\ length w = length d)) ->
    exists x0 x' rep y',
      f (RMatch x0 d y cs) (done ++ x) y = Ok rep
      /\ replace_loop fuel n r f done (x ++ d ++ y) = Ok (x' ++ rep ++ y').
Proof.
  intros Hn Hf Hd fuel.
  assert (Dpos : 0 < length d).
  { apply match_at_sound in Hd. simpl in Hd. destruct Hd as (_ & _ & M).
    apply (matches_nonempty Hn) in M. destruct d; [congruence|simpl; lia]. }
  induction fuel as [|fuel IH]; intros done x Hlen Hap; [lia|].
  cbn [replace_loop].
  destruct (@search_exists n r (x ++ d ++ y) (length x)) as (mt & Hs & Lb).
  { rewrite skipn_app_length, Hd. discriminate. }
  rewrite Hs. pose proof (search_first _ _ _ Hs) as (Hfirst & _).
  apply search_sound in Hs. destruct Hs as (E & M).
  destruct (Hf mt (done ++ m_before mt) (m_after mt)) as (rep & Hrep).
  assert (Hpos : 0 < length (m_text mt)).
  { apply (matches_nonempty Hn) in M. destruct (m_text mt); [congruence|simpl; lia]. }
  destruct (Hap _ _ _ E M) as [L|[L|(L1 & L2)]]; [| lia |].
  - (* an earlier match *)
    rewrite (app_assoc (m_before mt)) in E.
    apply app_split_left in E; [|rewrite length_app; lia].
    destruct E as (x2 & Ex & Ea).
    destruct (IH ((done ++ m_before mt) ++ m_text mt) x2)
      as (x0 & x' & rep' & y' & Hrep' & Hr).
    { rewrite Ex, !length_app in Hlen. rewrite !length_app. lia. }
    { intros b w a Eb Mw.
      destruct (Hap ((m_before mt ++ m_text mt) ++ b) w a) as [L'|[L'|L']]; auto.
      - rewrite Ex, <- !app_assoc. do 2 f_equal. exact Eb.
      - left. rewrite Ex, !length_app in L'. lia.
      - right. left. rewrite Ex, !length_app in L'. lia.
      - right. right. rewrite Ex, !length_app in L'. lia. }
    rewrite Hrep. cbn [bind]. rewrite Ea.
    destruct (m_text mt) as [|c0 t0] eqn:Et; [simpl in Hpos; lia|].
    rewrite Hr. cbn [bind].
    exists x0, (m_before mt ++ rep ++ x'), rep', y'. split.
    + rewrite Ex. rewrite <- Hrep'. f_equal. now rewrite <- !app_assoc.
    + now rewrite <- !app_assoc.
  - (* the match on [d] *)
    apply app_split_left in E; [|lia].
    destruct E as (x2 & Ex & Ed).
    assert (x2 = []) as ->.
    { apply (f_equal (@length _)) in Ex. rewrite length_app in Ex.
      apply length_zero_iff_nil. lia. }
    rewrite app_nil_r in Ex. rewrite app_nil_l in Ed.
    rewrite <- Ex, skipn_app_length, Hd in Hfirst.
    destruct mt as [mb mtx ma mc]. cbn [m_before m_text m_after m_caps] in *.
    inversion Hfirst; subst mtx ma mc. subst mb.
    rewrite Hrep. cbn [bind].
    destruct (@replace_loop_ok n r f Hf fuel ((done ++ x) ++ d) y)
      as (tl & Htl).
    { rewrite !length_app in Hlen. lia. }
    destruct d as [|c0 t0]; [simpl in Dpos; lia|].
    rewrite Htl. cbn [bind].
    exists x, x, rep, tl. split; [exact Hrep|reflexivity].
Qed.
Lemma firstn_app_exact (a b : str) : firstn (length (a ++ b) - length b) (a ++ b) = a.
Proof.
  rewrite length_app, Nat.add_sub, firstn_app, Nat.sub_diag, firstn_all.
  simpl. apply app_nil_r.
Qed.

Lemma m_Seq n a b x k : m n (Seq a b) x k = m n a x (fun y => m n b y k).
Proof. reflexivity. Qed.

(** The pattern of a key matches the key's placeholder. *)
Lemma keyRegex_match_at n name y :
  plain_name name ->
  match_at n (keyRegex name) (placeholder name ++ y)
  = Some (RMatch [] (placeholder name) y []).
Proof.
  intros Hn. unfold match_at, keyRegex, ws. cbn [seqs].
  unfold placeholder at 1. rewrite <- !app_assoc.
  rewrite m_Seq, m_lits. cbv beta. rewrite m_Seq, m_star_stop.
  2:{ cbn [rest]. destruct name as [|c t]; [reflexivity|].
      destruct (@plain_name_In (c :: t) c Hn (or_introl eq_refl)) as (_ & Hs).
      exact Hs. }
  rewrite m_Seq, m_lits. cbv beta. rewrite m_Seq, m_star_stop by reflexivity.
  rewrite m_lits. cbn [rest caps].
  change (u "{{" ++ name ++ u "}}" ++ y) with (placeholder name ++ y).
  now rewrite firstn_app_exact.
Qed.

Lemma getSubstitution_plain matched before after repl :
  ~ In 36%N repl -> getSubstitution matched before after repl = repl.
Proof.
  induction repl as [|d t IH]; intros H; [reflexivity|].
  cbn [getSubstitution].
  destruct (N.eqb_spec d 36) as [->|Hd].
  - exfalso. apply H. now left.
  - f_equal. apply IH. intros Hin. apply H. now right.
Qed.

(** ** An [if] directive and the placeholders around it *)

Lemma forallb_In (p : char -> bool) s c :
  forallb p s = true -> In c s -> p c = true.
Proof. rewrite forallb_forall. auto. Qed.






(** ** Matches that all lie in the first part of the input *)




(** ** More runs on texts of known shape *)

Lemma m_Chr_ok n (p : char -> bool) c s cs k :
  p c = true -> m n (Chr p) (MState (c :: s) cs) k = k (MState s cs).
Proof. intros H. cbn [m rest caps]. now rewrite H. Qed.

Lemma m_Group n i a x k :
  m n (Group i a) x k
  = m n a x (fun y =>
      k (MState (rest y)
           ((i, firstn (length (rest x) - length (rest y)) (rest x))
              :: caps y))).
Proof. reflexivity. Qed.

Lemma m_Star n g a x k :
  m n (Star g a) x k = repeat_m g (m n a) (S (length (rest x))) x k.
Proof. reflexivity. Qed.

(** A greedy star over a class runs through a text of that class, up to a
    code unit outside the class, and goes on from there when the pattern that
    follows succeeds there. *)
Lemma m_star_greedy_run n (p : char -> bool) k z : forall w s cs,
  forallb p w = true -> stops_at p s ->
  k (MState s cs) = Some z ->
  m n (Star true (Chr p)) (MState (w ++ s) cs) k = Some z.
Proof.
  induction w as [|c w IH]; intros s cs Hw Hs Hk.
  - rewrite m_star_stop; assumption.
  - cbn [forallb] in Hw. apply andb_true_iff in Hw. destruct Hw as (Hc & Hw).
    rewrite m_Star. cbn [repeat_m app rest].
    rewrite m_Chr_ok by assumption. cbn [rest length].
    rewrite (proj2 (Nat.ltb_lt _ _) (Nat.lt_succ_diag_r _)).
    rewrite <- m_Star with (x := MState (w ++ s) cs).
    now rewrite (IH s cs Hw Hs Hk).
Qed.

(** A lazy star over a class goes on from the first place where the pattern
    that follows succeeds. *)
Lemma m_star_lazy_run n (p : char -> bool) k z : forall w s cs,
  forallb p w = true ->
  (forall w1 c w2, w = w1 ++ c :: w2 -> k (MState (c :: w2 ++ s) cs) = None) ->
  k (MState s cs) = Some z ->
  m n (Star false (Chr p)) (MState (w ++ s) cs) k = Some z.
Proof.
  induction w as [|c w IH]; intros s cs Hw Hnone Hk.
  - rewrite m_Star. cbn [repeat_m app]. now rewrite Hk.
  - cbn [forallb] in Hw. apply andb_true_iff in Hw. destruct Hw as (Hc & Hw).
    rewrite m_Star. cbn [repeat_m app rest].
    rewrite (Hnone [] c w eq_refl).
    rewrite m_Chr_ok by assumption. cbn [rest length].
    rewrite (proj2 (Nat.ltb_lt _ _) (Nat.lt_succ_diag_r _)).
    rewrite <- m_Star with (x := MState (w ++ s) cs).
    apply IH; try assumption.
    intros w1 c' w2 E. apply (Hnone (c :: w1) c' w2). now rewrite E.
Qed.

Lemma m_Seq_none n a b x k :
  m n a x (fun y => m n b y k) = None -> m n (Seq a b) x k = None.
Proof. auto. Qed.

(** ** The equality pattern on an equality condition *)

Lemma line_terminator_space c : is_line_terminator c = true -> is_space c = true.
Proof.
  unfold is_line_terminator, is_space. intros H.
  repeat (apply orb_true_iff in H; destruct H as [H|H]);
    apply N.eqb_eq in H; subst; reflexivity.
Qed.

Lemma quote_not_space c : is_quote c = true -> is_space c = false.
Proof.
  unfold is_quote. intros H.
  apply orb_true_iff in H; destruct H as [H|H];
    apply N.eqb_eq in H; subst; reflexivity.
Qed.

Lemma condition_name_In s c :
  condition_name s -> In c s ->
  is_space c = false /\ N.eqb c 61 = false /\ is_line_terminator c = false.
Proof.
  intros (_ & H) Hin. apply (@forallb_In _ _ _ H) in Hin.
  apply negb_true_iff, orb_false_iff in Hin. destruct Hin as (H1 & H2).
  repeat split; try assumption.
  destruct (is_line_terminator c) eqn:E; [|reflexivity].
  apply line_terminator_space in E. congruence.
Qed.

Lemma quoted_literal_In s c :
  quoted_literal s -> In c s ->
  is_quote c = false /\ is_line_terminator c = false.
Proof.
  intros (_ & H) Hin. apply (@forallb_In _ _ _ H) in Hin.
  now apply negb_true_iff, orb_false_iff in Hin.
Qed.

Lemma forallb_dot_name s :
  condition_name s -> forallb (fun c => negb (is_line_terminator c)) s = true.
Proof.
  intros H. apply forallb_forall. intros c Hin.
  destruct (@condition_name_In s c H Hin) as (_ & _ & ->). reflexivity.
Qed.

Lemma forallb_dot_literal s :
  quoted_literal s -> forallb (fun c => negb (is_line_terminator c)) s = true.
Proof.
  intros H. apply forallb_forall. intros c Hin.
  destruct (@quoted_literal_In s c H Hin) as (_ & ->). reflexivity.
Qed.

Lemma search_match_at n r s mt :
  match_at n r s = Some mt -> search n r s = Some mt.
Proof. intros H. destruct s; cbn [search]; now rewrite H. Qed.

Lemma equalRegex_match name w1 w2 q1 lit q2 tail :
  condition_name name -> all_space w1 -> all_space w2 ->
  is_quote q1 = true -> quoted_literal lit -> is_quote q2 = true ->
  exists mt,
    exec equalRegex (equality_condition name w1 w2 q1 lit q2 ++ tail) = Some mt
    /\ cap 1 (m_caps mt) = name /\ cap 2 (m_caps mt) = lit.
Proof.
  intros Hn H1 H2 Hq1 Hl Hq2.
  pose proof (@forallb_dot_name name Hn) as Dn.
  pose proof (@forallb_dot_literal lit Hl) as Dl.
  destruct name as [|c0 name']; [destruct Hn as (Hn & _); congruence|].
  destruct lit as [|l0 lit']; [destruct Hl as (Hl & _); congruence|].
  cbn [forallb] in Dn, Dl.
  apply andb_true_iff in Dn, Dl. destruct Dn as (Dc0 & Dn), Dl as (Dl0 & Dl).
  set (s := equality_condition (c0 :: name') w1 w2 q1 (l0 :: lit') q2 ++ tail).
  assert (Hm : exists z,
    m (length s) equalRegex (MState s []) (fun y => Some y) = Some z
    /\ rest z = tail
    /\ cap 1 (caps z) = c0 :: name' /\ cap 2 (caps z) = l0 :: lit').
  { eexists. split.
    - unfold s, equality_condition, equalRegex, Plus, dot, ws.
      cbn [seqs app]. repeat (rewrite <- app_assoc; cbn [app]).
      rewrite m_Seq, m_Group, m_Seq, m_Chr_ok by exact Dc0.
      apply m_star_lazy_run; [exact Dn| |].
      + intros a c b E. cbn [rest caps].
        apply m_none_first; [reflexivity|]. cbn [rest].
        assert (Hin : In c (c0 :: name')) by (right; rewrite E; apply in_elt).
        destruct (@condition_name_In _ c Hn Hin) as (Hs & He & _).
        change (u "==") with [61%N; 61%N].
        cbn [seqs lits first_ok nullable]. unfold lit.
        cbn [first_ok nullable]. rewrite Hs, (N.eqb_sym 61 c), He.
        reflexivity.
      + cbn [rest caps].
        rewrite m_Seq. apply m_star_greedy_run; [exact H1|reflexivity|].
        rewrite m_Seq, m_lits.
        rewrite m_Seq. apply m_star_greedy_run;
          [exact H2|now apply quote_not_space|].
        rewrite m_Seq, m_Chr_ok by exact Hq1.
        rewrite m_Seq, m_Group, m_Seq.
        cbn [app]. rewrite m_Chr_ok by exact Dl0.
        apply m_star_lazy_run; [exact Dl| |].
        * intros a c b E. cbn [rest caps m].
          assert (Hin : In c (l0 :: lit')) by (right; rewrite E; apply in_elt).
          destruct (@quoted_literal_In _ c Hl Hin) as (Hq & _). now rewrite Hq.
        * cbn [rest caps]. rewrite m_Chr_ok by exact Hq2. reflexivity.
    - cbn [rest caps cap Nat.eqb]. 
      split; [reflexivity|]. split.
      + exact (firstn_app_exact (c0 :: name') _).
      + exact (firstn_app_exact (l0 :: lit') _). }
  destruct Hm as (z & Hz & Hr & Hc1 & Hc2).
  unfold exec. fold s.
  assert (Hs : match_at (length s) equalRegex s
               = Some (RMatch [] (firstn (length s - length (rest z)) s)
                              (rest z) (caps z))).
  { unfold match_at. now rewrite Hz. }
  eexists. split.
  - apply search_match_at. exact Hs.
  - cbn [m_caps]. auto.
Qed.

Lemma trimStart_head s :
  stops_at is_space s -> trimStart s = s.
Proof. destruct s as [|c s]; simpl; [reflexivity|]. now intros ->. Qed.

Lemma trim_no_space s :
  (forall c, In c s -> is_space c = false) -> trim s = s.
Proof.
  intros H. unfold trim, trimEnd.
  rewrite (trimStart_head s).
  2:{ destruct s as [|c s]; simpl; [exact I|]. apply H. now left. }
  rewrite (trimStart_head (rev s)); [apply rev_involutive|].
  destruct (rev s) as [|c r] eqn:E; simpl; [exact I|].
  apply H. apply in_rev. rewrite E. now left.
Qed.

Lemma condition_name_trim s : condition_name s -> trim s = s.
Proof.
  intros H. apply trim_no_space. intros c Hin.
  now destruct (@condition_name_In s c H Hin) as (Hs & _).
Qed.

(** ** Skipping text in which no directive opens *)

Lemma m_lits_none n p : forall s cs k,
  startsWith s p = false -> m n (lits p) (MState s cs) k = None.
Proof.
  induction p as [|a p IH]; intros s cs k H; [destruct s; discriminate H|].
  cbn [lits]. rewrite m_Seq. unfold lit. cbn [m rest].
  destruct s as [|c s]; [reflexivity|].
  cbn [startsWith] in H. rewrite N.eqb_sym.
  destruct (N.eqb c a); [|reflexivity].
  cbn [andb caps] in *. now apply IH.
Qed.

Lemma m_open_none n r' s cs k :
  startsWith s (u "{%") = false ->
  m n (Seq (lits (u "{%")) r') (MState s cs) k = None.
Proof. intros H. rewrite m_Seq. now apply m_lits_none. Qed.

Lemma body_no_open b t w1 x w2 :
  clean_body b -> opens_or_ends t -> b = w1 ++ x :: w2 ->
  startsWith (x :: w2 ++ t) (u "{%") = false.
Proof.
  intros Hb Ht E. change (u "{%") with [123%N; 37%N].
  destruct (N.eqb_spec x 123) as [->|Hx].
  - destruct w2 as [|y w2]; cbn [app].
    + destruct t as [|c t]; [reflexivity|]. cbn in Ht. subst c. reflexivity.
    + cbn [startsWith]. rewrite N.eqb_refl. cbn [andb].
      destruct (N.eqb_spec y 37) as [->|Hy]; [|reflexivity].
      exfalso. apply Hb. exists w1, w2. exact E.
  - cbn [startsWith]. apply N.eqb_neq in Hx. now rewrite Hx.
Qed.

(** A search runs over a text where the pattern matches nowhere. *)
Lemma search_skip n r t : forall b,
  (forall w1 x w2, b = w1 ++ x :: w2 -> match_at n r (x :: w2 ++ t) = None) ->
  search n r (b ++ t) = prepend b (search n r t).
Proof.
  induction b as [|x b IH]; intros H.
  - cbn [app prepend]. destruct (search n r t) as [[? ? ? ?]|]; reflexivity.
  - cbn [app search]. rewrite (H [] x b eq_refl).
    rewrite IH.
    + destruct (search n r t) as [[? ? ? ?]|]; reflexivity.
    + intros w1 y w2 E. apply (H (x :: w1) y w2). now rewrite E.
Qed.

Lemma match_at_none n r s :
  m n r (MState s []) (fun y => Some y) = None -> match_at n r s = None.
Proof. unfold match_at. now intros ->. Qed.

Lemma search_skip_body n r' b t :
  clean_body b -> opens_or_ends t ->
  search n (Seq (lits (u "{%")) r') (b ++ t)
  = prepend b (search n (Seq (lits (u "{%")) r') t).
Proof.
  intros Hb Ht. apply search_skip. intros w1 x w2 E.
  apply match_at_none, m_open_none. eapply body_no_open; eauto.
Qed.

(** A greedy star fails when the pattern that follows fails wherever the
    star may stop. *)
Lemma m_star_greedy_none n (p : char -> bool) k : forall w s cs,
  forallb p w = true -> stops_at p s ->
  (forall w1 w2, w = w1 ++ w2 -> k (MState (w2 ++ s) cs) = None) ->
  m n (Star true (Chr p)) (MState (w ++ s) cs) k = None.
Proof.
  induction w as [|c w IH]; intros s cs Hw Hs Hk.
  - rewrite m_star_stop by assumption. exact (Hk [] [] eq_refl).
  - cbn [forallb] in Hw. apply andb_true_iff in Hw. destruct Hw as (Hc & Hw).
    rewrite m_Star. cbn [repeat_m app rest].
    rewrite m_Chr_ok by assumption. cbn [rest length].
    rewrite (proj2 (Nat.ltb_lt _ _) (Nat.lt_succ_diag_r _)).
    rewrite <- m_Star with (x := MState (w ++ s) cs).
    rewrite IH; try assumption.
    + exact (Hk [] (c :: w) eq_refl).
    + intros w1 w2 E. apply (Hk (c :: w1) w2). now rewrite E.
Qed.

(** ** Properties that hold from every place inside a text *)

Lemma everywhere_nil (P : str -> Prop) s : everywhere P [] s.
Proof. intros w1 c w2 E. destruct w1; discriminate E. Qed.

Lemma everywhere_cons (P : str -> Prop) c x s :
  P (c :: x ++ s) -> everywhere P x s -> everywhere P (c :: x) s.
Proof.
  intros H0 H w1 d w2 E. destruct w1 as [|e w1]; inversion E; subst.
  - exact H0.
  - eapply H. reflexivity.
Qed.

Lemma everywhere_app (P : str -> Prop) x y s :
  everywhere P x (y ++ s) -> everywhere P y s -> everywhere P (x ++ y) s.
Proof.
  revert y s. induction x as [|c x IH]; intros y s Hx Hy.
  - exact Hy.
  - cbn [app]. apply everywhere_cons.
    + rewrite <- app_assoc. exact (Hx [] c x eq_refl).
    + apply IH; [|exact Hy].
      intros w1 d w2 E. apply (Hx (c :: w1) d w2). now rewrite E.
Qed.

(** No directive opens inside a text without an opening brace, whatever
    follows it. *)
Lemma everywhere_no_brace (P : str -> Prop) x s :
  (forall t, startsWith t (u "{%") = false -> P t) ->
  ~ In 123%N x -> everywhere P x s.
Proof.
  intros HP Hx w1 c w2 E. apply HP.
  change (u "{%") with [123%N; 37%N]. cbn [startsWith].
  destruct (N.eqb_spec c 123) as [->|]; [|reflexivity].
  exfalso. apply Hx. rewrite E. apply in_elt.
Qed.

Lemma everywhere_body (P : str -> Prop) b s :
  (forall t, startsWith t (u "{%") = false -> P t) ->
  clean_body b -> opens_or_ends s -> everywhere P b s.
Proof.
  intros HP Hb Hs w1 c w2 E. apply HP. eapply body_no_open; eauto.
Qed.

(** ** Directive patterns on directives of another kind *)

Lemma fails_no_open kw r' t :
  startsWith t (u "{%") = false -> fails_at (directivePattern kw r') t.
Proof. intros H n cs k. now apply m_open_none. Qed.

Lemma directive_mismatch kw r' t :
  stops_at is_space t ->
  startsWith t kw = false -> startsWith (32%N :: t) kw = false ->
  fails_at (directivePattern kw r') (u "{%" ++ u " " ++ t).
Proof.
  intros Hs H0 H1 n cs k. unfold directivePattern, ws.
  rewrite m_Seq, m_lits. cbv beta. rewrite m_Seq.
  apply m_star_greedy_none; [reflexivity|exact Hs|].
  intros w1 w2 E. rewrite m_Seq. apply m_lits_none.
  destruct w1 as [|a w1].
  - cbn [app] in E. subst w2. exact H1.
  - destruct w1; [|destruct w1; discriminate E].
    inversion E; subst. exact H0.
Qed.

Lemma elif_directive_unfold c t :
  elif_directive c ++ t = u "{%" ++ u " " ++ u "elif " ++ c ++ u " %}" ++ t.
Proof. unfold elif_directive. now rewrite <- !app_assoc. Qed.

Lemma else_directive_unfold t :
  else_directive ++ t = u "{%" ++ u " " ++ u "else %}" ++ t.
Proof. reflexivity. Qed.


(** No directive opens inside a directive: an opening brace of the
    condition is followed by a character of the condition or by the space
    before the closing, never by a percent sign. *)
Lemma everywhere_directive_tail (P : str -> Prop) a c z b s :
  (forall t, startsWith t (u "{%") = false -> P t) ->
  ~ In 123%N a -> ~ In 37%N c -> ~ In 123%N (z :: b) -> z <> 37%N ->
  everywhere P (a ++ c ++ z :: b) s.
Proof.
  intros HP Ha Hc Hb Hz.
  apply everywhere_app; [now apply everywhere_no_brace|].
  apply everywhere_app; [|now apply everywhere_no_brace].
  intros w1 x w2 E. apply HP.
  change (u "{%") with [123%N; 37%N]. cbn [startsWith].
  destruct (N.eqb x 123); [|reflexivity]. cbn [andb].
  destruct w2 as [|y w2]; cbn [app startsWith].
  - apply N.eqb_neq in Hz. now rewrite Hz.
  - destruct (N.eqb_spec y 37) as [->|]; [|reflexivity].
    exfalso. apply Hc. rewrite E. apply in_or_app. right. right. now left.
Qed.

Lemma clean_condition_no_percent c : clean_condition c -> ~ In 37%N c.
Proof.
  intros (_ & _ & H) Hin. apply (@forallb_In _ _ _ H) in Hin. discriminate.
Qed.

(** From every place inside an [elif] directive, a directive pattern fails
    when it fails on the directive itself. *)
Lemma everywhere_elif_directive kw r' c t :
  clean_condition c ->
  fails_at (directivePattern kw r') (elif_directive c ++ t) ->
  everywhere (fails_at (directivePattern kw r')) (elif_directive c) t.
Proof.
  intros Hc H0.
  change (elif_directive c) with (123%N :: (u "% elif " ++ c ++ u " %}")).
  apply everywhere_cons; [exact H0|].
  apply (@everywhere_directive_tail _ _ c 32%N (u "%}"));
    [apply fails_no_open| |now apply clean_condition_no_percent| |discriminate];
    intros Hin; vm_compute in Hin; intuition discriminate.
Qed.

Lemma everywhere_else_directive kw r' t :
  fails_at (directivePattern kw r') (else_directive ++ t) ->
  everywhere (fails_at (directivePattern kw r')) else_directive t.
Proof.
  intros H0.
  change else_directive with (123%N :: u "% else %}").
  apply everywhere_cons; [exact H0|].
  apply everywhere_no_brace; [apply fails_no_open|].
  intros Hin. vm_compute in Hin. intuition discriminate.
Qed.

Lemma branches_text_opens elifs els s :
  opens_or_ends s -> opens_or_ends (branches_text elifs els ++ s).
Proof.
  intros Hs. destruct elifs as [|[c b] elifs]; cbn [branches_text].
  - destruct els; [reflexivity|exact Hs].
  - reflexivity.
Qed.

(** From every place inside the branches of a span, a directive pattern
    fails when it fails on the directives that the branches begin with. *)
Lemma everywhere_branches kw r' els s :
  (forall c t, fails_at (directivePattern kw r') (elif_directive c ++ t)) ->
  (els <> None ->
   forall t, fails_at (directivePattern kw r') (else_directive ++ t)) ->
  clean_else els -> opens_or_ends s ->
  forall elifs, Forall clean_branch elifs ->
    everywhere (fails_at (directivePattern kw r')) (branches_text elifs els) s.
Proof.
  intros Helif Helse Hels Hs. induction 1 as [|[c b] elifs (Hc & Hb) _ IH];
    cbn [branches_text].
  - destruct els as [b|]; cbn [else_text]; [|apply everywhere_nil].
    apply everywhere_app.
    + apply everywhere_else_directive. apply Helse. discriminate.
    + apply everywhere_body; [apply fails_no_open|exact Hels|exact Hs].
  - cbn [fst snd] in Hc, Hb. apply everywhere_app.
    + apply everywhere_elif_directive; [exact Hc|]. apply Helif.
    + apply everywhere_app; [|exact IH].
      apply everywhere_body; [apply fails_no_open|exact Hb|].
      now apply branches_text_opens.
Qed.

(** ** Directive patterns on their own directives *)

Lemma firstn_app_exact2 (a b c : str) :
  firstn (length (a ++ b ++ c) - length c) (a ++ b ++ c) = a ++ b.
Proof. rewrite app_assoc. apply firstn_app_exact. Qed.

(** The part of a directive pattern after the keyword: white space, the
    condition as the first group, white space, and the closing; [F] is what
    the pattern goes on with from the closing. *)
Lemma condition_run n F c t cs k z :
  clean_condition c ->
  m n F (MState (u "%}" ++ t) ((1, c ++ u " ") :: cs)) k = Some z ->
  m n (Seq (Plus true ws)
         (Seq (Group 1 (Plus true (Chr not_pct_brace)))
            (Seq (Star true ws) F)))
    (MState (u " " ++ c ++ u " " ++ u "%}" ++ t) cs) k = Some z.
Proof.
  intros (Hs & Hne & Hc) HF. unfold Plus, ws.
  rewrite m_Seq, m_Seq. change (u " " ++ ?x) with (32%N :: x).
  rewrite m_Chr_ok by reflexivity.
  rewrite m_star_stop.
  2:{ cbn [rest]. destruct c; [congruence|exact Hs]. }
  rewrite m_Seq, m_Group, m_Seq.
  destruct c as [|h c']; [congruence|].
  cbn [forallb] in Hc. apply andb_true_iff in Hc. destruct Hc as (Hh & Hc).
  cbn [app rest]. rewrite m_Chr_ok by exact Hh.
  rewrite (app_assoc c' (u " ")).
  apply m_star_greedy_run.
  - rewrite forallb_app. apply andb_true_iff. split; [|reflexivity].
    exact Hc.
  - reflexivity.
  - cbn [rest caps]. rewrite m_Seq, m_star_stop by reflexivity.
    rewrite <- (app_assoc c' (u " ")).
    change (h :: c' ++ u " " ++ u "%}" ++ t)
      with ((h :: c') ++ u " " ++ u "%}" ++ t).
    rewrite firstn_app_exact2. exact HF.
Qed.

Lemma elifRegex_match n c t :
  clean_condition c ->
  match_at n elifRegex (elif_directive c ++ t)
  = Some (RMatch [] (elif_directive c) t [(1, c ++ u " ")]).
Proof.
  intros Hc.
  assert (H : m n elifRegex (MState (elif_directive c ++ t) [])
                (fun y => Some y)
              = Some (MState t [(1, c ++ u " ")])).
  { unfold elifRegex, elif_directive, ws. cbn [seqs]. rewrite <- !app_assoc.
    change (u "{% elif " ++ ?x) with (u "{%" ++ u " " ++ u "elif" ++ u " " ++ x).
    change (u " %}" ++ ?x) with (u " " ++ u "%}" ++ x).
    rewrite m_Seq, m_lits. cbv beta. rewrite m_Seq.
    apply m_star_greedy_run; [reflexivity|reflexivity|].
    rewrite m_Seq, m_lits. cbv beta.
    apply condition_run; [exact Hc|].
    now rewrite m_lits. }
  unfold match_at. rewrite H. cbn [rest caps].
  now rewrite firstn_app_exact.
Qed.

Lemma endifPattern_run n t cs k z :
  k (MState t cs) = Some z ->
  m n endifPattern (MState (endif_directive ++ t) cs) k = Some z.
Proof.
  intros Hk. unfold endifPattern, ws. cbn [seqs].
  change (endif_directive ++ t)
    with (u "{%" ++ u " " ++ u "endif" ++ u " " ++ u "%}" ++ t).
  rewrite m_Seq, m_lits. cbv beta. rewrite m_Seq.
  apply m_star_greedy_run; [reflexivity|reflexivity|].
  rewrite m_Seq, m_lits. cbv beta. rewrite m_Seq.
  apply m_star_greedy_run; [reflexivity|reflexivity|].
  now rewrite m_lits.
Qed.

(** The block pattern on a span: the first group is the condition of the
    [if] directive, the second is everything up to the first [endif]
    directive. *)
Lemma fullBlockPattern_match n c1 content post :
  clean_condition c1 ->
  everywhere (fails_at endifPattern) content (endif_directive ++ post) ->
  match_at n fullBlockPattern
    (if_directive c1 ++ content ++ endif_directive ++ post)
  = Some (RMatch [] (if_directive c1 ++ content ++ endif_directive) post
            [(2, content); (1, c1 ++ u " ")]).
Proof.
  intros Hc Hev.
  assert (H : m n fullBlockPattern
                (MState (if_directive c1 ++ content ++ endif_directive ++ post)
                        [])
                (fun y => Some y)
              = Some (MState post [(2, content); (1, c1 ++ u " ")])).
  { unfold fullBlockPattern, if_directive, ws, anychar. cbn [seqs].
    rewrite <- !app_assoc.
    change (u "{% if " ++ ?x) with (u "{%" ++ u " " ++ u "if" ++ u " " ++ x).
    change (u " %}" ++ ?x) with (u " " ++ u "%}" ++ x).
    rewrite m_Seq, m_lits. cbv beta. rewrite m_Seq.
    apply m_star_greedy_run; [reflexivity|reflexivity|].
    rewrite m_Seq, m_lits. cbv beta.
    apply condition_run; [exact Hc|].
    rewrite m_Seq, m_lits. cbv beta. rewrite m_Seq, m_Group.
    apply m_star_lazy_run.
    - apply forallb_forall. reflexivity.
    - intros w1 c w2 E. cbn [rest caps]. exact (Hev w1 c w2 E n _ _).
    - cbn [rest caps]. apply endifPattern_run.
      now rewrite firstn_app_exact. }
  unfold match_at. rewrite H. cbn [rest caps].
  rewrite !app_assoc. rewrite firstn_app_exact. reflexivity.
Qed.

(** ** The breakpoints of a span *)

Lemma search_everywhere n r x t :
  everywhere (fails_at r) x t ->
  search n r (x ++ t) = prepend x (search n r t).
Proof.
  intros H. apply search_skip. intros w1 c w2 E.
  apply match_at_none. exact (H w1 c w2 E n _ _).
Qed.

Lemma search_skip_directive n kw r' b t :
  clean_body b -> opens_or_ends t ->
  search n (directivePattern kw r') (b ++ t)
  = prepend b (search n (directivePattern kw r') t).
Proof. apply search_skip_body. Qed.

Lemma branches_text_split elifs els :
  branches_text elifs els = elifs_text elifs ++ else_text els.
Proof.
  unfold elifs_text. induction elifs as [|[c b] elifs IH]; cbn [branches_text].
  - reflexivity.
  - rewrite IH, <- !app_assoc. reflexivity.
Qed.

Lemma elif_fails_on_else r' t :
  fails_at (directivePattern (u "elif") r') (else_directive ++ t).
Proof.
  rewrite else_directive_unfold. apply directive_mismatch; reflexivity.
Qed.

Lemma else_fails_on_elif r' c t :
  fails_at (directivePattern (u "else") r') (elif_directive c ++ t).
Proof.
  rewrite elif_directive_unfold. apply directive_mismatch; reflexivity.
Qed.

Lemma endif_fails_on_elif r' c t :
  fails_at (directivePattern (u "endif") r') (elif_directive c ++ t).
Proof.
  rewrite elif_directive_unfold. apply directive_mismatch; reflexivity.
Qed.

Lemma endif_fails_on_else r' t :
  fails_at (directivePattern (u "endif") r') (else_directive ++ t).
Proof.
  rewrite else_directive_unfold. apply directive_mismatch; reflexivity.
Qed.

Lemma elif_directive_length c : 0 < length (elif_directive c).
Proof. unfold elif_directive. rewrite length_app. simpl. lia. Qed.

Lemma search_elif_nil n : search n elifRegex [] = None.
Proof. reflexivity. Qed.

(** The loop over the [elif] directives finds each of them, in order. *)
Lemma elifLoop_branches n els :
  clean_else els ->
  forall elifs, Forall clean_branch elifs ->
  forall fuel done b,
    clean_body b ->
    length (b ++ branches_text elifs els) < fuel ->
    elifLoop fuel n done (b ++ branches_text elifs els)
    = Ok (bps_from (length done + length b) elifs).
Proof.
  intros Hels. induction 1 as [|[c body] elifs (Hc & Hbody) _ IH];
    intros fuel done b Hb Hlen; (destruct fuel as [|fuel]; [lia|]);
    cbn [elifLoop branches_text bps_from].
  - change elifRegex with (directivePattern (u "elif")
      (Seq (Plus true ws) (Seq (Group 1 (Plus true (Chr not_pct_brace)))
         (Seq (Star true ws) (lits (u "%}")))))).
    rewrite search_skip_directive; [|exact Hb|].
    2:{ destruct els; [reflexivity|exact I]. }
    destruct els as [be|]; cbn [else_text].
    + rewrite <- (app_nil_r (else_directive ++ be)).
      rewrite search_everywhere; [reflexivity|].
      apply everywhere_app.
      * apply everywhere_else_directive. apply elif_fails_on_else.
      * apply everywhere_body; [apply fails_no_open|exact Hels|exact I].
    + reflexivity.
  - cbn [fst snd] in Hc, Hbody.
    change elifRegex with (directivePattern (u "elif")
      (Seq (Plus true ws) (Seq (Group 1 (Plus true (Chr not_pct_brace)))
         (Seq (Star true ws) (lits (u "%}")))))).
    rewrite search_skip_directive; [|exact Hb|reflexivity].
    change (directivePattern (u "elif")
      (Seq (Plus true ws) (Seq (Group 1 (Plus true (Chr not_pct_brace)))
         (Seq (Star true ws) (lits (u "%}")))))) with elifRegex.
    rewrite (search_match_at _ _ _ (elifRegex_match n _ Hc)).
    cbn [prepend m_before m_text m_after m_caps cap Nat.eqb].
    change (elif_directive c) with (123%N :: (u "% elif " ++ c ++ u " %}")) at 1.
    cbv iota.
    rewrite IH; [| exact Hbody |].
    2:{ pose proof (elif_directive_length c) as Ld.
        cbn [branches_text] in Hlen.
        rewrite !length_app in Hlen. rewrite length_app. lia. }
    cbn [bind]. rewrite app_nil_r. do 2 f_equal.
    f_equal. rewrite !length_app. lia.
Qed.

Lemma elseRegex_match n t :
  match_at n elseRegex (else_directive ++ t)
  = Some (RMatch [] else_directive t []).
Proof.
  assert (H : m n elseRegex (MState (else_directive ++ t) [])
                (fun y => Some y) = Some (MState t [])).
  { unfold elseRegex, ws. cbn [seqs].
    change (else_directive ++ t)
      with (u "{%" ++ u " " ++ u "else" ++ u " " ++ u "%}" ++ t).
    rewrite m_Seq, m_lits. cbv beta. rewrite m_Seq.
    apply m_star_greedy_run; [reflexivity|reflexivity|].
    rewrite m_Seq, m_lits. cbv beta. rewrite m_Seq.
    apply m_star_greedy_run; [reflexivity|reflexivity|].
    now rewrite m_lits. }
  unfold match_at. rewrite H. cbn [rest caps].
  now rewrite firstn_app_exact.
Qed.

Lemma everywhere_elifs kw r' s :
  (forall c t, fails_at (directivePattern kw r') (elif_directive c ++ t)) ->
  opens_or_ends s ->
  forall elifs, Forall clean_branch elifs ->
    everywhere (fails_at (directivePattern kw r')) (elifs_text elifs) s.
Proof.
  intros Helif Hs elifs Hc. unfold elifs_text.
  apply everywhere_branches; try assumption; [congruence|exact I].
Qed.

(** The search for the [else] directive stops at the one the span has. *)
Lemma elseBreakpoint_branches b elifs els :
  clean_body b -> Forall clean_branch elifs -> clean_else els ->
  elseBreakpoint (b ++ branches_text elifs els)
  = match els with
    | Some _ => [Breakpoint (length b + length (elifs_text elifs)) TElse None]
    | None => []
    end.
Proof.
  intros Hb Hc Hels. unfold elseBreakpoint, exec.
  set (n := length (b ++ branches_text elifs els)).
  rewrite branches_text_split.
  change elseRegex with (directivePattern (u "else")
    (Seq (Star true ws) (lits (u "%}")))).
  rewrite search_skip_directive; [|exact Hb|].
  2:{ rewrite <- branches_text_split. rewrite <- (app_nil_r (branches_text _ _)).
      now apply branches_text_opens. }
  rewrite search_everywhere.
  2:{ apply everywhere_elifs; [apply else_fails_on_elif| |exact Hc].
      destruct els; [reflexivity|exact I]. }
  destruct els as [be|]; cbn [else_text].
  - change (directivePattern (u "else") (Seq (Star true ws) (lits (u "%}"))))
      with elseRegex.
    rewrite (search_match_at _ _ _ (elseRegex_match n be)).
    cbn [prepend m_before]. rewrite !app_nil_r, length_app. reflexivity.
  - reflexivity.
Qed.

(** ** Sorting breakpoints that are in order *)

Lemma sort_bp_increasing l : increasing l -> sort_bp l = l.
Proof.
  induction l as [|a l IH]; intros H; [reflexivity|].
  cbn [sort_bp fold_right]. fold (sort_bp l).
  destruct l as [|b l'].
  - reflexivity.
  - destruct H as (Hab & Hl). rewrite (IH Hl). cbn [insert_bp].
    destruct (Nat.leb_spec (bp_index b) (bp_index a)); [lia|reflexivity].
Qed.

Lemma bps_from_head off elifs els :
  match all_bps off elifs els with
  | bp :: _ => bp_index bp = off
  | [] => True
  end.
Proof.
  unfold all_bps. destruct elifs as [|[c b] elifs]; cbn [bps_from app].
  - destruct els; cbn; [|exact I]. unfold elifs_text. cbn. lia.
  - reflexivity.
Qed.

Lemma all_bps_cons off c b elifs els :
  all_bps off ((c, b) :: elifs) els
  = Breakpoint off TElif (Some (trim (c ++ u " ")))
      :: all_bps (off + length (elif_directive c) + length b) elifs els.
Proof.
  unfold all_bps, elifs_text. cbn [bps_from branches_text app].
  rewrite !length_app.
  replace (off + length (elif_directive c) + length b
           + length (branches_text elifs None))
    with (off + (length (elif_directive c)
                 + (length b + length (branches_text elifs None)))) by lia.
  reflexivity.
Qed.

Lemma all_bps_increasing elifs els : forall off, increasing (all_bps off elifs els).
Proof.
  induction elifs as [|[c b] elifs IH]; intros off.
  - unfold all_bps. destruct els; exact I.
  - rewrite all_bps_cons.
    pose proof (bps_from_head (off + length (elif_directive c) + length b)
                  elifs els) as Hh.
    pose proof (IH (off + length (elif_directive c) + length b)) as Hi.
    pose proof (elif_directive_length c) as Ld.
    destruct (all_bps (off + length (elif_directive c) + length b) elifs els)
      as [|bp l]; [exact I|].
    split; [cbn [bp_index]; lia|exact Hi].
Qed.

(** ** Cutting the content at the breakpoints *)

Lemma indexOf_aux_skip p t : forall q i,
  everywhere (fun s => startsWith s p = false) q (p ++ t) ->
  indexOf_aux p (q ++ p ++ t) i = Some (i + length q).
Proof.
  induction q as [|x q IH]; intros i H.
  - cbn [app length].
    assert (E : startsWith (p ++ t) p = true).
    { clear. induction p as [|a p IHp]; [now destruct t|].
      cbn [app startsWith]. now rewrite N.eqb_refl. }
    destruct (p ++ t); cbn [indexOf_aux]; rewrite E; f_equal; lia.
  - cbn [app indexOf_aux]. rewrite (H [] x q eq_refl).
    rewrite IH.
    + cbn [length]. f_equal. lia.
    + intros w1 c w2 E. apply (H (x :: w1) c w2). now rewrite E.
Qed.

Lemma everywhere_no_char (a : char) (p' x s : str) :
  ~ In a x -> everywhere (fun t => startsWith t (a :: p') = false) x s.
Proof.
  intros Hx w1 c w2 E. cbn [startsWith].
  destruct (N.eqb_spec c a) as [->|]; [|reflexivity].
  exfalso. apply Hx. rewrite E. apply in_elt.
Qed.

(** The first closing after the beginning of an [elif] directive is its
    own. *)
Lemma indexOf_elif_directive pre c t :
  clean_condition c ->
  indexOf (pre ++ elif_directive c ++ t) (u "%}") (length pre)
  = Some (length pre + length (elif_directive c) - 2).
Proof.
  intros Hc. unfold indexOf. rewrite skipn_app_length.
  unfold elif_directive.
  replace ((u "{% elif " ++ c ++ u " %}") ++ t)
    with ((u "{% elif " ++ c ++ u " ") ++ u "%}" ++ t)
    by (now rewrite <- !app_assoc).
  rewrite indexOf_aux_skip.
  - f_equal. rewrite !length_app. simpl. lia.
  - change (u "{% elif " ++ c ++ u " ")
      with (123%N :: 37%N :: (u " elif " ++ c ++ u " ")).
    apply everywhere_cons; [reflexivity|].
    apply everywhere_cons; [reflexivity|].
    apply everywhere_no_char.
    intros Hin. apply in_app_or in Hin. destruct Hin as [Hin|Hin].
    + vm_compute in Hin. intuition discriminate.
    + apply in_app_or in Hin. destruct Hin as [Hin|Hin].
      * now apply (clean_condition_no_percent Hc).
      * vm_compute in Hin. intuition discriminate.
Qed.

Lemma indexOf_else_directive pre t :
  indexOf (pre ++ else_directive ++ t) (u "%}") (length pre)
  = Some (length pre + length else_directive - 2).
Proof.
  unfold indexOf. rewrite skipn_app_length.
  change (else_directive ++ t) with (u "{% else " ++ u "%}" ++ t).
  rewrite indexOf_aux_skip.
  - f_equal. simpl. lia.
  - repeat (apply everywhere_cons; [reflexivity|]). apply everywhere_nil.
Qed.

Lemma js_substring_mid (a b c : str) :
  js_substring (a ++ b ++ c) (length a) (length a + length b) = b.
Proof.
  unfold js_substring, substring.
  rewrite Nat.min_l, Nat.max_r by lia.
  rewrite skipn_app_length.
  replace (length a + length b - length a) with (length b) by lia.
  rewrite firstn_app, Nat.sub_diag, firstn_all. simpl. apply app_nil_r.
Qed.

Lemma js_substring_prefix (b c : str) :
  js_substring (b ++ c) 0 (length b) = b.
Proof. exact (js_substring_mid [] b c). Qed.

Lemma all_bps_nil_inv off elifs els :
  all_bps off elifs els = [] -> branches_text elifs els = [].
Proof.
  unfold all_bps. destruct elifs as [|[c b] elifs]; [|discriminate].
  destruct els; [discriminate|reflexivity].
Qed.

Lemma else_directive_length : length else_directive = 10.
Proof. reflexivity. Qed.

Lemma elif_directive_length2 c : 2 <= length (elif_directive c).
Proof. unfold elif_directive. rewrite length_app. simpl. lia. Qed.

(** The loop over the breakpoints cuts out the bodies of the branches. *)
Lemma restBlocks_branches els :
  forall elifs, Forall clean_branch elifs ->
  forall pre,
    restBlocks (pre ++ branches_text elifs els)
               (all_bps (length pre) elifs els)
    = blocks_of elifs els.
Proof.
  induction 1 as [|[c b] elifs (Hc & Hb) _ IH]; intros pre.
  - unfold all_bps, blocks_of, elifs_text.
    cbn [bps_from branches_text else_text map app length].
    rewrite Nat.add_0_r.
    destruct els as [be|]; cbn [else_text restBlocks]; [|reflexivity].
    rewrite indexOf_else_directive, else_directive_length.
    replace (length pre + 10 - 2 + 2) with (length (pre ++ else_directive))
      by (rewrite length_app, else_directive_length; lia).
    replace (length (pre ++ else_directive ++ be))
      with (length (pre ++ else_directive) + length be)
      by (rewrite !length_app; lia).
    replace (pre ++ else_directive ++ be)
      with ((pre ++ else_directive) ++ be ++ [])
      by (now rewrite app_nil_r, <- app_assoc).
    now rewrite js_substring_mid.
  - cbn [fst snd] in Hc, Hb. rewrite all_bps_cons.
    cbn [restBlocks branches_text bp_index bp_type bp_condition].
    rewrite (indexOf_elif_directive pre (b ++ branches_text elifs els) Hc).
    pose proof (elif_directive_length2 c) as Ld.
    replace (length pre + length (elif_directive c) - 2 + 2)
      with (length (pre ++ elif_directive c))
      by (rewrite length_app; lia).
    assert (Hend :
      match all_bps (length pre + length (elif_directive c) + length b)
                    elifs els with
      | nb :: _ => bp_index nb
      | [] => length (pre ++ elif_directive c ++ b ++ branches_text elifs els)
      end = length (pre ++ elif_directive c) + length b).
    { pose proof (bps_from_head
                    (length pre + length (elif_directive c) + length b)
                    elifs els) as Hh.
      destruct (all_bps _ elifs els) as [|nb l] eqn:Ea.
      - apply all_bps_nil_inv in Ea. rewrite Ea, app_nil_r, !length_app. lia.
      - rewrite Hh, length_app. lia. }
    rewrite Hend.
    replace (pre ++ elif_directive c ++ b ++ branches_text elifs els)
      with ((pre ++ elif_directive c) ++ b ++ branches_text elifs els)
      by (now rewrite <- app_assoc).
    rewrite js_substring_mid.
    unfold blocks_of. cbn [map app fst snd]. f_equal.
    specialize (IH ((pre ++ elif_directive c) ++ b)).
    rewrite <- app_assoc in IH. rewrite <- app_assoc in IH at 1.
    replace (length ((pre ++ elif_directive c) ++ b))
      with (length pre + length (elif_directive c) + length b) in IH
      by (rewrite !length_app; lia).
    rewrite <- app_assoc. exact IH.
Qed.

(** ** Trimming conditions *)

Lemma trimStart_keeps l :
  (exists x, In x l /\ is_space x = false) -> trimStart l <> [].
Proof.
  induction l as [|c l IH]; intros (x & Hin & Hx); [contradiction|].
  cbn [trimStart]. destruct (is_space c) eqn:Ec; [|discriminate].
  destruct Hin as [->|Hin]; [congruence|]. apply IH. eauto.
Qed.

Lemma trim_space_end c :
  stops_at is_space c -> trim (c ++ u " ") = trim c.
Proof.
  intros Hs. unfold trim.
  destruct c as [|h t]; [reflexivity|]. cbn in Hs.
  cbn [app trimStart]. rewrite Hs.
  unfold trimEnd.
  change (h :: t ++ u " ") with ((h :: t) ++ u " ").
  rewrite rev_app_distr. reflexivity.
Qed.

Lemma trim_condition_nonempty c : clean_condition c -> trim c <> [].
Proof.
  intros (Hs & Hne & _). unfold trim.
  destruct c as [|h t]; [congruence|]. cbn in Hs.
  cbn [trimStart]. rewrite Hs. unfold trimEnd.
  intros E. apply (f_equal (@rev _)) in E. rewrite rev_involutive in E.
  revert E. apply trimStart_keeps. exists h. split; [|exact Hs].
  apply in_rev. rewrite rev_involutive. now left.
Qed.

Lemma replace_loop_none n r (f : rmatch -> str -> str -> result str)
      fuel done t :
  0 < fuel -> search n r t = None -> replace_loop fuel n r f done t = Ok t.
Proof. intros Hf Hs. destruct fuel; [lia|]. cbn [replace_loop]. now rewrite Hs. Qed.

(** ** The wrapper pattern *)

Lemma m_lits_i n p : forall s cs k,
  m n (lits_i p) (MState s cs) k
  = if prefix_i p s then k (MState (skipn (length p) s) cs) else None.
Proof.
  induction p as [|a p IH]; intros s cs k.
  - cbn [lits_i m prefix_i length skipn]. now destruct s.
  - cbn [lits_i]. rewrite m_Seq. unfold lit_i. cbn [m rest caps].
    destruct s as [|c s]; [reflexivity|]. cbn [prefix_i length skipn].
    destruct (N.eqb (upper_ascii c) (upper_ascii a)); [|reflexivity].
    cbn [andb]. apply IH.
Qed.

Lemma prefix_i_same : forall f p s,
  map upper_ascii f = map upper_ascii p ->
  prefix_i p (f ++ s) = true /\ skipn (length p) (f ++ s) = s.
Proof.
  induction f as [|c f IH]; intros [|a p] s E; try discriminate E.
  - split; reflexivity.
  - cbn [map] in E. inversion E as [[E1 E2]].
    cbn [app prefix_i length skipn]. rewrite E1, N.eqb_refl.
    destruct (IH p s E2) as (H1 & H2). now rewrite H1, H2.
Qed.

(** A greedy star that runs to the end of the input gives back its last
    code unit when the pattern that follows needs it. *)
Lemma m_star_greedy_back n (p : char -> bool) k z c : forall w cs,
  forallb p w = true -> p c = true ->
  k (MState [] cs) = None ->
  k (MState [c] cs) = Some z ->
  m n (Star true (Chr p)) (MState (w ++ [c]) cs) k = Some z.
Proof.
  induction w as [|a w IH]; intros cs Hw Hc H0 H1.
  - rewrite m_Star. cbn [repeat_m app rest length].
    rewrite m_Chr_ok by assumption. cbn [rest length Nat.ltb Nat.leb].
    cbn [m rest]. rewrite H0. exact H1.
  - cbn [forallb] in Hw. apply andb_true_iff in Hw. destruct Hw as (Ha & Hw).
    rewrite m_Star. cbn [repeat_m app rest].
    rewrite m_Chr_ok by assumption. cbn [rest length].
    rewrite (proj2 (Nat.ltb_lt _ _) (Nat.lt_succ_diag_r _)).
    rewrite <- m_Star with (x := MState (w ++ [c]) cs).
    now rewrite (IH cs Hw Hc H0 H1).
Qed.

Lemma function_name_cases f p :
  In p function_names -> map upper_ascii f = p ->
  exists a b t, f = a :: b :: t
    /\ ((upper_ascii a = 83%N /\ p = u "SUM")
        \/ (upper_ascii a = 67%N /\ p = u "COUNT")
        \/ (upper_ascii a = 65%N /\ p = u "AVG")
        \/ (upper_ascii a = 77%N /\ upper_ascii b = 65%N /\ p = u "MAX")
        \/ (upper_ascii a = 77%N /\ upper_ascii b = 73%N /\ p = u "MIN")).
Proof.
  intros Hin E.
  destruct f as [|a [|b t]];
    [ subst p; cbn in Hin; intuition discriminate
    | subst p; cbn in Hin; intuition discriminate |].
  exists a, b, t. split; [reflexivity|].
  cbn [map] in E. cbn [function_names In] in Hin.
  destruct Hin as [H|[H|[H|[H|[H|[]]]]]]; subst p;
    change (u "SUM") with [83%N; 85%N; 77%N] in *;
    change (u "COUNT") with [67%N; 79%N; 85%N; 78%N; 84%N] in *;
    change (u "AVG") with [65%N; 86%N; 71%N] in *;
    change (u "MAX") with [77%N; 65%N; 88%N] in *;
    change (u "MIN") with [77%N; 73%N; 78%N] in *;
    inversion E; auto 10.
Qed.

Lemma m_Alt_left n a b x k z :
  m n a x k = Some z -> m n (Alt a b) x k = Some z.
Proof. intros H. cbn [m]. now rewrite H. Qed.

Lemma m_Alt_right n a b x k :
  m n a x k = None -> m n (Alt a b) x k = m n b x k.
Proof. intros H. cbn [m]. now rewrite H. Qed.

Lemma m_Bol n x k :
  length (rest x) = n -> m n Bol x k = k x.
Proof. intros H. cbn [m]. now rewrite H, Nat.eqb_refl. Qed.

Lemma function_name_upper p : In p function_names -> map upper_ascii p = p.
Proof.
  cbn [function_names In].
  intros [H|[H|[H|[H|[H|[]]]]]]; subst p; reflexivity.
Qed.

Lemma prefix_i_diff1 a p c s x :
  upper_ascii c = x -> N.eqb x (upper_ascii a) = false ->
  prefix_i (a :: p) (c :: s) = false.
Proof. intros <- H. cbn [prefix_i]. now rewrite H. Qed.

Lemma prefix_i_diff2 a1 a2 p c1 c2 s x :
  upper_ascii c2 = x -> N.eqb x (upper_ascii a2) = false ->
  prefix_i (a1 :: a2 :: p) (c1 :: c2 :: s) = false.
Proof.
  intros <- H. cbn [prefix_i]. rewrite H. now rewrite andb_false_r.
Qed.

(** The wrapper pattern on a wrapped identifier: the first group is the
    function name as written, the second is all that lies between the first
    opening parenthesis and the last closing one. *)
Lemma functionRegex_match f p field :
  In p function_names -> map upper_ascii f = p ->
  forallb (fun c => negb (is_line_terminator c)) field = true ->
  exists mt,
    exec functionRegex (wrapped f field) = Some mt
    /\ cap 1 (m_caps mt) = f /\ cap 2 (m_caps mt) = field.
Proof.
  intros Hin Hf Hfield.
  pose proof (@function_name_upper p Hin) as Hup.
  destruct (@function_name_cases _ _ Hin Hf) as (a & b & t & Ef & Hcase).
  set (s := wrapped f field).
  assert (Hm : exists z,
    m (length s) functionRegex (MState s []) (fun y => Some y) = Some z
    /\ rest z = [] /\ cap 1 (caps z) = f /\ cap 2 (caps z) = field).
  { eexists. split.
    - unfold functionRegex. cbn [seqs]. rewrite m_Seq, m_Bol by reflexivity.
      rewrite m_Seq, m_Group.
      assert (Hgo : forall K z,
        K (MState (40%N :: field ++ [41%N]) []) = Some z ->
        m (length s) (lits_i p)
          (MState (a :: b :: t ++ 40%N :: field ++ [41%N]) []) K = Some z).
      { intros K z HK. rewrite m_lits_i.
        change (a :: b :: t ++ 40%N :: field ++ [41%N])
          with ((a :: b :: t) ++ 40%N :: field ++ [41%N]).
        rewrite <- Ef.
        destruct (@prefix_i_same f p (40%N :: field ++ [41%N])) as (-> & ->);
          [congruence|exact HK]. }
      assert (Hlast :
        m (length s) (Seq (lit 40) (Seq (Group 2 (Star true dot))
                                      (Seq (lit 41) Eol)))
          (MState (40%N :: field ++ [41%N])
             [(1, firstn (length s - length (40%N :: field ++ [41%N])) s)])
          (fun y => Some y)
        = Some (MState []
                  [(2, firstn (length (field ++ [41%N]) - length [41%N])
                         (field ++ [41%N]));
                   (1, firstn (length s - length (40%N :: field ++ [41%N])) s)])).
      { unfold lit, dot. rewrite m_Seq, m_Chr_ok by reflexivity.
        rewrite m_Seq, m_Group.
        apply m_star_greedy_back; [exact Hfield|reflexivity|reflexivity|].
        reflexivity. }
      unfold s at 2, wrapped. rewrite Ef. cbn [app].
      destruct Hcase as [(Ha & Hp)|[(Ha & Hp)|[(Ha & Hp)|[(Ha & Hb & Hp)|(Ha & Hb & Hp)]]]];
        try (assert (Hb : True) by exact I);
        rewrite Hp in Hgo;
        repeat (first
          [ apply m_Alt_left; apply Hgo; cbn [rest caps];
            exact Hlast
          | rewrite m_Alt_right;
            [| rewrite m_lits_i;
               match goal with
               | |- context [prefix_i ?q ?i] =>
                   replace (prefix_i q i) with false
                     by (symmetry;
                         first [ eapply prefix_i_diff1;
                                 [exact Ha|reflexivity]
                               | eapply prefix_i_diff2;
                                 [exact Hb|reflexivity] ])
               end; reflexivity ] ]).
      apply Hgo. cbn [rest caps]. exact Hlast.
    - cbn [rest caps cap Nat.eqb]. split; [reflexivity|]. split.
      + unfold s, wrapped. apply firstn_app_exact.
      + apply firstn_app_exact. }
  destruct Hm as (z & Hz & Hr & Hc1 & Hc2).
  unfold exec. fold s.
  assert (Hs : match_at (length s) functionRegex s
               = Some (RMatch [] (firstn (length s - length (rest z)) s)
                              (rest z) (caps z))).
  { unfold match_at. now rewrite Hz. }
  eexists. split.
  - apply search_match_at. exact Hs.
  - cbn [m_caps]. auto.
Qed.

Lemma functionRegex_has_paren w : matches functionRegex w -> In 40%N w.
Proof.
  unfold functionRegex. cbn [seqs]. intros H.
  inversion H as [| |a b w1 w2 H1 H2| | | | | | |]; subst.
  inversion H2 as [| |a b w3 w4 H3 H4| | | | | | |]; subst.
  inversion H4 as [| |a b w5 w6 H5 H6| | | | | | |]; subst.
  unfold lit in H5. inversion H5 as [|p c Hc| | | | | | | |]; subst.
  apply N.eqb_eq in Hc. subst c.
  apply in_or_app. right. apply in_or_app. right. cbn. auto.
Qed.

Lemma functionRegex_bare name :
  ~ In 40%N name -> exec functionRegex name = None.
Proof.
  intros H. unfold exec. apply no_occurrence_search. intros w M O.
  apply H. eapply occurs_In; [exact O|]. now apply functionRegex_has_paren.
Qed.

(** * Facts about the renderer *)

Section RendererFacts.

Variable num : Type.
Variable num_toString : num -> str.
Variable num_toLocaleString : num -> str.
Variable num_truthy : num -> bool.
Variable obj : Type.
Variable obj_toString : obj -> str.
Variable JSON_stringify : obj -> result str.
Variable fn : Type.
Variable fn_toString : fn -> str.
Variable fn_call : fn -> context num obj fn -> str -> result bool.
Variable proto : str -> option (value num obj fn).

#[local] Abbreviation value := (value num obj fn).
#[local] Abbreviation context := (context num obj fn).
#[local] Abbreviation evalCond :=
  (evaluateCondition num_toString num_truthy obj_toString fn_toString fn_call
     proto).
#[local] Abbreviation evalCondTry :=
  (evaluateCondition_try num_toString num_truthy obj_toString fn_toString
     fn_call proto).
#[local] Abbreviation blockRepl :=
  (blockReplacer num_toString num_truthy obj_toString fn_toString fn_call
     proto).
#[local] Abbreviation processBlocks :=
  (processConditionalBlocks num_toString num_truthy obj_toString fn_toString
     fn_call proto).
#[local] Abbreviation display :=
  (displayValue num_toString num_toLocaleString obj_toString JSON_stringify
     fn_toString).
#[local] Abbreviation serial :=
  (serialisable num_toString num_toLocaleString obj_toString JSON_stringify
     fn_toString).
#[local] Abbreviation replKey :=
  (replaceKey num_toString num_toLocaleString obj_toString JSON_stringify
     fn_toString).
#[local] Abbreviation interp :=
  (interpolate num_toString num_toLocaleString obj_toString JSON_stringify
     fn_toString).
#[local] Abbreviation render :=
  (renderJinjaTemplate num_toString num_toLocaleString num_truthy obj_toString
     JSON_stringify fn_toString fn_call proto).
#[local] Abbreviation selected :=
  (selected_body num_toString num_truthy obj_toString fn_toString fn_call
     proto).
#[local] Abbreviation select :=
  (selectBlock num_toString num_truthy obj_toString fn_toString fn_call proto).

(** ** Totality *)

Lemma blockReplacer_ok (variables : context) firstCondition content :
  exists out, blockRepl variables firstCondition content = Ok out.
Proof.
  unfold blockReplacer, elifMatches.
  assert (H : exists l,
    elifLoop (S (length content)) (length content) [] content = Ok l)
    by (apply elifLoop_ok; lia).
  destruct H as (l & Hl). rewrite Hl. simpl. eauto.
Qed.

Lemma processConditionalBlocks_ok template (variables : context) :
  exists out, processBlocks template variables = Ok out.
Proof.
  unfold processConditionalBlocks. apply replace_all_ok.
  intros mt b a. apply blockReplacer_ok.
Qed.

(** The pass for a key whose value has the formatted text [d]. *)
Lemma replaceKey_shown key (v : value) d s :
  display v = Ok d ->
  replKey key v s
  = replace_all (keyRegex key)
      (fun mt before after => Ok (getSubstitution (m_text mt) before after d))
      s.
Proof. intros Hd. unfold replaceKey. now rewrite Hd. Qed.

Lemma replaceKey_throws key (v : value) e s :
  display v = Throw e -> replKey key v s = Throw e.
Proof. intros Hd. unfold replaceKey. now rewrite Hd. Qed.

Lemma serialisable_cons key (v : value) (entries : context) :
  serial ((key, v) :: entries) ->
  (exists d, display v = Ok d) /\ serial entries.
Proof.
  intros H. split.
  - apply (H key v). now left.
  - intros k' v' Hin. apply (H k' v'). now right.
Qed.

Lemma replaceKey_ok key (v : value) d s :
  display v = Ok d -> exists out, replKey key v s = Ok out.
Proof.
  intros Hd. rewrite (@replaceKey_shown key v d s Hd).
  apply replace_all_ok. intros mt b a. eauto.
Qed.

Lemma interpolate_ok (entries : context) :
  serial entries -> forall s, exists out, interp entries s = Ok out.
Proof.
  induction entries as [|[key v] entries IH]; intros Hs s; simpl; [eauto|].
  apply serialisable_cons in Hs. destruct Hs as ((d & Hd) & Hs).
  destruct (@replaceKey_ok key v d s Hd) as (s' & Hs'). rewrite Hs'. simpl.
  now apply IH.
Qed.

Lemma serialisable_forallb (entries : context) :
  forallb (fun e => match display (snd e) with
                    | Ok _ => true
                    | Throw _ => false
                    end) entries = true ->
  serial entries.
Proof.
  intros H key v Hin. rewrite forallb_forall in H.
  specialize (H (key, v) Hin). cbn [snd] in H.
  destruct (display v) as [d|e]; [eauto|discriminate H].
Qed.

(** An entry that cannot be formatted stops the loop over the entries. *)
Lemma interpolate_throws (entries : context) :
  ~ serial entries -> forall s, exists e, interp entries s = Throw e.
Proof.
  induction entries as [|[key v] entries IH]; intros Hn s.
  - exfalso. apply Hn. intros key v [].
  - cbn [interpolate]. destruct (display v) as [d|e] eqn:Hd.
    + destruct (@replaceKey_ok key v d s Hd) as (s' & Hs'). rewrite Hs'.
      cbn [bind]. apply IH. intros Hs. apply Hn.
      intros k' v' [E|Hin]; [inversion E; subst; eauto|eauto].
    + rewrite (@replaceKey_throws key v e s Hd). cbn [bind]. eauto.
Qed.

Lemma interpolate_ok_serialisable (entries : context) :
  forall s out, interp entries s = Ok out -> serial entries.
Proof.
  induction entries as [|[key v] entries IH]; intros s out H.
  - intros key v [].
  - cbn [interpolate] in H. destruct (display v) as [d|e] eqn:Hd.
    + destruct (@replaceKey_ok key v d s Hd) as (s' & Hs'). rewrite Hs' in H.
      cbn [bind] in H. pose proof (IH _ _ H) as Hs.
      intros k' v' [E|Hin]; [inversion E; subst; eauto|eauto].
    + rewrite (@replaceKey_throws key v e s Hd) in H. discriminate H.
Qed.

Lemma render_ok template (variables : context) :
  serial variables -> exists out, render template variables = Ok out.
Proof.
  intros Hs. unfold renderJinjaTemplate. destruct template as [|c t]; [eauto|].
  destruct (processConditionalBlocks_ok (c :: t) variables) as (s & Hp).
  rewrite Hp. simpl. now apply interpolate_ok.
Qed.

Lemma render_throws template (variables : context) :
  ~ serial variables -> template <> [] ->
  exists e, render template variables = Throw e.
Proof.
  intros Hn Ht. unfold renderJinjaTemplate.
  destruct template as [|c t]; [congruence|].
  destruct (processConditionalBlocks_ok (c :: t) variables) as (s & Hp).
  rewrite Hp. simpl. now apply interpolate_throws.
Qed.


(** ** Templates without markers *)

Lemma processConditionalBlocks_no_span template (variables : context) :
  (forall sp, if_span sp -> ~ occurs sp template) ->
  processBlocks template variables = Ok template.
Proof.
  intros H. unfold processConditionalBlocks.
  apply search_none_replace_all, no_occurrence_search.
  intros w M. apply H. now apply fullBlockPattern_span.
Qed.

Lemma replaceKey_no_placeholder key (v : value) d s :
  display v = Ok d ->
  (forall p, placeholder_for key p -> ~ occurs p s) ->
  replKey key v s = Ok s.
Proof.
  intros Hd H. rewrite (@replaceKey_shown key v d s Hd).
  apply search_none_replace_all, no_occurrence_search.
  intros w M. apply H. now apply keyRegex_placeholder.
Qed.

Lemma interpolate_no_placeholder (entries : context) s :
  serial entries ->
  (forall key v p, In (key, v) entries -> placeholder_for key p ->
                   ~ occurs p s) ->
  interp entries s = Ok s.
Proof.
  induction entries as [|[key v] entries IH]; intros Hs H; simpl;
    [reflexivity|].
  apply serialisable_cons in Hs. destruct Hs as ((d & Hd) & Hs).
  rewrite (@replaceKey_no_placeholder key v d s Hd).
  - simpl. apply IH; [exact Hs|].
    intros k' v' p Hin. apply (H k' v' p). now right.
  - intros p. apply (H key v p). now left.
Qed.

(** A text that no pass changes comes out of the loop as it went in. *)
Lemma interpolate_fixed (entries : context) s :
  serial entries ->
  (forall key v d, In (key, v) entries ->
     replace_all (keyRegex key)
       (fun mt before after => Ok (getSubstitution (m_text mt) before after d))
       s = Ok s) ->
  interp entries s = Ok s.
Proof.
  induction entries as [|[key v] entries IH]; intros Hs H; simpl;
    [reflexivity|].
  apply serialisable_cons in Hs. destruct Hs as ((d & Hd) & Hs).
  rewrite (@replaceKey_shown key v d s Hd), (H key v d (or_introl eq_refl)).
  cbn [bind]. apply IH; [exact Hs|].
  intros k' v' d' Hin. apply (H k' v'). now right.
Qed.


(** ** Placeholders that a replacement pass leaves alone *)

Lemma own_none_In (ctx : context) name key v :
  own ctx name = None -> In (key, v) ctx -> key <> name.
Proof.
  induction ctx as [|[k' v'] ctx IH]; intros Ho Hin E; [contradiction|].
  simpl in Ho. destruct (eqb_str name k') eqn:Ek; [discriminate|].
  destruct Hin as [Hin|Hin].
  - inversion Hin; subst. rewrite eqb_str_refl in Ek. discriminate.
  - exact (IH Ho Hin E).
Qed.

Lemma replaceKey_keeps key (v : value) d name x y :
  display v = Ok d ->
  brace_free key -> plain_name name -> key <> name ->
  exists x' y',
    replKey key v (x ++ placeholder name ++ y) = Ok (x' ++ placeholder name ++ y').
Proof.
  intros Hd Hk Hn Hne. rewrite (@replaceKey_shown key v d _ Hd).
  apply replace_all_keeps.
  - reflexivity.
  - intros mt b a. eauto.
  - intros b w a E M. apply keyRegex_placeholder in M.
    eapply placeholder_apart; eauto.
Qed.

Lemma interpolate_keeps (entries : context) name :
  plain_name name ->
  serial entries ->
  (forall key v, In (key, v) entries -> brace_free key /\ key <> name) ->
  forall x y, exists x' y',
    interp entries (x ++ placeholder name ++ y)
    = Ok (x' ++ placeholder name ++ y').
Proof.
  intros Hn. induction entries as [|[key v] entries IH]; intros Hs H x y;
    cbn [interpolate].
  - eauto.
  - destruct (H key v (or_introl eq_refl)) as (Hk & Hne).
    apply serialisable_cons in Hs. destruct Hs as ((d & Hd) & Hs).
    destruct (@replaceKey_keeps key v d name x y Hd Hk Hn Hne)
      as (x1 & y1 & E1).
    rewrite E1. cbn [bind]. apply IH; [exact Hs|].
    intros k' v' Hin. apply (H k' v'). now right.
Qed.

Lemma render_ok_serialisable c t (variables : context) out :
  render (c :: t) variables = Ok out -> serial variables.
Proof.
  unfold renderJinjaTemplate.
  destruct (processConditionalBlocks_ok (c :: t) variables) as (s & Hp).
  rewrite Hp. cbn [bind]. apply interpolate_ok_serialisable.
Qed.

(** C3, as amended.  A placeholder that is still in the text once the
    conditional blocks have been resolved, and whose name is not a key of the
    context, is in the output character for character: every text the render
    returns holds it, and the render returns one whenever the values of the
    context can be formatted.  Names here have no brace and no white space,
    keys have no brace.  In particular the template made of the placeholder
    for unknown_var alone, rendered with the empty context, comes out
    unchanged. *)
Theorem unknown_placeholder_kept :
  (forall template (variables : context) name x y,
     plain_name name ->
     (forall key v, In (key, v) variables -> brace_free key) ->
     own variables name = None ->
     processBlocks template variables = Ok (x ++ placeholder name ++ y) ->
     (forall out, render template variables = Ok out ->
        exists x' y', out = x' ++ placeholder name ++ y')
     /\ (serial variables ->
         exists x' y',
           render template variables = Ok (x' ++ placeholder name ++ y')))
  /\ render (u "{{unknown_var}}") [] = Ok (u "{{unknown_var}}").
Proof.
  split; [|reflexivity].
  intros template variables name x y Hn Hk Ho Hp.
  assert (Hne : template <> []).
  { intros ->. vm_compute in Hp. inversion Hp as [E].
    symmetry in E. apply app_eq_nil in E. destruct E as (_ & E).
    discriminate E. }
  destruct template as [|c t]; [congruence|].
  assert (Hr : serial variables ->
    exists x' y',
      render (c :: t) variables = Ok (x' ++ placeholder name ++ y')).
  { intros Hs. unfold renderJinjaTemplate. rewrite Hp. cbn [bind].
    apply interpolate_keeps; [assumption|assumption|].
    intros key v Hin. split; [eapply Hk; eauto|eapply own_none_In; eauto]. }
  split; [|exact Hr].
  intros out Ho'. destruct (Hr (@render_ok_serialisable c t variables out Ho')) as (x' & y' & E).
  rewrite E in Ho'. exists x', y'. congruence.
Qed.

(** ** A key that is a prefix of another *)

Lemma replaceKey_hits name (v : value) d x y :
  display v = Ok d ->
  plain_name name ->
  exists x' y',
    replKey name v (x ++ placeholder name ++ y)
    = Ok (x' ++ getSubstitution (placeholder name) x y d ++ y').
Proof.
  intros Hd Hn. rewrite (@replaceKey_shown name v d _ Hd).
  unfold replace_all.
  destruct (@replace_loop_hits (length (x ++ placeholder name ++ y))
              (keyRegex name)
              (fun mt before after =>
                 Ok (getSubstitution (m_text mt) before after d))
              (placeholder name) y [] eq_refl)
    with (fuel := S (length (x ++ placeholder name ++ y))) (done := @nil char)
         (x := x) as (x0 & x' & rep & y' & Hrep & Hr).
  - intros mt b a. eauto.
  - now apply keyRegex_match_at.
  - lia.
  - intros b w a E M. apply keyRegex_placeholder in M.
    destruct (Nat.le_gt_cases (length b + length w) (length x)) as [L1|L1];
      [now left|].
    destruct (Nat.le_gt_cases (length x + length (placeholder name)) (length b))
      as [L2|L2]; [right; now left|].
    right. right.
    exact (@placeholder_overlap name name x y b w a
             (@plain_name_brace_free name Hn)
             (@plain_name_brace_free name Hn) E M L2 L1).
  - cbn [m_text app] in Hrep. inversion Hrep; subst rep.
    exists x', y'. exact Hr.
Qed.

Lemma plain_name_prefix a b : plain_name (a ++ b) -> plain_name a.
Proof.
  unfold plain_name. rewrite forallb_app. intros H.
  now apply andb_true_iff in H.
Qed.

(** One pass at a time: the pass for a key that is a proper prefix of another
    leaves the placeholders of the longer key in place, and the pass for the
    longer key puts the expansion of its formatted value there. *)
Lemma replaceKey_prefix_pass short suffix (v v' : value) d d' x y :
  display v = Ok d -> display v' = Ok d' ->
  suffix <> [] ->
  plain_name (short ++ suffix) ->
  (exists x' y',
     replKey short v (x ++ placeholder (short ++ suffix) ++ y)
     = Ok (x' ++ placeholder (short ++ suffix) ++ y'))
  /\ (exists x' y',
        replKey (short ++ suffix) v' (x ++ placeholder (short ++ suffix) ++ y)
        = Ok (x' ++ getSubstitution (placeholder (short ++ suffix)) x y d'
                 ++ y'))
  /\ (~ In 36%N d' ->
      getSubstitution (placeholder (short ++ suffix)) x y d' = d').
Proof.
  intros Hd Hd' Hs Hn. split; [|split].
  - apply (@replaceKey_keeps short v d); [assumption| | |].
    + apply plain_name_brace_free. eapply plain_name_prefix; eauto.
    + assumption.
    + intros E. apply Hs.
      rewrite <- (app_nil_r short) in E at 1. now apply app_inv_head in E.
  - now apply replaceKey_hits.
  - apply getSubstitution_plain.
Qed.

(** ** An [if] directive without its [endif] *)




(** ** Equality conditions *)

Lemma evaluateCondition_equality name w1 w2 q1 lit q2 (variables : context) :
  condition_name name -> all_space w1 -> all_space w2 ->
  is_quote q1 = true -> quoted_literal lit -> is_quote q2 = true ->
  evalCond (equality_condition name w1 w2 q1 lit q2) variables
  = eqb_str (toStr num_toString obj_toString fn_toString
               (get proto variables name)) lit.
Proof.
  intros Hn H1 H2 Hq1 Hl Hq2.
  destruct (@equalRegex_match name w1 w2 q1 lit q2 [] Hn H1 H2 Hq1 Hl Hq2)
    as (mt & He & Hc1 & Hc2).
  rewrite app_nil_r in He.
  unfold evaluateCondition, evaluateCondition_try.
  rewrite He, Hc1, Hc2, (condition_name_trim Hn). reflexivity.
Qed.

(** C6, where the code does what the claim says.  For a condition
    [name == 'literal'] (either quote character on either side) whose name is
    not empty and holds no white space and no equals sign, whose literal is not empty and holds no quote
    character and no line terminator, and a context that binds the name, the
    evaluator returns true exactly when the string form of the bound value is
    the literal, character for character.  With the empty literal the
    pattern of the evaluator does not match and the comparison is never
    made. *)
Theorem equality_condition_bound name w1 w2 q1 lit q2 (variables : context) v :
  condition_name name -> all_space w1 -> all_space w2 ->
  is_quote q1 = true -> quoted_literal lit -> is_quote q2 = true ->
  own variables name = Some v ->
  (evalCond (equality_condition name w1 w2 q1 lit q2) variables = true
   <-> toStr num_toString obj_toString fn_toString v = lit).
Proof.
  intros Hn H1 H2 Hq1 Hl Hq2 Ho.
  rewrite evaluateCondition_equality by assumption.
  unfold get. rewrite Ho. apply eqb_str_eq.
Qed.

(** C10, away from the names that Object.prototype provides.  For a name
    that is neither a key of the context nor an inherited property, an
    equality condition is true exactly when its literal is the text
    undefined. *)
Theorem equality_condition_absent name w1 w2 q1 lit q2 (variables : context) :
  condition_name name -> all_space w1 -> all_space w2 ->
  is_quote q1 = true -> quoted_literal lit -> is_quote q2 = true ->
  own variables name = None -> proto name = None ->
  (evalCond (equality_condition name w1 w2 q1 lit q2) variables = true
   <-> lit = u "undefined").
Proof.
  intros Hn H1 H2 Hq1 Hl Hq2 Ho Hp.
  rewrite evaluateCondition_equality by assumption.
  unfold get. rewrite Ho, Hp. cbn [toStr]. rewrite eqb_str_eq.
  split; congruence.
Qed.

(** ** Conditional spans *)

Lemma selectBlock_blocks (variables : context) els :
  forall elifs, Forall clean_branch elifs ->
    select (blocks_of elifs els) variables = selected elifs els variables.
Proof.
  induction 1 as [|[c b] elifs (Hc & Hb) _ IH].
  - unfold blocks_of. destruct els; reflexivity.
  - cbn [fst snd] in Hc, Hb.
    change (blocks_of ((c, b) :: elifs) els)
      with (Block TElif (Some (trim (c ++ u " "))) (trim b)
              :: blocks_of elifs els).
    cbn [selectBlock selected_body b_type b_condition b_content].
    pose proof (@trim_condition_nonempty c Hc) as Hne.
    destruct Hc as (Hs & Hrest). rewrite trim_space_end by exact Hs.
    unfold condition_present. destruct (trim c) as [|x t]; [congruence|].
    cbn [andb]. rewrite IH. reflexivity.
Qed.

Lemma blockReplacer_span (variables : context) c1 b1 elifs els :
  clean_condition c1 -> clean_body b1 ->
  Forall clean_branch elifs -> clean_else els ->
  blockRepl variables (c1 ++ u " ") (b1 ++ branches_text elifs els)
  = Ok (selected ((c1, b1) :: elifs) els variables).
Proof.
  intros Hc1 Hb1 Helifs Hels. unfold blockReplacer, elifMatches.
  rewrite elifLoop_branches by (assumption || lia).
  cbn [bind length Nat.add].
  rewrite elseBreakpoint_branches by assumption.
  fold (all_bps (length b1) elifs els).
  rewrite sort_bp_increasing by apply all_bps_increasing.
  rewrite restBlocks_branches by assumption.
  assert (Hend :
    match all_bps (length b1) elifs els with
    | bp :: _ => bp_index bp
    | [] => length (b1 ++ branches_text elifs els)
    end = length b1).
  { pose proof (bps_from_head (length b1) elifs els) as Hh.
    destruct (all_bps (length b1) elifs els) as [|bp l] eqn:Ea.
    - apply all_bps_nil_inv in Ea. now rewrite Ea, app_nil_r.
    - exact Hh. }
  rewrite Hend, js_substring_prefix.
  f_equal. cbn [selectBlock selected_body b_type b_condition b_content].
  pose proof (@trim_condition_nonempty c1 Hc1) as Hne.
  destruct Hc1 as (Hs & Hrest). rewrite trim_space_end by exact Hs.
  unfold condition_present. destruct (trim c1) as [|x t]; [congruence|].
  cbn [andb]. now rewrite selectBlock_blocks by assumption.
Qed.

Lemma content_endif_fails b1 elifs els post :
  clean_body b1 -> Forall clean_branch elifs -> clean_else els ->
  everywhere (fails_at endifPattern) (b1 ++ branches_text elifs els)
             (endif_directive ++ post).
Proof.
  intros Hb1 Helifs Hels.
  change endifPattern
    with (directivePattern (u "endif") (Seq (Star true ws) (lits (u "%}")))).
  apply everywhere_app.
  - apply everywhere_body; [apply fails_no_open|exact Hb1|].
    now apply branches_text_opens.
  - apply everywhere_branches; try assumption.
    + apply endif_fails_on_elif.
    + intros _. apply endif_fails_on_else.
    + reflexivity.
Qed.


#[local] Abbreviation transformName :=
  (transformColumnName num_toString num_truthy obj_toString fn_toString proto).

Lemma own_transformations name (v : value) :
  own (transformations num obj fn) name = Some v ->
  exists c label, v = VStr (c :: label).
Proof.
  unfold transformations. cbn [own].
  repeat match goal with
  | |- context [eqb_str name ?k] => destruct (eqb_str name k)
  end; intros H; inversion H; subst; try discriminate;
  eexists; eexists; reflexivity.
Qed.

Lemma lookup_translation name :
  proto name = None ->
  js_or num_truthy (get proto (transformations num obj fn) name) (VStr name)
  = VStr (translation num obj fn name).
Proof.
  intros Hp. unfold get, js_or, translation.
  destruct (own (transformations num obj fn) name) as [v|] eqn:E.
  - destruct (@own_transformations name v E) as (c & label & ->). reflexivity.
  - rewrite Hp. reflexivity.
Qed.

(** C9: an identifier made of one of the five function names, in any letter
    case, and a field in parentheses maps to the prefix word of the function,
    a space and the table label of the field, the field itself when the table
    has none; an identifier without an opening parenthesis maps to its table
    label, itself when the table has none.  In both cases the name looked up
    is not one that every object inherits. *)
Theorem transformColumnName_table :
  (forall f p field,
      In p function_names -> map upper_ascii f = p ->
      forallb (fun c => negb (is_line_terminator c)) field = true ->
      proto field = None ->
      transformName (wrapped f field)
      = VStr (functionPrefix p ++ u " " ++ translation num obj fn field))
  /\ (forall name,
      ~ In 40%N name -> proto name = None ->
      transformName name = VStr (translation num obj fn name)).
Proof.
  split.
  - intros f p field Hin Hf Hfield Hp. unfold transformColumnName.
    destruct (@functionRegex_match f p field Hin Hf Hfield) as (mt & -> & -> & ->).
    cbv zeta. rewrite Hf, lookup_translation by exact Hp. reflexivity.
  - intros name Hn Hp. unfold transformColumnName.
    rewrite functionRegex_bare by exact Hn.
    now apply lookup_translation.
Qed.

End RendererFacts.

(** * Facts about the context builder *)

Section BuilderFacts.

Variable num : Type.
Variable num_toString : num -> str.
Variable num_toLocaleString : num -> str.
Variable num_truthy : num -> bool.
Variable obj : Type.
Variable obj_toString : obj -> str.
Variable JSON_stringify : obj -> result str.
Variable fn : Type.
Variable fn_toString : fn -> str.
Variable proto : str -> option (value num obj fn).
Variable num_of_nat : nat -> num.
Variable num_zero : num.
Variable num_add : num -> num -> num.
Variable num_div : num -> num -> num.
Variable Math_min : list num -> num.
Variable Math_max : list num -> num.
Variable obj_of_record : context num obj fn -> obj.
Variable obj_of_array : list (value num obj fn) -> obj.

#[local] Abbreviation value := (value num obj fn).
#[local] Abbreviation context := (context num obj fn).
#[local] Abbreviation column := (column num obj fn).
#[local] Abbreviation build :=
  (buildVariables num_truthy proto num_of_nat num_zero num_add num_div
     Math_min Math_max obj_of_record obj_of_array).
#[local] Abbreviation metricsOf :=
  (columnMetrics num_truthy proto num_of_nat num_zero num_add num_div
     Math_min Math_max).
#[local] Abbreviation generate :=
  (generateDynamicColumnName num_toString num_toLocaleString num_truthy
     obj_toString JSON_stringify fn_toString proto num_of_nat num_zero
     num_add num_div Math_min Math_max obj_of_record obj_of_array).

#[local] Abbreviation entriesOf := (numericEntries proto).
#[local] Abbreviation statisticsOf := (hasStatistics num_truthy proto).
#[local] Abbreviation serial :=
  (serialisable num_toString num_toLocaleString obj_toString JSON_stringify
     fn_toString).

Lemma numbers_filter (l : list value) :
  numbers (filter (@not_nullish num obj fn) l) = numbers l.
Proof.
  induction l as [|v l IH]; [reflexivity|].
  destruct v; simpl; rewrite ?IH; reflexivity.
Qed.

Lemma numbers_length (l : list value) : length (numbers l) <= length l.
Proof.
  induction l as [|v l IH]; [simpl; lia|].
  destruct v; simpl; lia.
Qed.

Lemma columnMetrics_spec (c : column) (data : list context) :
  metricsOf c data =
  if statisticsOf c data then
    let nums := entriesOf c data in
    [(u "sum", VNum (fold_left num_add nums num_zero));
     (u "avg", VNum (num_div (fold_left num_add nums num_zero)
                             (num_of_nat (length nums))));
     (u "min", VNum (Math_min nums));
     (u "max", VNum (Math_max nums));
     (u "count", VNum (num_of_nat (length nums)))]
  else [].
Proof.
  unfold columnMetrics, hasStatistics, numericEntries, columnData.
  rewrite numbers_filter.
  set (cells := map (fun row => get proto row (col_key c)) data).
  destruct (truthy num_truthy (col_isNumeric c)); [|reflexivity].
  cbn [andb].
  pose proof (numbers_length (filter (@not_nullish num obj fn) cells)) as L.
  rewrite numbers_filter in L.
  destruct (numbers cells) as [|x l] eqn:En.
  - destruct (0 <? length (filter (@not_nullish num obj fn) cells));
      reflexivity.
  - cbn [length] in L.
    destruct (length (filter (@not_nullish num obj fn) cells)) eqn:El; [lia|].
    reflexivity.
Qed.

Lemma own_app (a b : context) k :
  own (a ++ b) k = match own a k with Some v => Some v | None => own b k end.
Proof.
  induction a as [|[k' v'] a IH]; [reflexivity|].
  simpl. destruct (eqb_str k k'); [reflexivity|exact IH].
Qed.


End BuilderFacts.

(** * Interpolation as substitution *)

(** Two runs of a class that end where the class ends are the same run. *)
Lemma run_unique (p : char -> bool) : forall a b s t,
  forallb p a = true -> forallb p b = true ->
  stops_at p s -> stops_at p t ->
  a ++ s = b ++ t -> a = b /\ s = t.
Proof.
  induction a as [|x a IH]; intros [|y b] s t Ha Hb Hs Ht E; cbn [app] in E.
  - auto.
  - exfalso. subst s. cbn [stops_at forallb] in *.
    apply andb_true_iff in Hb. destruct Hb as (Hy & _). congruence.
  - exfalso. subst t. cbn [stops_at forallb] in *.
    apply andb_true_iff in Ha. destruct Ha as (Hx & _). congruence.
  - inversion E; subst. cbn [forallb] in Ha, Hb.
    apply andb_true_iff in Ha. apply andb_true_iff in Hb.
    destruct Ha as (_ & Ha). destruct Hb as (_ & Hb).
    destruct (IH b s t Ha Hb Hs Ht H1) as (-> & ->). auto.
Qed.

Lemma plain_name_no_space name :
  plain_name name -> forallb (fun c => negb (is_space c)) name = true.
Proof.
  unfold plain_name. rewrite !forallb_forall. intros H c Hin.
  apply H in Hin. apply negb_true_iff, orb_false_iff in Hin.
  apply negb_true_iff. tauto.
Qed.

(** The name between the white space of a placeholder is determined by the
    inside of the placeholder. *)
Lemma name_unique k n a b a' b' :
  plain_name k -> plain_name n ->
  all_space a -> all_space b -> all_space a' -> all_space b' ->
  a ++ k ++ b = a' ++ n ++ b' -> k = n.
Proof.
  intros Hk Hn Ha Hb Ha' Hb' E.
  assert (Hs : forall (x : str), all_space x -> stops_at is_space x -> x = []).
  { intros [|c x] Hx Hst; [reflexivity|]. cbn [stops_at] in Hst.
    rewrite (@all_space_In (c :: x) c Hx (or_introl eq_refl)) in Hst.
    discriminate. }
  assert (Hq : forall (x : str), all_space x ->
            stops_at (fun c => negb (is_space c)) x).
  { intros [|c x] Hx; [exact I|]. cbn [stops_at].
    now rewrite (@all_space_In (c :: x) c Hx (or_introl eq_refl)). }
  assert (St : forall (name w : str), plain_name name -> all_space w ->
            name <> [] -> stops_at is_space (name ++ w)).
  { intros [|c name] w Hp _ Hne; [congruence|]. cbn [app stops_at].
    now destruct (@plain_name_In (c :: name) c Hp (or_introl eq_refl)). }
  destruct k as [|c k], n as [|d n]; [reflexivity| | |].
  - exfalso. cbn [app] in E.
    assert (Hab : all_space (a ++ b))
      by (unfold all_space in *; rewrite forallb_app, Ha, Hb; reflexivity).
    rewrite <- (app_nil_r (a ++ b)) in E.
    destruct (@run_unique is_space (a ++ b) a' [] ((d :: n) ++ b')
                Hab Ha' I (St _ _ Hn Hb' ltac:(discriminate)) E) as (_ & E2).
    discriminate E2.
  - exfalso. cbn [app] in E.
    assert (Hab : all_space (a' ++ b'))
      by (unfold all_space in *; rewrite forallb_app, Ha', Hb'; reflexivity).
    rewrite <- (app_nil_r (a' ++ b')) in E.
    destruct (@run_unique is_space a (a' ++ b') ((c :: k) ++ b) []
                Ha Hab (St _ _ Hk Hb ltac:(discriminate)) I E) as (_ & E2).
    discriminate E2.
  - destruct (@run_unique is_space a a' ((c :: k) ++ b) ((d :: n) ++ b')
                Ha Ha' (St _ _ Hk Hb ltac:(discriminate))
                (St _ _ Hn Hb' ltac:(discriminate)) E) as (_ & E2).
    destruct (@run_unique (fun c => negb (is_space c)) (c :: k) (d :: n) b b'
                (plain_name_no_space Hk) (plain_name_no_space Hn)
                (Hq _ Hb) (Hq _ Hb') E2) as (E3 & _).
    exact E3.
Qed.
Lemma hole_placeholder name w1 w2 :
  all_space w1 -> all_space w2 ->
  placeholder_for name (piece_text (Hole name w1 w2)).
Proof. intros H1 H2. exists w1, w2. auto. Qed.

(** Inside a piece that is not a placeholder of the key, the pattern of the
    key matches nowhere, whatever follows the piece. *)
Lemma keyRegex_fails_inside k p (T : str) :
  plain_name k -> well_formed p ->
  match p with Hole name _ _ => name <> k | Text _ => True end ->
  forall n w1 c w2, piece_text p = w1 ++ c :: w2 ->
    match_at n (keyRegex k) (c :: w2 ++ T) = None.
Proof.
  intros Hk Hp Hne n w1 c w2 E.
  destruct (match_at n (keyRegex k) (c :: w2 ++ T)) as [mt|] eqn:Em;
    [exfalso|reflexivity].
  apply match_at_sound in Em. destruct Em as (_ & Es & M).
  apply keyRegex_placeholder in M.
  destruct (@placeholder_for_shape _ _ (@plain_name_brace_free _ Hk) M)
    as (mid & Et & Hmid & a & b & Ha & Hb & Emid).
  rewrite Et in Es. cbn [app] in Es. inversion Es as [[Ec Ew]]. subst c.
  destruct p as [s|name v1 v2]; cbn [piece_text well_formed] in *.
  - assert (Hin : In 123%N s) by (rewrite E; apply in_elt).
    pose proof (@brace_free_In _ _ Hp Hin) as F. discriminate F.
  - destruct Hp as (Hn & H1 & H2).
    destruct (@placeholder_for_shape _ _ (@plain_name_brace_free _ Hn)
                (@hole_placeholder name v1 v2 H1 H2))
      as (mid' & Et' & Hmid' & a' & b' & Ha' & Hb' & Emid').
    cbn [piece_text] in Et'. rewrite Et' in E.
    destruct w1 as [|x [|y w1]]; cbn [app] in E; inversion E; subst.
    + (* at the opening of the placeholder *)
      rewrite <- app_assoc in Ew. cbn [app] in Ew.
      inversion Ew as [Ew'].
      destruct (@run_unique (fun c => negb (is_brace c))
                  (a' ++ name ++ b') (a ++ k ++ b)
                  (125%N :: 125%N :: T)
                  (125%N :: 125%N :: m_after mt)) as (Ek & _);
        [exact Hmid'|exact Hmid|reflexivity|reflexivity| |].
      * rewrite <- !app_assoc in Ew'. rewrite <- !app_assoc. exact Ew'.
      * apply Hne. symmetry.
        now apply (@name_unique k name a b a' b').
    + (* at the second brace *)
      destruct (a' ++ name ++ b') as [|z mid0] eqn:Em0; cbn [app] in Ew.
      * discriminate Ew.
      * inversion Ew; subst z.
        assert (Hin : In 123%N (123%N :: mid0)) by now left.
        pose proof (@brace_free_In _ _ Hmid' Hin) as F. discriminate F.
    + (* further in *)
      assert (Hin : In 123%N ((a' ++ name ++ b') ++ [125%N; 125%N])).
      { match goal with H : _ ++ [125%N; 125%N] = _ |- _ => rewrite H end.
        apply in_elt. }
      apply in_app_or in Hin. destruct Hin as [Hin|Hin].
      * pose proof (@brace_free_In _ _ Hmid' Hin) as F. discriminate F.
      * cbn in Hin. intuition discriminate.
Qed.
(** The pattern of a key on a placeholder of that key: the whole placeholder
    is the match. *)
Lemma keyRegex_tail_run n k w1 w2 (T : str) cs K z :
  all_space w1 -> all_space w2 ->
  stops_at is_space (k ++ w2 ++ u "}}" ++ T) ->
  K (MState T cs) = Some z ->
  m n (Seq (Star true ws)
           (Seq (lits k) (Seq (Star true ws) (lits (u "}}")))))
    (MState (w1 ++ k ++ w2 ++ u "}}" ++ T) cs) K = Some z.
Proof.
  intros H1 H2 Hs HK. unfold ws. rewrite m_Seq.
  apply m_star_greedy_run; [exact H1|exact Hs|].
  rewrite m_Seq, m_lits. cbv beta. rewrite m_Seq.
  apply m_star_greedy_run; [exact H2|reflexivity|].
  rewrite m_lits. exact HK.
Qed.

Lemma keyRegex_hole_match n k w1 w2 (T : str) :
  plain_name k -> all_space w1 -> all_space w2 ->
  match_at n (keyRegex k) (piece_text (Hole k w1 w2) ++ T)
  = Some (RMatch [] (piece_text (Hole k w1 w2)) T []).
Proof.
  intros Hk H1 H2.
  assert (Hrun : m n (keyRegex k)
                   (MState (piece_text (Hole k w1 w2) ++ T) [])
                   (fun y => Some y) = Some (MState T [])).
  { unfold keyRegex. cbn [seqs piece_text].
    replace ((u "{{" ++ w1 ++ k ++ w2 ++ u "}}") ++ T)
      with (u "{{" ++ w1 ++ k ++ w2 ++ u "}}" ++ T)
      by (now rewrite <- !app_assoc).
    rewrite m_Seq, m_lits. cbv beta.
    destruct k as [|c k].
    - replace (w1 ++ [] ++ w2 ++ u "}}" ++ T)
        with ((w1 ++ w2) ++ [] ++ [] ++ u "}}" ++ T)
        by (now rewrite <- app_assoc).
      apply keyRegex_tail_run; [|reflexivity|reflexivity|reflexivity].
      unfold all_space in *. now rewrite forallb_app, H1, H2.
    - apply keyRegex_tail_run; [exact H1|exact H2| |reflexivity].
      cbn [app stops_at].
      now destruct (@plain_name_In (c :: k) c Hk (or_introl eq_refl)). }
  unfold match_at. rewrite Hrun. cbn [rest caps].
  now rewrite firstn_app_exact.
Qed.

(** ** A replacement pass over the pieces *)

(** The replacement passes a stretch of input in which the pattern matches
    nowhere, and goes on after it. *)
Lemma replace_loop_skip n r (f : rmatch -> str -> str -> result str)
      (h : str -> str) (s T : str) :
  (forall mt b a, f mt b a = Ok (h (m_text mt))) ->
  (forall w1 c w2, s = w1 ++ c :: w2 -> match_at n r (c :: w2 ++ T) = None) ->
  forall fuel done,
    replace_loop fuel n r f done (s ++ T)
    = (tl <- replace_loop fuel n r f (done ++ s) T ;; Ok (s ++ tl)).
Proof.
  intros Hf Hs [|fuel] done; [reflexivity|].
  cbn [replace_loop]. rewrite (@search_skip n r T s Hs).
  destruct (search n r T) as [[b t a cs]|]; cbn [prepend bind];
    [|reflexivity].
  rewrite !Hf. cbn [bind m_before m_text m_after].
  replace (done ++ s ++ b) with ((done ++ s) ++ b) by (now rewrite app_assoc).
  destruct t as [|c0 t].
  - destruct a as [|c1 a]; [now rewrite <- app_assoc|].
    destruct (replace_loop fuel n r f (((done ++ s) ++ b) ++ [c1]) a);
      cbn [bind]; [now rewrite <- app_assoc|reflexivity].
  - destruct (replace_loop fuel n r f (((done ++ s) ++ b) ++ c0 :: t) a);
      cbn [bind]; [now rewrite <- app_assoc|reflexivity].
Qed.

Lemma piece_text_hole_length name w1 w2 :
  0 < length (piece_text (Hole name w1 w2)).
Proof. cbn. lia. Qed.

(** One pass for a key over a template of well-formed pieces, when the text
    put in place of a match depends on the matched text alone: every
    placeholder of the key is replaced, every other piece is kept. *)
Lemma replace_loop_pieces n k (f : rmatch -> str -> str -> result str)
      (h : str -> str) :
  plain_name k ->
  (forall mt b a, f mt b a = Ok (h (m_text mt))) ->
  forall tpl, Forall well_formed tpl ->
  forall fuel done, length (template_text tpl) < fuel ->
    replace_loop fuel n (keyRegex k) f done (template_text tpl)
    = Ok (template_text (map (subst_piece k h) tpl)).
Proof.
  intros Hk Hf tpl Hwf. induction Hwf as [|p tpl Hp Hwf IH];
    intros fuel done Hlen.
  - destruct fuel; [cbn in Hlen; lia|]. reflexivity.
  - cbn [template_text flat_map map] in *. fold (template_text tpl) in *.
    rewrite length_app in Hlen.
    assert (Hskip : match p with Hole name _ _ => name <> k | Text _ => True end ->
              replace_loop fuel n (keyRegex k) f done
                (piece_text p ++ template_text tpl)
              = Ok (piece_text p
                      ++ template_text (map (subst_piece k h) tpl))).
    { intros Hne.
      rewrite (@replace_loop_skip n (keyRegex k) f h (piece_text p)
                 (template_text tpl) Hf).
      - rewrite IH by lia. reflexivity.
      - intros w1 c w2 E. eapply keyRegex_fails_inside; eauto. }
    destruct p as [s|name w1 w2]; cbn [subst_piece].
    + apply Hskip. exact I.
    + destruct (eqb_str name k) eqn:Ek.
      * apply eqb_str_eq in Ek. subst name.
        destruct Hp as (_ & H1 & H2).
        pose proof (piece_text_hole_length k w1 w2) as Hpos.
        destruct fuel as [|fuel]; [lia|].
        cbn [replace_loop].
        rewrite (@search_match_at n (keyRegex k) _ _
                   (@keyRegex_hole_match n k w1 w2 (template_text tpl)
                      Hk H1 H2)).
        rewrite Hf. cbn [bind m_before m_text m_after app].
        destruct (piece_text (Hole k w1 w2)) as [|c0 t0] eqn:Et;
          [cbn in Hpos; lia|].
        rewrite IH by (cbn [length] in *; lia).
        reflexivity.
      * apply Hskip. intros ->. rewrite eqb_str_refl in Ek. discriminate.
Qed.
(** ** No directive in a template of well-formed pieces *)

Lemma template_no_open tpl :
  Forall (fun p => well_formed p /\ no_directive p) tpl ->
  forall b w1 w2 tail, all_space w1 -> all_space w2 -> w2 <> [] ->
    template_text tpl <> b ++ u "{%" ++ w1 ++ u "if" ++ w2 ++ tail.
Proof.
  intros Hwf. induction Hwf as [|p tpl Hp Hwf IH];
    intros b w1 w2 tail H1 H2 Hne E.
  - cbn in E. destruct b; discriminate E.
  - cbn [template_text flat_map] in E. fold (template_text tpl) in E.
    destruct (Nat.le_gt_cases (length (piece_text p)) (length b)) as [L|L].
    + apply app_split_right in E; [|exact L].
      destruct E as (b2 & _ & E). exact (IH b2 w1 w2 tail H1 H2 Hne E).
    + apply app_split_left in E; [|lia].
      destruct E as (x2 & Ep & Ex).
      assert (Hx : x2 <> []).
      { intros ->. rewrite app_nil_r in Ep. rewrite Ep in L. lia. }
      destruct x2 as [|c x2]; [congruence|]. cbn [app] in Ex.
      inversion Ex as [[Ec Ex']]. subst c. clear Ex Hx.
      destruct Hp as (Hp & Hif).
      destruct p as [s|name v1 v2];
        cbn [piece_text well_formed no_directive] in *.
      * assert (Hin : In 123%N s) by (rewrite Ep; apply in_elt).
        pose proof (@brace_free_In _ _ Hp Hin) as F. discriminate F.
      * destruct Hp as (Hn & Hv1 & Hv2).
        destruct (@placeholder_for_shape _ _ (@plain_name_brace_free _ Hn)
                    (@hole_placeholder name v1 v2 Hv1 Hv2))
          as (mid & Et & Hmid & _).
        cbn [piece_text] in Et.
        assert (Emid : mid = v1 ++ name ++ v2).
        { cbn [app] in Et. inversion Et as [Em].
          rewrite !app_assoc in Em. apply app_inv_tail in Em.
          rewrite <- !app_assoc in Em. now symmetry. }
        rewrite Et in Ep.
        destruct b as [|x [|y b]]; cbn [app] in Ep; inversion Ep; try subst x2.
        -- cbn [app] in Ex'. discriminate Ex'.
        -- (* the directive would open at the second brace *)
           subst mid. rewrite <- !app_assoc in Ex'.
           destruct v1 as [|s0 v1]; cbn [app] in Ex'.
           2:{ inversion Ex'; subst s0.
               pose proof (@all_space_In _ 37%N Hv1 (or_introl eq_refl)) as F.
               discriminate F. }
           destruct name as [|c0 name]; cbn [app] in Ex'.
           { destruct v2 as [|s0 v2]; cbn [app] in Ex'; [discriminate Ex'|].
             inversion Ex'; subst s0.
             pose proof (@all_space_In _ 37%N Hv2 (or_introl eq_refl)) as F.
             discriminate F. }
           inversion Ex' as [[Ec0 Er]]. subst c0.
           destruct name as [|d name].
           ++ cbn [app] in Er.
              destruct (@run_unique is_space w1 v2
                          (u "if" ++ w2 ++ tail) (u "}}" ++ template_text tpl)
                          H1 Hv2 eq_refl eq_refl Er) as (_ & F).
              discriminate F.
           ++ assert (Hd : is_space d = false).
              { destruct (@plain_name_In _ d Hn) as (_ & Hd);
                  [right; now left|exact Hd]. }
              destruct (@run_unique is_space w1 []
                          (u "if" ++ w2 ++ tail)
                          ((d :: name) ++ v2 ++ u "}}" ++ template_text tpl)
                          H1 eq_refl eq_refl Hd Er) as (_ & Er2).
              assert (Hplain : forallb (fun c => negb (is_brace c || is_space c))
                                 (d :: name) = true).
              { unfold plain_name in Hn. cbn [forallb] in Hn.
                apply andb_true_iff in Hn. exact (proj2 Hn). }
              assert (S1 : stops_at (fun c => negb (is_brace c || is_space c))
                             (w2 ++ tail)).
              { destruct w2 as [|s0 w2]; [congruence|]. cbn [app stops_at].
                rewrite (@all_space_In _ s0 H2 (or_introl eq_refl)).
                now rewrite orb_true_r. }
              assert (S2 : stops_at (fun c => negb (is_brace c || is_space c))
                             (v2 ++ u "}}" ++ template_text tpl)).
              { destruct v2 as [|s0 v2]; [reflexivity|]. cbn [app stops_at].
                rewrite (@all_space_In _ s0 Hv2 (or_introl eq_refl)).
                now rewrite orb_true_r. }
              destruct (@run_unique (fun c => negb (is_brace c || is_space c))
                          (u "if") (d :: name) (w2 ++ tail)
                          (v2 ++ u "}}" ++ template_text tpl)
                          eq_refl Hplain S1 S2 Er2) as (En & _).
              apply Hif. rewrite <- En. reflexivity.
        -- assert (Hin : In 123%N (mid ++ [125%N; 125%N])).
           { match goal with H : _ ++ [125%N; 125%N] = _ |- _ => rewrite H end.
             apply in_elt. }
           apply in_app_or in Hin. destruct Hin as [Hin|Hin].
           ++ pose proof (@brace_free_In _ _ Hmid Hin) as F. discriminate F.
           ++ cbn in Hin. intuition discriminate.
Qed.

Lemma template_no_span tpl :
  Forall (fun p => well_formed p /\ no_directive p) tpl ->
  forall sp, if_span sp -> ~ occurs sp (template_text tpl).
Proof.
  intros Hwf sp (tag & body & close & Htag & _ & ->) (b & a & E).
  destruct Htag as (w1 & w2 & cond & w3 & H1 & H2 & Hne & _ & _ & _ & ->).
  apply (@template_no_open tpl Hwf b w1 w2
           (cond ++ w3 ++ u "%}" ++ body ++ close ++ a) H1 H2 Hne).
  rewrite E. repeat (rewrite <- app_assoc; cbn [app]). reflexivity.
Qed.
Section InterpolationFacts.

Variable num : Type.
Variable num_toString : num -> str.
Variable num_toLocaleString : num -> str.
Variable num_truthy : num -> bool.
Variable obj : Type.
Variable obj_toString : obj -> str.
Variable JSON_stringify : obj -> result str.
Variable fn : Type.
Variable fn_toString : fn -> str.
Variable fn_call : fn -> context num obj fn -> str -> result bool.
Variable proto : str -> option (value num obj fn).

#[local] Abbreviation value := (value num obj fn).
#[local] Abbreviation context := (context num obj fn).
#[local] Abbreviation processBlocks :=
  (processConditionalBlocks num_toString num_truthy obj_toString fn_toString
     fn_call proto).
#[local] Abbreviation display :=
  (displayValue num_toString num_toLocaleString obj_toString JSON_stringify
     fn_toString).
#[local] Abbreviation serial :=
  (serialisable num_toString num_toLocaleString obj_toString JSON_stringify
     fn_toString).
#[local] Abbreviation replKey :=
  (replaceKey num_toString num_toLocaleString obj_toString JSON_stringify
     fn_toString).
#[local] Abbreviation interp :=
  (interpolate num_toString num_toLocaleString obj_toString JSON_stringify
     fn_toString).
#[local] Abbreviation render :=
  (renderJinjaTemplate num_toString num_toLocaleString num_truthy obj_toString
     JSON_stringify fn_toString fn_call proto).

#[local] Abbreviation shownValue :=
  (shown num_toString num_toLocaleString obj_toString JSON_stringify
     fn_toString).

(** What the context makes of a name: the formatted value of its first
    entry for the name. *)
#[local] Abbreviation formatted := (fun (variables : context) name =>
  option_map shownValue (own variables name)).

Lemma display_shown (v : value) d : display v = Ok d -> shownValue v = d.
Proof. intros H. unfold shown. now rewrite H. Qed.

Lemma plain_template_well_formed tpl :
  plain_template tpl -> Forall well_formed tpl.
Proof. apply Forall_impl. now intros p (H & _). Qed.

Lemma replaceKey_pieces key (v : value) d tpl :
  display v = Ok d ->
  plain_name key -> Forall well_formed tpl -> ~ In 36%N d ->
  replKey key v (template_text tpl)
  = Ok (template_text (map (subst_piece key (fun _ => d)) tpl)).
Proof.
  intros Hv Hk Hwf Hd. unfold replaceKey. rewrite Hv. cbn [bind].
  unfold replace_all.
  apply replace_loop_pieces; [exact Hk| |exact Hwf|lia].
  intros mt b a. now rewrite getSubstitution_plain.
Qed.

Lemma subst_piece_well_formed key d tpl :
  brace_free d -> Forall well_formed tpl ->
  Forall well_formed (map (subst_piece key (fun _ => d)) tpl).
Proof.
  intros Hd Hwf. induction Hwf as [|p tpl Hp Hwf IH]; cbn [map];
    constructor; [|exact IH].
  destruct p as [s|name w1 w2]; cbn [subst_piece]; [exact Hp|].
  destruct (eqb_str name key); [exact Hd|exact Hp].
Qed.

Lemma fill_subst_piece key (v : value) (entries : context) tpl :
  flat_map (fill (formatted entries))
    (map (subst_piece key (fun _ => shownValue v)) tpl)
  = flat_map (fill (formatted ((key, v) :: entries))) tpl.
Proof.
  induction tpl as [|p tpl IH]; [reflexivity|].
  cbn [map flat_map]. rewrite IH. f_equal.
  destruct p as [s|name w1 w2]; cbn [subst_piece fill own]; [reflexivity|].
  destruct (eqb_str name key); reflexivity.
Qed.

Lemma interpolate_pieces (entries : context) :
  serial entries ->
  (forall key v, In (key, v) entries ->
     plain_name key /\ inert (shownValue v)) ->
  forall tpl, Forall well_formed tpl ->
    interp entries (template_text tpl)
    = Ok (flat_map (fill (formatted entries)) tpl).
Proof.
  induction entries as [|[key v] entries IH]; intros Hs He tpl Hwf;
    cbn [interpolate].
  - f_equal. unfold template_text. apply flat_map_ext.
    intros [s|name w1 w2]; reflexivity.
  - destruct (He key v (or_introl eq_refl)) as (Hk & Hb & Hd).
    destruct (Hs key v (or_introl eq_refl)) as (d & Hv).
    rewrite (@display_shown v d Hv) in Hb, Hd.
    rewrite (@replaceKey_pieces key v d tpl Hv Hk Hwf Hd). cbn [bind].
    rewrite IH.
    + rewrite <- (@display_shown v d Hv). now rewrite fill_subst_piece.
    + intros k' v' Hin. apply (Hs k' v'). now right.
    + intros k' v' Hin. apply He. now right.
    + now apply subst_piece_well_formed.
Qed.

Lemma empty_template_fill (resolve : str -> option str) tpl :
  template_text tpl = [] -> flat_map (fill resolve) tpl = [].
Proof.
  induction tpl as [|p tpl IH]; [reflexivity|].
  cbn [template_text flat_map]. intros E.
  apply app_eq_nil in E. destruct E as (Ep & Et).
  rewrite (IH Et), app_nil_r.
  destruct p as [s|name w1 w2]; [exact Ep|discriminate Ep].
Qed.

Lemma render_pieces tpl (variables : context) :
  plain_template tpl ->
  serial variables ->
  (forall key v, In (key, v) variables ->
     plain_name key /\ inert (shownValue v)) ->
  render (template_text tpl) variables
  = Ok (flat_map (fill (formatted variables)) tpl).
Proof.
  intros Ht Hs Hv. unfold renderJinjaTemplate.
  destruct (template_text tpl) as [|c t] eqn:E.
  - now rewrite empty_template_fill.
  - rewrite <- E.
    rewrite processConditionalBlocks_no_span
      by (now apply template_no_span).
    cbn [bind]. apply interpolate_pieces; [exact Hs|exact Hv|].
    now apply plain_template_well_formed.
Qed.

(** X1.  Interpolation is substitution.  For a template made of text
    without braces and of placeholders (a name without braces or white space,
    other than the one that reads as a directive, with any white space around
    it), and a context whose keys have no brace or white space and whose
    values can be formatted, to texts without brace and without dollar sign,
    the render replaces every placeholder of a bound name by the formatted
    value of the first entry for that name, and keeps every other piece as it
    is written. *)
Theorem render_fills_placeholders tpl (variables : context) :
  plain_template tpl ->
  serial variables ->
  (forall key v, In (key, v) variables ->
     plain_name key /\ inert (shownValue v)) ->
  render (template_text tpl) variables
  = Ok (flat_map (fill (formatted variables)) tpl).
Proof. apply render_pieces. Qed.



Lemma render_one_pass tpl key (v : value) d (h : str -> str) :
  display v = Ok d ->
  plain_template tpl -> plain_name key ->
  (forall matched before after,
     getSubstitution matched before after d = h matched) ->
  render (template_text tpl) [(key, v)]
  = Ok (template_text (map (subst_piece key h) tpl)).
Proof.
  intros Hv Ht Hk Hh. unfold renderJinjaTemplate.
  destruct (template_text tpl) as [|c t] eqn:E.
  - f_equal. symmetry. clear Ht.
    induction tpl as [|p tpl IH]; [reflexivity|].
    cbn [template_text flat_map] in E. apply app_eq_nil in E.
    destruct E as (Ep & Et). cbn [map template_text flat_map].
    fold (template_text (map (subst_piece key h) tpl)).
    rewrite (IH Et), app_nil_r.
    destruct p as [s|name w1 w2]; [exact Ep|discriminate Ep].
  - rewrite <- E.
    rewrite processConditionalBlocks_no_span
      by (now apply template_no_span).
    cbn [bind interpolate]. unfold replaceKey. rewrite Hv. cbn [bind].
    unfold replace_all.
    rewrite (@replace_loop_pieces _ key _ h Hk); [reflexivity| | |lia].
    + intros mt b a. now rewrite Hh.
    + now apply plain_template_well_formed.
Qed.

(** X2.  The formatted value is handed to String.prototype.replace as a
    replacement pattern, so its dollar sequences are expanded: a key bound to
    the two characters dollar, ampersand leaves every placeholder of the key
    as it is written, and a key bound to two dollar signs puts a single
    dollar sign in place of each. *)
Theorem dollar_sequences_expanded tpl key :
  plain_template tpl -> plain_name key ->
  render (template_text tpl) [(key, VStr (u "$&"))] = Ok (template_text tpl)
  /\ render (template_text tpl) [(key, VStr (u "$$"))]
     = Ok (flat_map
             (fill (fun name => if eqb_str name key then Some (u "$")
                                else None)) tpl).
Proof.
  intros Ht Hk. split.
  - rewrite (@render_one_pass tpl key _ (u "$&")
               (fun matched => matched ++ []))
      by (assumption || reflexivity).
    f_equal. clear Ht.
    induction tpl as [|p tpl IH]; [reflexivity|].
    cbn [map template_text flat_map].
    fold (template_text (map (subst_piece key (fun matched => matched ++ []))
                             tpl)).
    fold (template_text tpl). rewrite IH. f_equal.
    destruct p as [s|name w1 w2]; cbn [subst_piece]; [reflexivity|].
    destruct (eqb_str name key); [|reflexivity].
    cbn [piece_text]. now rewrite app_nil_r.
  - rewrite (@render_one_pass tpl key _ (u "$$") (fun _ => u "$"))
      by (assumption || reflexivity).
    f_equal. clear Ht.
    induction tpl as [|p tpl IH]; [reflexivity|].
    cbn [map template_text flat_map].
    fold (template_text (map (subst_piece key (fun _ => u "$")) tpl)).
    rewrite IH. f_equal.
    destruct p as [s|name w1 w2]; cbn [subst_piece fill]; [reflexivity|].
    destruct (eqb_str name key); reflexivity.
Qed.

(** X3.  The keys are replaced one after the other, in the order of the
    context, each over the text the earlier ones left: a value that holds
    the placeholder of a later key is replaced in turn, while the same value
    under a later key stays as it is. *)
Theorem substituted_value_is_scanned_again
        a w1 w2 b v1 v2 x y (v : value) d :
  plain_name a -> all_space w1 -> all_space w2 -> a <> u "%if" ->
  plain_name b -> all_space v1 -> all_space v2 -> ~ In 36%N b ->
  a <> b -> brace_free x -> brace_free y ->
  display v = Ok d -> inert d ->
  let inner := piece_text (Hole b v1 v2) in
  let template := x ++ piece_text (Hole a w1 w2) ++ y in
  render template [(a, VStr inner); (b, v)] = Ok (x ++ d ++ y)
  /\ render template [(b, v); (a, VStr inner)] = Ok (x ++ inner ++ y).
Proof.
  intros Ha H1 H2 Hif Hb G1 G2 Hdb Hab Hx Hy Hv (Hvb & Hvd). cbv zeta.
  assert (Hi : display (VStr (piece_text (Hole b v1 v2)))
               = Ok (piece_text (Hole b v1 v2))) by reflexivity.
  set (tpl := [Text x; Hole a w1 w2; Text y]).
  set (tpl' := [Text x; Hole b v1 v2; Text y]).
  assert (Et : x ++ piece_text (Hole a w1 w2) ++ y = template_text tpl).
  { unfold tpl. cbn [template_text flat_map]. now rewrite app_nil_r. }
  assert (Hwf : Forall well_formed tpl).
  { unfold tpl. repeat constructor; assumption. }
  assert (Hwf' : Forall well_formed tpl').
  { unfold tpl'. repeat constructor; assumption. }
  assert (Hpl : plain_template tpl).
  { unfold tpl. repeat constructor; cbn; auto. }
  assert (Hinner : ~ In 36%N (piece_text (Hole b v1 v2))).
  { cbn [piece_text]. intros Hin.
    repeat (apply in_app_or in Hin; destruct Hin as [Hin|Hin]).
    - cbn in Hin. intuition discriminate.
    - pose proof (@all_space_In _ _ G1 Hin) as F. discriminate F.
    - exact (Hdb Hin).
    - pose proof (@all_space_In _ _ G2 Hin) as F. discriminate F.
    - cbn in Hin. intuition discriminate. }
  assert (Eab : eqb_str a b = false) by now apply eqb_str_neq.
  assert (Eba : eqb_str b a = false)
    by (apply eqb_str_neq; congruence).
  rewrite Et. unfold renderJinjaTemplate.
  destruct (template_text tpl) as [|c t] eqn:E.
  { exfalso. unfold tpl in E. cbn [template_text flat_map] in E.
    apply app_eq_nil in E. destruct E as (_ & E). discriminate E. }
  rewrite <- E.
  rewrite !processConditionalBlocks_no_span by (now apply template_no_span).
  cbn [bind interpolate]. split.
  - rewrite (@replaceKey_pieces a _ _ tpl Hi Ha Hwf Hinner).
    unfold tpl. cbn [map subst_piece]. rewrite eqb_str_refl.
    replace (template_text [Text x; Text (piece_text (Hole b v1 v2)); Text y])
      with (template_text tpl') by reflexivity.
    cbn [bind]. rewrite (@replaceKey_pieces b v d tpl' Hv Hb Hwf' Hvd).
    unfold tpl'. cbn [map subst_piece bind]. rewrite eqb_str_refl.
    cbn [template_text flat_map]. now rewrite app_nil_r.
  - rewrite (@replaceKey_pieces b v d tpl Hv Hb Hwf Hvd).
    unfold tpl. cbn [map subst_piece]. rewrite Eab. cbn [bind].
    fold tpl. rewrite (@replaceKey_pieces a _ _ tpl Hi Ha Hwf Hinner).
    unfold tpl. cbn [map subst_piece bind]. rewrite eqb_str_refl.
    cbn [template_text flat_map]. now rewrite app_nil_r.
Qed.

(** X17.  The text that replaces a placeholder is not read again as a
    template: with a single key, its formatted value stands in the output as
    it is, braces and directive text included, wherever a placeholder of the
    key was (the value is one that can be formatted, to a text [d] without
    dollar sign). *)
Theorem single_key_value_verbatim tpl key (v : value) d :
  display v = Ok d ->
  plain_template tpl -> plain_name key -> ~ In 36%N d ->
  render (template_text tpl) [(key, v)]
  = Ok (flat_map
          (fill (fun name => if eqb_str name key then Some d
                             else None)) tpl).
Proof.
  intros Hv Ht Hk Hd.
  rewrite (@render_one_pass tpl key v d (fun _ => d) Hv Ht Hk)
    by (intros; now apply getSubstitution_plain).
  f_equal. clear Ht.
  induction tpl as [|p tpl IH]; [reflexivity|].
  cbn [map template_text flat_map].
  fold (template_text (map (subst_piece key (fun _ => d)) tpl)).
  rewrite IH. f_equal.
  destruct p as [s|name w1 w2]; cbn [subst_piece fill]; [reflexivity|].
  destruct (eqb_str name key); reflexivity.
Qed.

End InterpolationFacts.

(** * Conditions *)

Lemma equalRegex_has_equals w : matches equalRegex w -> In 61%N w.
Proof.
  unfold equalRegex, ws, dot. cbn [seqs]. intros H. minv. subst.
  rewrite !in_app_iff. cbn. tauto.
Qed.

Lemma startsWithRegex_has_paren w : matches startsWithRegex w -> In 40%N w.
Proof.
  unfold startsWithRegex, dot. cbn [seqs]. intros H. minv. subst.
  rewrite !in_app_iff. cbn. tauto.
Qed.

Lemma equalRegex_none s : ~ In 61%N s -> exec equalRegex s = None.
Proof.
  intros H. unfold exec. apply no_occurrence_search. intros w M O.
  apply H. eapply occurs_In; [exact O|]. now apply equalRegex_has_equals.
Qed.

Lemma startsWithRegex_none s : ~ In 40%N s -> exec startsWithRegex s = None.
Proof.
  intros H. unfold exec. apply no_occurrence_search. intros w M O.
  apply H. eapply occurs_In; [exact O|]. now apply startsWithRegex_has_paren.
Qed.
Lemma receiver_name_In s c :
  receiver_name s -> In c s ->
  is_space c = false /\ N.eqb c 61 = false /\ N.eqb c 46 = false
  /\ is_line_terminator c = false.
Proof.
  intros (_ & H) Hin. apply (@forallb_In _ _ _ H) in Hin.
  apply negb_true_iff, orb_false_iff in Hin. destruct Hin as (H1 & H3).
  apply orb_false_iff in H1. destruct H1 as (H1 & H2).
  repeat split; try assumption.
  destruct (is_line_terminator c) eqn:E; [|reflexivity].
  apply line_terminator_space in E. congruence.
Qed.

Lemma receiver_name_trim s : receiver_name s -> trim s = s.
Proof.
  intros H. apply trim_no_space. intros c Hin.
  now destruct (@receiver_name_In s c H Hin) as (Hs & _).
Qed.

(** The method pattern on a method condition: the first group is the name,
    the second the prefix between the quotes. *)
Lemma startsWithRegex_match name q1 prefix q2 tail :
  receiver_name name -> is_quote q1 = true -> quoted_literal prefix ->
  is_quote q2 = true ->
  exists mt,
    exec startsWithRegex (startswith_condition name q1 prefix q2 ++ tail)
    = Some mt
    /\ cap 1 (m_caps mt) = name /\ cap 2 (m_caps mt) = prefix.
Proof.
  intros Hn Hq1 Hl Hq2.
  assert (Dn : forallb (fun c => negb (is_line_terminator c)) name = true).
  { apply forallb_forall. intros c Hin.
    destruct (@receiver_name_In name c Hn Hin) as (_ & _ & _ & ->).
    reflexivity. }
  pose proof (@forallb_dot_literal prefix Hl) as Dl.
  destruct name as [|c0 name']; [destruct Hn as (Hn & _); congruence|].
  destruct prefix as [|l0 lit']; [destruct Hl as (Hl & _); congruence|].
  cbn [forallb] in Dn, Dl.
  apply andb_true_iff in Dn, Dl. destruct Dn as (Dc0 & Dn), Dl as (Dl0 & Dl).
  set (s := startswith_condition (c0 :: name') q1 (l0 :: lit') q2 ++ tail).
  assert (Hm : exists z,
    m (length s) startsWithRegex (MState s []) (fun y => Some y) = Some z
    /\ rest z = tail
    /\ cap 1 (caps z) = c0 :: name' /\ cap 2 (caps z) = l0 :: lit').
  { eexists. split.
    - unfold s, startswith_condition, startsWithRegex, Plus, dot.
      cbn [seqs app]. repeat (rewrite <- app_assoc; cbn [app]).
      rewrite m_Seq, m_Group, m_Seq, m_Chr_ok by exact Dc0.
      apply m_star_lazy_run; [exact Dn| |].
      + intros a c b E. cbn [rest caps].
        rewrite m_Seq. apply m_lits_none.
        assert (Hin : In c (c0 :: name')) by (right; rewrite E; apply in_elt).
        destruct (@receiver_name_In _ c Hn Hin) as (_ & _ & Hd & _).
        change (u ".startswith(") with (46%N :: u "startswith(").
        cbn [startsWith]. now rewrite Hd.
      + cbn [rest caps].
        rewrite m_Seq, m_lits.
        rewrite m_Seq, m_Chr_ok by exact Hq1.
        rewrite m_Seq, m_Group, m_Seq.
        cbn [app]. rewrite m_Chr_ok by exact Dl0.
        apply m_star_lazy_run; [exact Dl| |].
        * intros a c b E. cbn [rest caps].
          rewrite m_Seq. cbn [m rest].
          assert (Hin : In c (l0 :: lit')) by (right; rewrite E; apply in_elt).
          destruct (@quoted_literal_In _ c Hl Hin) as (Hq & _). now rewrite Hq.
        * cbn [rest caps]. rewrite m_Seq, m_Chr_ok by exact Hq2.
          change (41%N :: tail) with (u ")" ++ tail).
          rewrite m_lits. reflexivity.
    - cbn [rest caps cap Nat.eqb].
      split; [reflexivity|]. split.
      + exact (firstn_app_exact (c0 :: name') _).
      + exact (firstn_app_exact (l0 :: lit') _). }
  destruct Hm as (z & Hz & Hr & Hc1 & Hc2).
  unfold exec. fold s.
  assert (Hs : match_at (length s) startsWithRegex s
               = Some (RMatch [] (firstn (length s - length (rest z)) s)
                              (rest z) (caps z))).
  { unfold match_at. now rewrite Hz. }
  eexists. split.
  - apply search_match_at. exact Hs.
  - cbn [m_caps]. auto.
Qed.
Lemma equalRegex_has_quote w :
  matches equalRegex w -> exists c, In c w /\ is_quote c = true.
Proof.
  unfold equalRegex, ws, dot. cbn [seqs]. intros H. minv. subst.
  match goal with
  | M : matches (Chr is_quote) ?x |- _ =>
      apply matches_Chr_inv in M; destruct M as (q & -> & Hq)
  end.
  exists q. split; [|exact Hq].
  rewrite !in_app_iff. cbn. tauto.
Qed.

Lemma startsWithRegex_has_quote w :
  matches startsWithRegex w -> exists c, In c w /\ is_quote c = true.
Proof.
  unfold startsWithRegex, dot. cbn [seqs]. intros H. minv. subst.
  match goal with
  | M : matches (Chr is_quote) ?x |- _ =>
      apply matches_Chr_inv in M; destruct M as (q & -> & Hq)
  end.
  exists q. split; [|exact Hq].
  rewrite !in_app_iff. cbn. tauto.
Qed.

Lemma unquoted_no_match r s :
  (forall w, matches r w -> exists c, In c w /\ is_quote c = true) ->
  unquoted s -> exec r s = None.
Proof.
  intros Hr Hs. unfold exec. apply no_occurrence_search. intros w M O.
  destruct (Hr w M) as (c & Hin & Hq).
  pose proof (occurs_In c O Hin) as Hc.
  apply (@forallb_In _ _ _ Hs) in Hc. rewrite Hq in Hc. discriminate Hc.
Qed.

Section ConditionFacts.

Variable num : Type.
Variable num_toString : num -> str.
Variable num_truthy : num -> bool.
Variable obj : Type.
Variable obj_toString : obj -> str.
Variable fn : Type.
Variable fn_toString : fn -> str.
Variable fn_call : fn -> context num obj fn -> str -> result bool.
Variable proto : str -> option (value num obj fn).

#[local] Abbreviation value := (value num obj fn).
#[local] Abbreviation context := (context num obj fn).
#[local] Abbreviation evalCond :=
  (evaluateCondition num_toString num_truthy obj_toString fn_toString fn_call
     proto).
#[local] Abbreviation text := (toStr num_toString obj_toString fn_toString).
#[local] Abbreviation truth := (truthy num_truthy).

Lemma startswith_condition_no_equals name q1 prefix q2 :
  receiver_name name -> is_quote q1 = true -> is_quote q2 = true ->
  ~ In 61%N prefix -> ~ In 61%N (startswith_condition name q1 prefix q2).
Proof.
  intros Hn Hq1 Hq2 Hp Hin. unfold startswith_condition in Hin.
  apply in_app_or in Hin. destruct Hin as [Hin|Hin].
  { destruct (@receiver_name_In _ _ Hn Hin) as (_ & F & _). discriminate F. }
  apply in_app_or in Hin. destruct Hin as [Hin|Hin].
  { cbn in Hin. intuition discriminate. }
  destruct Hin as [E|Hin]; [subst q1; discriminate Hq1|].
  apply in_app_or in Hin. destruct Hin as [Hin|Hin]; [exact (Hp Hin)|].
  destruct Hin as [E|Hin]; [subst q2; discriminate Hq2|].
  cbn in Hin. intuition discriminate.
Qed.

Lemma evaluateCondition_startswith name q1 prefix q2 (variables : context) :
  receiver_name name -> is_quote q1 = true -> quoted_literal prefix ->
  ~ In 61%N prefix -> is_quote q2 = true ->
  evalCond (startswith_condition name q1 prefix q2) variables
  = startsWith (text (js_or num_truthy (get proto variables name) (VStr [])))
               prefix.
Proof.
  intros Hn Hq1 Hl Hp Hq2.
  destruct (@startsWithRegex_match name q1 prefix q2 [] Hn Hq1 Hl Hq2)
    as (mt & He & Hc1 & Hc2).
  rewrite app_nil_r in He.
  unfold evaluateCondition, evaluateCondition_try.
  rewrite equalRegex_none
    by (now apply startswith_condition_no_equals).
  rewrite He, Hc1, Hc2, (receiver_name_trim Hn). reflexivity.
Qed.

(** X4.  A condition [name.startswith('prefix')] (either quote character on
    either side) on a name bound to a truthy value is true exactly when the
    string form of the value begins with the prefix. *)
Theorem startswith_condition_bound name q1 prefix q2 (variables : context) v :
  receiver_name name -> is_quote q1 = true -> quoted_literal prefix ->
  ~ In 61%N prefix -> is_quote q2 = true ->
  own variables name = Some v -> truth v = true ->
  evalCond (startswith_condition name q1 prefix q2) variables
  = startsWith (text v) prefix.
Proof.
  intros Hn Hq1 Hl Hp Hq2 Ho Ht.
  rewrite evaluateCondition_startswith by assumption.
  unfold get, js_or. rewrite Ho, Ht. reflexivity.
Qed.


Lemma evaluateCondition_bare c (variables : context) :
  bare_condition c ->
  evalCond c variables
  = match call_hasOwnProperty fn_call variables (trim c) with
    | Ok true => truth (get proto variables (trim c))
    | _ => false
    end.
Proof.
  intros (He & Hp). unfold evaluateCondition, evaluateCondition_try.
  rewrite equalRegex_none, startsWithRegex_none by assumption.
  destruct (call_hasOwnProperty fn_call variables (trim c)) as [[|]|e];
    reflexivity.
Qed.

(** X6.  A condition without an equals sign and without a parenthesis is a
    name: on a context that has no key hasOwnProperty of its own, it is true
    exactly when the name, stripped of the white space around it, is a key of
    the context bound to a truthy value.  A name that the context only
    inherits counts as absent. *)
Theorem bare_condition_own_truthy c (variables : context) :
  bare_condition c ->
  own variables (u "hasOwnProperty") = None ->
  evalCond c variables
  = match own variables (trim c) with
    | Some v => truth v
    | None => false
    end.
Proof.
  intros Hc Hh. rewrite evaluateCondition_bare by exact Hc.
  unfold call_hasOwnProperty, hasOwn, get. rewrite Hh.
  destruct (own variables (trim c)); reflexivity.
Qed.

(** X7.  A context with a key hasOwnProperty of its own that is not bound to
    a function makes every bare condition false, also for a key bound to a
    truthy value: the call of the key's value throws, and the evaluator
    answers false. *)
Theorem shadowed_hasOwnProperty c (variables : context) v :
  bare_condition c ->
  own variables (u "hasOwnProperty") = Some v ->
  (forall f, v <> VFun f) ->
  evalCond c variables = false.
Proof.
  intros Hc Hh Hv. rewrite evaluateCondition_bare by exact Hc.
  unfold call_hasOwnProperty. rewrite Hh.
  destruct v; try reflexivity. exfalso. now apply (Hv f).
Qed.

(** X18.  A comparison needs its quotes.  A condition that has no quote
    character is neither an equality nor a method call, whatever operators it
    shows: it is read as a name, so that [row_count == 0] is true only on a
    context that has a key spelled that way, bound to a truthy value (the
    context has no key hasOwnProperty of its own). *)
Theorem unquoted_condition_is_a_name c (variables : context) :
  unquoted c ->
  own variables (u "hasOwnProperty") = None ->
  evalCond c variables
  = match own variables (trim c) with
    | Some v => truth v
    | None => false
    end.
Proof.
  intros Hc Hh. unfold evaluateCondition, evaluateCondition_try.
  rewrite (unquoted_no_match equalRegex_has_quote Hc).
  rewrite (unquoted_no_match startsWithRegex_has_quote Hc).
  unfold call_hasOwnProperty, hasOwn, get. rewrite Hh. cbn [bind].
  destruct (own variables (trim c)); reflexivity.
Qed.

End ConditionFacts.

(** * The wrapper pattern matches wrapped names only *)

Lemma search_anchored n r' : forall s,
  length s < n -> search n (Seq Bol r') s = None.
Proof.
  assert (Hat : forall s, length s < n -> match_at n (Seq Bol r') s = None).
  { intros s L. unfold match_at. rewrite m_Seq. cbn [m rest].
    destruct (Nat.eqb_spec (length s) n) as [E|_]; [lia|reflexivity]. }
  induction s as [|c s IH]; intros L; cbn [search].
  - now rewrite Hat.
  - rewrite Hat by exact L. cbn [length] in L. rewrite IH by lia. reflexivity.
Qed.

Lemma exec_anchored r' s mt :
  exec (Seq Bol r') s = Some mt ->
  match_at (length s) (Seq Bol r') s = Some mt.
Proof.
  unfold exec. destruct s as [|c s]; cbn [search].
  - now destruct (match_at (length []) (Seq Bol r') []).
  - destruct (match_at (length (c :: s)) (Seq Bol r') (c :: s)) as [mt'|];
      [auto|].
    rewrite search_anchored by (cbn [length]; lia). discriminate.
Qed.

Lemma matches_lits_i_inv p : forall w,
  matches (lits_i p) w -> map upper_ascii w = map upper_ascii p.
Proof.
  induction p as [|c p IH]; intros w H; cbn [lits_i] in H.
  - apply matches_Eps_inv in H. now subst.
  - apply matches_Seq_inv in H. destruct H as (w1 & w2 & E & H1 & H2).
    apply matches_Chr_inv in H1. destruct H1 as (c' & E1 & Hc).
    apply N.eqb_eq in Hc. apply IH in H2. subst. cbn [app map]. congruence.
Qed.

Lemma matches_Alt_inv a b w :
  matches (Alt a b) w -> matches a w \/ matches b w.
Proof. inversion 1; subst; auto. Qed.

Lemma matches_function_name w :
  matches (Alt (lits_i (u "SUM")) (Alt (lits_i (u "COUNT"))
          (Alt (lits_i (u "AVG")) (Alt (lits_i (u "MAX"))
                                       (lits_i (u "MIN")))))) w ->
  In (map upper_ascii w) function_names.
Proof.
  intros H. unfold function_names.
  repeat (apply matches_Alt_inv in H; destruct H as [H|H]);
    apply matches_lits_i_inv in H; rewrite H; cbn; tauto.
Qed.

Lemma functionRegex_exec_inv name mt :
  exec functionRegex name = Some mt -> wrapped_name name.
Proof.
  unfold functionRegex. cbn [seqs]. intros H.
  apply exec_anchored in H. unfold match_at in H.
  destruct (m (length name) _ (MState name []) (fun y => Some y))
    as [z|] eqn:E; [clear H|discriminate H].
  rewrite m_Seq in E. apply m_sound in E.
  destruct E as (w1 & y1 & E1 & M1 & E).
  rewrite m_Seq in E. apply m_sound in E.
  destruct E as (w2 & y2 & E2 & M2 & E).
  rewrite m_Seq in E. apply m_sound in E.
  destruct E as (w3 & y3 & E3 & M3 & E).
  rewrite m_Seq in E. apply m_sound in E.
  destruct E as (w4 & y4 & E4 & M4 & E).
  rewrite m_Seq in E. apply m_sound in E.
  destruct E as (w5 & y5 & E5 & M5 & E).
  cbn [m] in E. destruct (rest y5) as [|c t] eqn:E6; [|discriminate E].
  inversion M1; subst w1.
  apply matches_Group_inv, matches_function_name in M2.
  unfold lit in M3, M5.
  apply matches_Chr_inv in M3. destruct M3 as (c3 & -> & Hc3).
  apply matches_Chr_inv in M5. destruct M5 as (c5 & -> & Hc5).
  apply N.eqb_eq in Hc3, Hc5. subst c3 c5.
  apply matches_Group_inv in M4. unfold dot in M4.
  apply matches_Star_Chr in M4.
  exists w2, w4. split; [exact M2|]. split; [exact M4|].
  cbn [rest] in E1. rewrite E1, E2, E3, E4, E5. cbn [app].
  reflexivity.
Qed.

Lemma functionRegex_not_wrapped name :
  ~ wrapped_name name -> exec functionRegex name = None.
Proof.
  intros H. destruct (exec functionRegex name) as [mt|] eqn:E; [|reflexivity].
  exfalso. apply H. exact (@functionRegex_exec_inv name mt E).
Qed.

Lemma wrapped_name_exec name :
  wrapped_name name -> exists mt, exec functionRegex name = Some mt.
Proof.
  intros (f & field & Hin & Hf & ->).
  destruct (@functionRegex_match f _ field Hin eq_refl Hf) as (mt & E & _).
  now exists mt.
Qed.

Section TransformFacts.

Variable num : Type.
Variable num_toString : num -> str.
Variable num_truthy : num -> bool.
Variable obj : Type.
Variable obj_toString : obj -> str.
Variable fn : Type.
Variable fn_toString : fn -> str.
Variable proto : str -> option (value num obj fn).

#[local] Abbreviation transformName :=
  (transformColumnName num_toString num_truthy obj_toString fn_toString proto).

(** X8.  Only an identifier that is as a whole a function name and a field
    in parentheses is taken apart.  Any other identifier (an unknown
    function, text after the closing parenthesis, a line break in the field)
    is looked up as it is: it maps to its label in the table, and to itself
    when the table has none.  The name is not one that every object
    inherits. *)
Theorem transformColumnName_not_wrapped name :
  ~ wrapped_name name -> proto name = None ->
  transformName name = VStr (translation num obj fn name).
Proof.
  intros Hw Hp. unfold transformColumnName.
  rewrite functionRegex_not_wrapped by exact Hw.
  now apply lookup_translation.
Qed.

End TransformFacts.

(** * Trimming *)

Lemma trimStart_stops s : stops_at is_space (trimStart s).
Proof.
  induction s as [|c s IH]; [exact I|]. cbn [trimStart].
  destruct (is_space c) eqn:E; [exact IH|exact E].
Qed.

Lemma trimStart_snoc l c :
  is_space c = false -> trimStart (l ++ [c]) = trimStart l ++ [c].
Proof.
  intros Hc. induction l as [|x l IH]; cbn [app trimStart].
  - now rewrite Hc.
  - destruct (is_space x); [exact IH|reflexivity].
Qed.

Lemma trim_trimmed s : trimmed (trim s).
Proof.
  unfold trimmed, trim, trimEnd. split.
  - pose proof (trimStart_stops s) as Hs.
    destruct (trimStart s) as [|c t]; [exact I|]. cbn [stops_at] in Hs.
    cbn [rev]. rewrite trimStart_snoc by exact Hs.
    rewrite rev_app_distr. exact Hs.
  - rewrite rev_involutive. apply trimStart_stops.
Qed.

Lemma trim_all_space s : all_space s -> trim s = [].
Proof.
  intros H. unfold trim.
  assert (E : trimStart s = []).
  { induction s as [|c s IH]; [reflexivity|]. cbn [trimStart].
    unfold all_space in H. cbn [forallb] in H.
    apply andb_true_iff in H. destruct H as (Hc & Hs).
    rewrite Hc. now apply IH. }
  now rewrite E.
Qed.

Section EntryFacts.

Variable num : Type.
Variable num_toString : num -> str.
Variable num_toLocaleString : num -> str.
Variable num_truthy : num -> bool.
Variable obj : Type.
Variable obj_toString : obj -> str.
Variable JSON_stringify : obj -> result str.
Variable fn : Type.
Variable fn_toString : fn -> str.
Variable fn_call : fn -> context num obj fn -> str -> result bool.
Variable proto : str -> option (value num obj fn).

#[local] Abbreviation context := (context num obj fn).
#[local] Abbreviation render :=
  (renderJinjaTemplate num_toString num_toLocaleString num_truthy obj_toString
     JSON_stringify fn_toString fn_call proto).
#[local] Abbreviation columnName :=
  (JinjaRenderer.generateDynamicColumnName num_toString num_toLocaleString
     num_truthy obj_toString JSON_stringify fn_toString fn_call proto).
#[local] Abbreviation serial :=
  (serialisable num_toString num_toLocaleString obj_toString JSON_stringify
     fn_toString).

(** X9.  generateDynamicColumnName returns a column name for every template
    when the field values can all be formatted: the render of the template
    without the white space at its two ends.  Every name it returns has no
    white space at either end.  When a field value cannot be formatted, the
    call throws for every template that is not empty: the function has no
    guard of its own around the render. *)
Theorem generateDynamicColumnName_trimmed template (values : context)
        (filterValues : option context) :
  (serial values ->
     exists out,
       render template values = Ok out
       /\ columnName template values filterValues = Ok (trim out))
  /\ (forall name,
        columnName template values filterValues = Ok name -> trimmed name)
  /\ (~ serial values -> template <> [] ->
      exists e, columnName template values filterValues = Throw e).
Proof.
  unfold JinjaRenderer.generateDynamicColumnName.
  split; [|split].
  - intros Hv.
    destruct (@render_ok num num_toString num_toLocaleString
                num_truthy obj obj_toString JSON_stringify fn fn_toString
                fn_call proto template values Hv) as (out & Hout).
    exists out. split; [exact Hout|].
    destruct template as [|c t].
    + unfold renderJinjaTemplate in Hout. inversion Hout. reflexivity.
    + rewrite Hout. reflexivity.
  - intros name. destruct template as [|c t].
    + intros E. inversion E. split; exact I.
    + destruct (render (c :: t) values) as [out|e]; cbn [bind]; intros E;
        [|discriminate E].
      inversion E. apply trim_trimmed.
  - intros Hn Ht.
    destruct (@render_throws num num_toString num_toLocaleString
                num_truthy obj obj_toString JSON_stringify fn fn_toString
                fn_call proto template values Hn Ht) as (e & He).
    destruct template as [|c t]; [congruence|].
    rewrite He. cbn [bind]. eauto.
Qed.

Lemma render_no_brace template (values : context) :
  serial values ->
  ~ In 123%N template -> render template values = Ok template.
Proof.
  intros Hv H. unfold renderJinjaTemplate.
  destruct template as [|c t]; [reflexivity|].
  rewrite processConditionalBlocks_no_span.
  - cbn [bind]. apply interpolate_no_placeholder; [exact Hv|].
    intros key v p _ Hp Ho. apply H.
    exact (occurs_In 123%N Ho (placeholder_has_brace Hp)).
  - intros sp Hs Ho. apply H.
    exact (occurs_In 123%N Ho (if_span_has_brace Hs)).
Qed.

(** X10.  A template without an opening brace has nothing to replace: for
    field values that can all be formatted, the column name is the template
    with the white space at its two ends removed, and a template of white
    space alone gives the empty name. *)
Theorem generateDynamicColumnName_plain (values : context)
        (filterValues : option context) :
  serial values ->
  (forall template, ~ In 123%N template ->
     columnName template values filterValues = Ok (trim template))
  /\ (forall template, all_space template ->
        columnName template values filterValues = Ok []).
Proof.
  intros Hv.
  assert (Hplain : forall template, ~ In 123%N template ->
            columnName template values filterValues = Ok (trim template)).
  { intros template H. unfold JinjaRenderer.generateDynamicColumnName.
    destruct template as [|c t] eqn:E; [reflexivity|].
    rewrite render_no_brace by assumption. reflexivity. }
  split; [exact Hplain|].
  intros template Hs. rewrite Hplain.
  - now rewrite trim_all_space.
  - intros Hin. pose proof (@all_space_In _ _ Hs Hin) as F. discriminate F.
Qed.

End EntryFacts.

(** * escapeHtml *)

Lemma escapeCodeUnit_cases c :
  (c = 38%N /\ escapeCodeUnit c = u "&amp;")
  \/ (c = 160%N /\ escapeCodeUnit c = u "&nbsp;")
  \/ (c = 60%N /\ escapeCodeUnit c = u "&lt;")
  \/ (c = 62%N /\ escapeCodeUnit c = u "&gt;")
  \/ (c <> 38%N /\ c <> 160%N /\ c <> 60%N /\ c <> 62%N
      /\ escapeCodeUnit c = [c]).
Proof.
  unfold escapeCodeUnit.
  destruct (N.eqb_spec c 38) as [->|H1]; [tauto|].
  destruct (N.eqb_spec c 160) as [->|H2]; [tauto|].
  destruct (N.eqb_spec c 60) as [->|H3]; [tauto|].
  destruct (N.eqb_spec c 62) as [->|H4]; [tauto|].
  do 4 right. tauto.
Qed.

(** X11.  The escaped text has no angle bracket: nothing in it opens or
    closes a tag. *)
Theorem escapeHtml_no_angle_bracket text :
  ~ In 60%N (escapeHtml text) /\ ~ In 62%N (escapeHtml text).
Proof.
  unfold escapeHtml. induction text as [|c text (IH1 & IH2)].
  - split; intros [].
  - cbn [flat_map].
    split; intros Hin; apply in_app_or in Hin;
      (destruct Hin as [Hin|Hin]; [|tauto]);
      destruct (escapeCodeUnit_cases c)
        as [(_ & E)|[(_ & E)|[(_ & E)|[(_ & E)|(_ & _ & H3 & H4 & E)]]]];
      rewrite E in Hin; cbn in Hin; intuition (try discriminate; congruence).
Qed.

Lemma escapeCodeUnit_split c1 c2 (r1 r2 : str) :
  escapeCodeUnit c1 ++ r1 = escapeCodeUnit c2 ++ r2 -> c1 = c2 /\ r1 = r2.
Proof.
  destruct (escapeCodeUnit_cases c1)
    as [(-> & E1)|[(-> & E1)|[(-> & E1)|[(-> & E1)|(A1 & A2 & A3 & A4 & E1)]]]];
  destruct (escapeCodeUnit_cases c2)
    as [(-> & E2)|[(-> & E2)|[(-> & E2)|[(-> & E2)|(B1 & B2 & B3 & B4 & E2)]]]];
  rewrite ?E1, ?E2; cbn [app u]; intros E;
    try (inversion E; subst; auto; congruence).
Qed.

(** X12.  Escaping loses nothing: two texts with the same escaped form are
    the same text. *)
Theorem escapeHtml_injective a : forall b,
  escapeHtml a = escapeHtml b -> a = b.
Proof.
  unfold escapeHtml. induction a as [|c a IH]; intros [|d b] E;
    cbn [flat_map] in E.
  - reflexivity.
  - exfalso.
    destruct (escapeCodeUnit_cases d)
      as [(_ & H)|[(_ & H)|[(_ & H)|[(_ & H)|(_ & _ & _ & _ & H)]]]];
      rewrite H in E; discriminate E.
  - exfalso.
    destruct (escapeCodeUnit_cases c)
      as [(_ & H)|[(_ & H)|[(_ & H)|[(_ & H)|(_ & _ & _ & _ & H)]]]];
      rewrite H in E; discriminate E.
  - apply escapeCodeUnit_split in E. destruct E as (-> & E).
    f_equal. now apply IH.
Qed.

(** * More on the context builder *)

Section BuilderEdgeFacts.

Variable num : Type.
Variable num_toString : num -> str.
Variable num_toLocaleString : num -> str.
Variable num_truthy : num -> bool.
Variable obj : Type.
Variable obj_toString : obj -> str.
Variable JSON_stringify : obj -> result str.
Variable fn : Type.
Variable fn_toString : fn -> str.
Variable proto : str -> option (value num obj fn).
Variable num_of_nat : nat -> num.
Variable num_zero : num.
Variable num_add : num -> num -> num.
Variable num_div : num -> num -> num.
Variable Math_min : list num -> num.
Variable Math_max : list num -> num.
Variable obj_of_record : context num obj fn -> obj.
Variable obj_of_array : list (value num obj fn) -> obj.

#[local] Abbreviation value := (value num obj fn).
#[local] Abbreviation context := (context num obj fn).
#[local] Abbreviation column := (column num obj fn).
#[local] Abbreviation build :=
  (buildVariables num_truthy proto num_of_nat num_zero num_add num_div
     Math_min Math_max obj_of_record obj_of_array).
#[local] Abbreviation generate :=
  (generateDynamicColumnName num_toString num_toLocaleString num_truthy
     obj_toString JSON_stringify fn_toString proto num_of_nat num_zero
     num_add num_div Math_min Math_max obj_of_record obj_of_array).
#[local] Abbreviation serial :=
  (serialisable num_toString num_toLocaleString obj_toString JSON_stringify
     fn_toString).

(** X13.  When the statistics are computed, the count is the number of
    numeric entries of the column (the cells of the column that hold a
    number): it is at least one and at most the number of rows, which is
    what row_count holds. *)
Theorem count_within_row_count (c : column) (data : list context)
        (useMetricInColumnNames : bool) (metrics : option (list value)) :
  hasStatistics num_truthy proto c data = true ->
  let ctx := build c data useMetricInColumnNames metrics in
  let n := length (numericEntries proto c data) in
  own ctx (u "count") = Some (VNum (num_of_nat n))
  /\ own ctx (u "row_count") = Some (VNum (num_of_nat (length data)))
  /\ 0 < n <= length data.
Proof.
  intros H. cbv zeta.
  split; [|split].
  - unfold buildVariables. rewrite columnMetrics_spec, H.
    rewrite !own_app. reflexivity.
  - reflexivity.
  - unfold hasStatistics in H. apply andb_true_iff in H.
    destruct H as (_ & H). apply negb_true_iff, Nat.eqb_neq in H.
    split; [lia|].
    unfold numericEntries.
    pose proof (numbers_length (map (fun row => get proto row (col_key c)) data))
      as L.
    now rewrite length_map in L.
Qed.

(** X14.  With no rows at all the context has row_count zero and neither
    statistics nor first_value nor last_value (the column's key is not a name
    that every object inherits), so a placeholder for one of them stays as it
    is written: that is the only name the call can return, and it returns it
    when the values of the context can be formatted. *)
Theorem no_rows_no_values (c : column) (useMetricInColumnNames : bool)
        (metrics : option (list value)) :
  proto (col_key c) = None ->
  let ctx := build c [] useMetricInColumnNames metrics in
  let template := u "{{first_value}} - {{last_value}}" in
  own ctx (u "row_count") = Some (VNum (num_of_nat 0))
  /\ own ctx (u "sum") = None /\ own ctx (u "count") = None
  /\ own ctx (u "first_value") = None /\ own ctx (u "last_value") = None
  /\ (forall out,
        generate c [] template useMetricInColumnNames metrics = Ok out ->
        out = template)
  /\ (serial ctx ->
      generate c [] template useMetricInColumnNames metrics = Ok template).
Proof.
  intros Hp. cbv zeta.
  assert (Hg : serial (build c [] useMetricInColumnNames metrics) ->
    generate c [] (u "{{first_value}} - {{last_value}}")
      useMetricInColumnNames metrics
    = Ok (u "{{first_value}} - {{last_value}}")).
  { intros Hs. unfold generateDynamicColumnName.
    destruct (u "{{first_value}} - {{last_value}}") as [|c0 t0] eqn:E;
      [discriminate E|].
    rewrite <- E. apply interpolate_fixed; [exact Hs|].
    unfold buildVariables, columnMetrics, columnData.
    cbn [map filter length hd last].
    rewrite andb_false_r.
    unfold get. cbn [own]. rewrite Hp. cbn [is_undefined].
    intros key v d Hin.
    destruct useMetricInColumnNames, metrics as [ms|];
      cbn [app In] in Hin;
      repeat (destruct Hin as [Hin|Hin];
              [injection Hin as <- _; reflexivity|]);
      destruct Hin. }
  unfold buildVariables at 1 2 3 4 5, columnMetrics, columnData.
  cbn [map filter length hd last].
  rewrite andb_false_r.
  unfold get. cbn [own]. rewrite Hp. cbn [is_undefined].
  repeat (split; [destruct useMetricInColumnNames, metrics as [ms|];
                  reflexivity|]).
  split; [|exact Hg].
  intros out Ho. rewrite Hg in Ho; [congruence|].
  unfold generateDynamicColumnName in Ho.
  destruct (u "{{first_value}} - {{last_value}}") as [|c0 t0] eqn:E;
    [discriminate E|].
  exact (interpolate_ok_serialisable _ _ _ _ _ _ _ Ho).
Qed.

End BuilderEdgeFacts.

(** * Templates with several conditional spans *)

Lemma replace_loop_skip_caps n r (f : rmatch -> str -> str -> result str)
      (g : str -> list (nat * str) -> result str) (s T : str) :
  (forall mt b a, f mt b a = g (m_text mt) (m_caps mt)) ->
  (forall w1 c w2, s = w1 ++ c :: w2 -> match_at n r (c :: w2 ++ T) = None) ->
  forall fuel done,
    replace_loop fuel n r f done (s ++ T)
    = (tl <- replace_loop fuel n r f (done ++ s) T ;; Ok (s ++ tl)).
Proof.
  intros Hf Hs [|fuel] done; [reflexivity|].
  cbn [replace_loop]. rewrite (@search_skip n r T s Hs).
  destruct (search n r T) as [[b t a cs]|]; cbn [prepend bind];
    [|reflexivity].
  rewrite !Hf. cbn [m_before m_text m_after m_caps].
  destruct (g t cs) as [rep|e]; cbn [bind]; [|reflexivity].
  replace (done ++ s ++ b) with ((done ++ s) ++ b) by (now rewrite app_assoc).
  destruct t as [|c0 t].
  - destruct a as [|c1 a]; [now rewrite <- app_assoc|].
    destruct (replace_loop fuel n r f (((done ++ s) ++ b) ++ [c1]) a);
      cbn [bind]; [now rewrite <- app_assoc|reflexivity].
  - destruct (replace_loop fuel n r f (((done ++ s) ++ b) ++ c0 :: t) a);
      cbn [bind]; [now rewrite <- app_assoc|reflexivity].
Qed.

Lemma fullBlockPattern_fails_in_body n b (T : str) :
  clean_body b -> opens_or_ends T ->
  forall w1 c w2, b = w1 ++ c :: w2 ->
    match_at n fullBlockPattern (c :: w2 ++ T) = None.
Proof.
  intros Hb HT w1 c w2 E. apply match_at_none.
  unfold fullBlockPattern. cbn [seqs]. apply m_open_none.
  eapply body_no_open; eauto.
Qed.

Lemma span_text_unfold c1 b1 elifs els (t : str) :
  span_text c1 b1 elifs els ++ t
  = if_directive c1 ++ (b1 ++ branches_text elifs els)
      ++ endif_directive ++ t.
Proof. unfold span_text. now rewrite <- !app_assoc. Qed.

Lemma if_directive_length c : 0 < length (if_directive c).
Proof. unfold if_directive. rewrite length_app. cbn. lia. Qed.










Section SpanFacts.

Variable num : Type.
Variable num_toString : num -> str.
Variable num_truthy : num -> bool.
Variable obj : Type.
Variable obj_toString : obj -> str.
Variable fn : Type.
Variable fn_toString : fn -> str.
Variable fn_call : fn -> context num obj fn -> str -> result bool.
Variable proto : str -> option (value num obj fn).

#[local] Abbreviation context := (context num obj fn).
#[local] Abbreviation evalCond :=
  (evaluateCondition num_toString num_truthy obj_toString fn_toString fn_call
     proto).
#[local] Abbreviation blockRepl :=
  (blockReplacer num_toString num_truthy obj_toString fn_toString fn_call
     proto).
#[local] Abbreviation processBlocks :=
  (processConditionalBlocks num_toString num_truthy obj_toString fn_toString
     fn_call proto).
#[local] Abbreviation resolved :=
  (resolved_span num_toString num_truthy obj_toString fn_toString fn_call
     proto).

Lemma replace_loop_spans n (variables : context) :
  forall l, Forall clean_cspan l ->
  forall pre fuel done,
    clean_body pre ->
    length (pre ++ flat_map cspan_text l) < fuel ->
    replace_loop fuel n fullBlockPattern
      (fun mt _ _ =>
         blockRepl variables (cap 1 (m_caps mt)) (cap 2 (m_caps mt)))
      done (pre ++ flat_map cspan_text l)
    = Ok (pre ++ flat_map (resolved variables) l).
Proof.
  induction 1 as [|s l Hs Hl IH]; intros pre fuel done Hpre Hlen.
  - cbn [flat_map] in *. apply replace_loop_none; [lia|].
    apply no_occurrence_search. intros w M (a & b & E).
    apply fullBlockPattern_span in M.
    destruct M as (tag & body & close & (w1 & w2 & c & w3 & _ & _ & _ & _
                                          & _ & _ & ->) & _ & ->).
    apply Hpre. exists a.
    eexists. rewrite app_nil_r in E. rewrite E.
    repeat (rewrite <- app_assoc; cbn [app]). reflexivity.
  - destruct s as [c1 b1 elifs els post].
    destruct Hs as (Hc1 & Hb1 & Helifs & Hels & Hpost).
    cbn [sp_cond sp_body sp_elifs sp_else sp_after] in *.
    pose proof (if_directive_length c1) as Hpos.
    assert (Hfuel : S (length (post ++ flat_map cspan_text l)) < fuel).
    { cbn [flat_map] in Hlen. unfold cspan_text at 1, span_text in Hlen.
      cbn [sp_cond sp_body sp_elifs sp_else sp_after] in Hlen.
      rewrite !length_app in Hlen. rewrite length_app. lia. }
    clear Hlen.
    cbn [flat_map]. unfold cspan_text at 1, resolved_span at 1.
    cbn [sp_cond sp_body sp_elifs sp_else sp_after].
    rewrite <- !app_assoc.
    rewrite (@replace_loop_skip_caps n fullBlockPattern _
               (fun _ cs => blockRepl variables (cap 1 cs) (cap 2 cs)) pre);
      [|reflexivity|].
    2:{ apply fullBlockPattern_fails_in_body; [exact Hpre|].
        unfold span_text, if_directive. reflexivity. }
    rewrite span_text_unfold.
    destruct fuel as [|fuel]; [lia|].
    cbn [replace_loop].
    erewrite search_match_at;
      [|apply fullBlockPattern_match;
        [exact Hc1|now apply content_endif_fails]].
    cbn [m_before m_text m_after m_caps cap Nat.eqb].
    rewrite blockReplacer_span by assumption.
    cbn [bind].
    change (if_directive c1) with (123%N :: (u "% if " ++ c1 ++ u " %}")) at 1.
    cbn [app].
    rewrite IH; [| exact Hpost |lia].
    cbn [bind]. reflexivity.
Qed.

(** X15.  Every conditional span of a template is resolved, each on its own
    and from left to right: for spans in canonical form with text free of
    directives before, between and after them, the output is that text with
    each span replaced by its selected body. *)
Theorem every_span_resolved (variables : context) pre l :
  clean_body pre -> Forall clean_cspan l ->
  processBlocks (pre ++ flat_map cspan_text l) variables
  = Ok (pre ++ flat_map (resolved variables) l).
Proof.
  intros Hpre Hl. unfold processConditionalBlocks, replace_all.
  apply replace_loop_spans; [exact Hl|exact Hpre|lia].
Qed.



End SpanFacts.

(** * Examples on the instance *)

Module Examples.
Import Instance.

Lemma big_row_not_serialisable key (variables : Instance.context) :
  In (key, big_row) variables ->
  ~ serialisable num_toString num_toLocaleString obj_toString JSON_stringify
      fn_toString variables.
Proof.
  intros Hin H. destruct (H key big_row Hin) as (d & Hd). discriminate Hd.
Qed.





Lemma unknown_placeholder_kept_witness :
  exists x' y',
    Instance.renderJinjaTemplate (u "{{column_name}}: {{unknown_var}}")
      [(u "column_name", VStr (u "Sales"))]
    = Ok (x' ++ placeholder (u "unknown_var") ++ y').
Proof.
  apply (proj1 (unknown_placeholder_kept num_toString num_toLocaleString
                  num_truthy obj_toString JSON_stringify fn_toString fn_call
                  proto))
    with (x := u "{{column_name}}: ") (y := []).
  - reflexivity.
  - intros key v [E|[]]. inversion E; subst. reflexivity.
  - reflexivity.
  - reflexivity.
  - apply serialisable_forallb; reflexivity.
Defined.

(** A placeholder inside a branch that is not selected goes away with the
    branch, whether or not its name is a key. *)
Lemma unknown_placeholder_dropped :
  ~ (forall template (variables : Instance.context) name,
       own variables name = None ->
       occurs (placeholder name) template ->
       exists out,
         Instance.renderJinjaTemplate template variables = Ok out
         /\ occurs (placeholder name) out).
Proof.
  intros H.
  destruct (H (u "{% if a %}{{u}}{% endif %}") [] (u "u") eq_refl) as (out & E & Ho).
  - exists (u "{% if a %}"), (u "{% endif %}"). reflexivity.
  - vm_compute in E. inversion E; subst.
    destruct Ho as (a & b & Ho). destruct a; discriminate Ho.
Qed.



(** Both keys present, in either enumeration order. *)
Example prefix_keys_short_first :
  Instance.renderJinjaTemplate (u "{{sum}} / {{sum_total}}")
    [(u "sum", VNum 1%Z); (u "sum_total", VNum 2000%Z)]
  = Ok (u "1 / 2,000").
Proof. reflexivity. Qed.

Example prefix_keys_long_first :
  Instance.renderJinjaTemplate (u "{{sum}} / {{sum_total}}")
    [(u "sum_total", VNum 2000%Z); (u "sum", VNum 1%Z)]
  = Ok (u "1 / 2,000").
Proof. reflexivity. Qed.



Example unclosed_if_rendered :
  Instance.renderJinjaTemplate (u "Total {% if x %} {{year}}")
    [(u "year", VNum 2024%Z)]
  = Ok (u "Total {% if x %} 2,024").
Proof. reflexivity. Qed.

Lemma equality_condition_bound_witness :
  Instance.evaluateCondition
    (equality_condition (u "row_count") (u " ") (u " ") 39%N (u "0") 39%N)
    [(u "row_count", VNum 0%Z)] = true
  <-> toStr num_toString obj_toString fn_toString (VNum 0%Z) = u "0".
Proof.
  apply equality_condition_bound.
  - split; [discriminate|reflexivity].
  - reflexivity.
  - reflexivity.
  - reflexivity.
  - split; [discriminate|reflexivity].
  - reflexivity.
  - reflexivity.
Defined.

Example row_count_zero :
  Instance.evaluateCondition (u "row_count == '0'") [(u "row_count", VNum 0%Z)]
  = true.
Proof. reflexivity. Qed.

Example row_count_zero_rendered :
  Instance.renderJinjaTemplate
    (u "{% if row_count == '0' %}No data{% else %}{{row_count}} rows{% endif %}")
    [(u "row_count", VNum 0%Z)]
  = Ok (u "No data").
Proof. reflexivity. Qed.

(** The literal of an equality must have a character: with the empty literal
    the condition is not read as an equality at all, and the name bound to
    the empty text does not compare equal to it. *)
Lemma equality_with_empty_literal :
  ~ (forall name lit (variables : Instance.context) v,
       condition_name name ->
       own variables name = Some v ->
       (Instance.evaluateCondition
          (equality_condition name (u " ") (u " ") 39%N lit 39%N) variables
        = true
        <-> toStr num_toString obj_toString fn_toString v = lit)).
Proof.
  intros H.
  specialize (H (u "x") [] [(u "x", VStr [])] (VStr [])).
  destruct H as (_ & H).
  - split; [discriminate|reflexivity].
  - reflexivity.
  - specialize (H eq_refl). vm_compute in H. discriminate H.
Qed.

(** A quote character inside the literal ends it, whichever quote opened
    it. *)
Example equality_with_inner_quote :
  Instance.evaluateCondition
    (equality_condition (u "x") (u " ") (u " ") 34%N (u "it's") 34%N)
    [(u "x", VStr (u "it's"))] = false
  /\ Instance.evaluateCondition
       (equality_condition (u "x") (u " ") (u " ") 34%N (u "it's") 34%N)
       [(u "x", VStr (u "it"))] = true.
Proof. split; reflexivity. Qed.

Lemma equality_condition_absent_witness :
  Instance.evaluateCondition
    (equality_condition (u "zz") (u " ") (u " ") 39%N (u "undefined") 39%N) []
  = true
  <-> u "undefined" = u "undefined".
Proof.
  apply equality_condition_absent.
  - split; [discriminate|reflexivity].
  - reflexivity.
  - reflexivity.
  - reflexivity.
  - split; [discriminate|reflexivity].
  - reflexivity.
  - reflexivity.
  - reflexivity.
Defined.

(** A name that is not a key of the context but is a property every object
    inherits: the lookup finds the inherited function, and the comparison is
    with its source text. *)
Lemma equality_on_inherited_name :
  hasOwn ([] : Instance.context) (u "constructor") = false
  /\ Instance.evaluateCondition (u "constructor == 'undefined'") [] = false
  /\ Instance.evaluateCondition
       (u "constructor == 'function Object() { [native code] }'") [] = true
  /\ Instance.evaluateCondition (u "constructor") [] = false.
Proof. repeat split; reflexivity. Qed.

Example statistics_of_sales :
  let ctx := Instance.buildVariables (sales_column (VBool true)) sales_rows
               false None in
  own ctx (u "sum") = Some (VNum 1059%Z)
  /\ own ctx (u "min") = Some (VNum 10%Z)
  /\ own ctx (u "max") = Some (VNum 999%Z)
  /\ own ctx (u "count") = Some (VNum 3%Z)
  /\ Instance.generateDynamicColumnName (sales_column (VBool true)) sales_rows
       (u "{{column_name}} [{{min}} - {{max}}]") false None
     = Ok (u "Sales [10 - 999]").
Proof. repeat split; reflexivity. Qed.



Lemma no_percent_clean_body b : ~ In 37%N b -> clean_body b.
Proof.
  intros H Ho. apply H. apply (occurs_In 37%N Ho). simpl. auto.
Qed.


Example conditional_span_rendered :
  Instance.renderJinjaTemplate
    (u "Rows: {% if row_count == '0' %}No data{% elif row_count == '1' %} One row {% else %}{{row_count}} rows{% endif %}!")
    [(u "row_count", VNum 1%Z)]
  = Ok (u "Rows: One row!").
Proof. reflexivity. Qed.

(** An opening brace is a character of a condition like another. *)
Example brace_condition_rendered :
  clean_condition (u "k == '{'")
  /\ Instance.renderJinjaTemplate
       (u "{% if k == '{' %}open{% else %}closed{% endif %}")
       [(u "k", VStr (u "{"))]
     = Ok (u "open").
Proof.
  split; [|reflexivity].
  split; [reflexivity|]. split; [discriminate|reflexivity].
Qed.


Example transform_sum_sell_in :
  Instance.transformColumnName (u "SUM(sell_in)") = VStr (u "Total Sell In")
  /\ Instance.transformColumnName (u "count(region)")
     = VStr (u "Cantidad region")
  /\ Instance.transformColumnName (u "mes_id") = VStr (u "Mes")
  /\ Instance.transformColumnName (u "region") = VStr (u "region").
Proof. repeat split; reflexivity. Qed.

Lemma transformColumnName_table_witness :
  Instance.transformColumnName (wrapped (u "sum") (u "sell_in"))
  = VStr (u "Total Sell In")
  /\ Instance.transformColumnName (u "region") = VStr (u "region").
Proof.
  destruct (@transformColumnName_table Z Instance.num_toString
              Instance.num_truthy Instance.obj Instance.obj_toString
              Instance.builtin Instance.fn_toString Instance.proto)
    as [Hw Hb].
  split.
  - apply (Hw (u "sum") (u "SUM") (u "sell_in")).
    + cbn [function_names In]. auto.
    + reflexivity.
    + reflexivity.
    + reflexivity.
  - apply (Hb (u "region")).
    + cbn [u In]. vm_compute. intuition discriminate.
    + reflexivity.
Defined.

(** A column named as a property that every object inherits: the lookup in
    the table finds the inherited function, which is truthy, so the function
    itself is returned where a string is declared; as a field, its source
    text becomes the label. *)
Lemma transform_inherited_name :
  own (transformations Z Instance.obj builtin) (u "constructor") = None
  /\ Instance.transformColumnName (u "constructor") = VFun BObject
  /\ own (transformations Z Instance.obj builtin) (u "toString") = None
  /\ Instance.transformColumnName (u "SUM(toString)")
     = VStr (u "Total function toString() { [native code] }").
Proof. repeat split; reflexivity. Qed.


Lemma render_fills_placeholders_witness :
  Instance.renderJinjaTemplate
    (u "{{column_name}} ({{ row_count }} rows) {{unknown}}")
    [(u "column_name", VStr (u "Sales")); (u "row_count", VNum 1234%Z)]
  = Ok (u "Sales (1,234 rows) {{unknown}}").
Proof.
  apply (@render_fills_placeholders Z Instance.num_toString
           Instance.num_toLocaleString Instance.num_truthy Instance.obj
           Instance.obj_toString Instance.JSON_stringify Instance.builtin
           Instance.fn_toString Instance.fn_call Instance.proto
           [Hole (u "column_name") [] []; Text (u " (");
            Hole (u "row_count") (u " ") (u " "); Text (u " rows) ");
            Hole (u "unknown") [] []]).
  - repeat constructor; try reflexivity; discriminate.
  - apply serialisable_forallb; reflexivity.
  - intros key v [E|[E|[]]]; inversion E; subst; repeat split;
      try reflexivity; vm_compute; intuition discriminate.
Defined.

Lemma dollar_sequences_expanded_witness :
  Instance.renderJinjaTemplate (u "Total: {{sum}}") [(u "sum", VStr (u "$&"))]
  = Ok (u "Total: {{sum}}")
  /\ Instance.renderJinjaTemplate (u "Total: {{sum}}")
       [(u "sum", VStr (u "$$"))]
     = Ok (u "Total: $").
Proof.
  apply (@dollar_sequences_expanded Z Instance.num_toString
           Instance.num_toLocaleString Instance.num_truthy Instance.obj
           Instance.obj_toString Instance.JSON_stringify Instance.builtin
           Instance.fn_toString Instance.fn_call Instance.proto
           [Text (u "Total: "); Hole (u "sum") [] []] (u "sum")).
  - repeat constructor; try reflexivity; discriminate.
  - reflexivity.
Defined.

Lemma substituted_value_is_scanned_again_witness :
  Instance.renderJinjaTemplate (u "<{{a}}>")
    [(u "a", VStr (u "{{ b }}")); (u "b", VStr (u "X"))] = Ok (u "<X>")
  /\ Instance.renderJinjaTemplate (u "<{{a}}>")
       [(u "b", VStr (u "X")); (u "a", VStr (u "{{ b }}"))]
     = Ok (u "<{{ b }}>").
Proof.
  apply (@substituted_value_is_scanned_again Z Instance.num_toString
           Instance.num_toLocaleString Instance.num_truthy Instance.obj
           Instance.obj_toString Instance.JSON_stringify Instance.builtin
           Instance.fn_toString Instance.fn_call Instance.proto
           (u "a") [] [] (u "b") (u " ") (u " ") (u "<") (u ">")
           (VStr (u "X")) (u "X"));
    try reflexivity; try discriminate.
  - vm_compute. intuition discriminate.
  - split; [reflexivity|]. vm_compute. intuition discriminate.
Defined.


Lemma startswith_condition_bound_witness :
  Instance.evaluateCondition (u "label.startswith('Sa')")
    [(u "label", VStr (u "Sales"))] = true.
Proof.
  apply (@startswith_condition_bound Z Instance.num_toString
           Instance.num_truthy Instance.obj Instance.obj_toString
           Instance.builtin Instance.fn_toString Instance.fn_call
           Instance.proto (u "label") 39%N (u "Sa") 39%N
           [(u "label", VStr (u "Sales"))] (VStr (u "Sales"))).
  - split; [discriminate|reflexivity].
  - reflexivity.
  - split; [discriminate|reflexivity].
  - vm_compute. intuition discriminate.
  - reflexivity.
  - reflexivity.
  - reflexivity.
Defined.


Lemma bare_condition_own_truthy_witness :
  Instance.evaluateCondition (u " is_metric ") [(u "is_metric", VBool true)]
  = true
  /\ Instance.evaluateCondition (u "toString") [(u "is_metric", VBool true)]
     = false.
Proof.
  split.
  - apply (@bare_condition_own_truthy Z Instance.num_toString
             Instance.num_truthy Instance.obj Instance.obj_toString
             Instance.builtin Instance.fn_toString Instance.fn_call
             Instance.proto (u " is_metric ") [(u "is_metric", VBool true)]).
    + split; vm_compute; intuition discriminate.
    + reflexivity.
  - apply (@bare_condition_own_truthy Z Instance.num_toString
             Instance.num_truthy Instance.obj Instance.obj_toString
             Instance.builtin Instance.fn_toString Instance.fn_call
             Instance.proto (u "toString") [(u "is_metric", VBool true)]).
    + split; vm_compute; intuition discriminate.
    + reflexivity.
Defined.

Lemma shadowed_hasOwnProperty_witness :
  Instance.evaluateCondition (u "is_metric")
    [(u "hasOwnProperty", VStr (u "yes")); (u "is_metric", VBool true)]
  = false.
Proof.
  apply (@shadowed_hasOwnProperty Z Instance.num_toString
           Instance.num_truthy Instance.obj Instance.obj_toString
           Instance.builtin Instance.fn_toString Instance.fn_call
           Instance.proto (u "is_metric")
           [(u "hasOwnProperty", VStr (u "yes")); (u "is_metric", VBool true)]
           (VStr (u "yes"))).
  - split; vm_compute; intuition discriminate.
  - reflexivity.
  - discriminate.
Defined.


Lemma transformColumnName_not_wrapped_witness :
  Instance.transformColumnName (u "MEDIAN(sell_in)")
  = VStr (u "MEDIAN(sell_in)")
  /\ Instance.transformColumnName (u "SUM(sell_in) ")
     = VStr (u "SUM(sell_in) ").
Proof.
  split.
  - apply (@transformColumnName_not_wrapped Z Instance.num_toString
             Instance.num_truthy Instance.obj Instance.obj_toString
             Instance.builtin Instance.fn_toString Instance.proto
             (u "MEDIAN(sell_in)")).
    + intros Hw. destruct (wrapped_name_exec Hw) as (mt & E).
      vm_compute in E. discriminate E.
    + reflexivity.
  - apply (@transformColumnName_not_wrapped Z Instance.num_toString
             Instance.num_truthy Instance.obj Instance.obj_toString
             Instance.builtin Instance.fn_toString Instance.proto
             (u "SUM(sell_in) ")).
    + intros Hw. destruct (wrapped_name_exec Hw) as (mt & E).
      vm_compute in E. discriminate E.
    + reflexivity.
Defined.


Lemma generateDynamicColumnName_plain_witness :
  JinjaRenderer.generateDynamicColumnName Instance.num_toString
    Instance.num_toLocaleString Instance.num_truthy Instance.obj_toString
    Instance.JSON_stringify Instance.fn_toString Instance.fn_call
    Instance.proto (u "  Ventas 2024 ") [(u "row_count", VNum 12%Z)] None
  = Ok (u "Ventas 2024")
  /\ JinjaRenderer.generateDynamicColumnName Instance.num_toString
       Instance.num_toLocaleString Instance.num_truthy Instance.obj_toString
       Instance.JSON_stringify Instance.fn_toString Instance.fn_call
       Instance.proto (u "   ") [(u "row_count", VNum 12%Z)] None
     = Ok [].
Proof.
  destruct (@generateDynamicColumnName_plain Z Instance.num_toString
              Instance.num_toLocaleString Instance.num_truthy Instance.obj
              Instance.obj_toString Instance.JSON_stringify Instance.builtin
              Instance.fn_toString Instance.fn_call Instance.proto
              [(u "row_count", VNum 12%Z)] None) as (H1 & H2).
  { apply serialisable_forallb; reflexivity. }
  split.
  - apply (H1 (u "  Ventas 2024 ")). vm_compute. intuition discriminate.
  - apply (H2 (u "   ")). reflexivity.
Defined.

Lemma generateDynamicColumnName_trimmed_witness :
  (exists out,
     Instance.renderJinjaTemplate (u " {{column_name}} ")
       [(u "column_name", VStr (u " Sales"))] = Ok out
     /\ JinjaRenderer.generateDynamicColumnName Instance.num_toString
          Instance.num_toLocaleString Instance.num_truthy Instance.obj_toString
          Instance.JSON_stringify Instance.fn_toString Instance.fn_call
          Instance.proto (u " {{column_name}} ")
          [(u "column_name", VStr (u " Sales"))] None
        = Ok (trim out))
  /\ (exists e,
        JinjaRenderer.generateDynamicColumnName Instance.num_toString
          Instance.num_toLocaleString Instance.num_truthy Instance.obj_toString
          Instance.JSON_stringify Instance.fn_toString Instance.fn_call
          Instance.proto (u "Ventas") [(u "first_row", big_row)] None
        = Throw e).
Proof.
  split.
  - apply (proj1 (@generateDynamicColumnName_trimmed Z Instance.num_toString
             Instance.num_toLocaleString Instance.num_truthy Instance.obj
             Instance.obj_toString Instance.JSON_stringify Instance.builtin
             Instance.fn_toString Instance.fn_call Instance.proto
             (u " {{column_name}} ") [(u "column_name", VStr (u " Sales"))]
             None)).
    apply serialisable_forallb; reflexivity.
  - apply (proj2 (proj2 (@generateDynamicColumnName_trimmed Z
             Instance.num_toString
             Instance.num_toLocaleString Instance.num_truthy Instance.obj
             Instance.obj_toString Instance.JSON_stringify Instance.builtin
             Instance.fn_toString Instance.fn_call Instance.proto
             (u "Ventas") [(u "first_row", big_row)] None))).
    + apply (@big_row_not_serialisable (u "first_row")). now left.
    + discriminate.
Defined.

Example generateDynamicColumnName_rendered :
  JinjaRenderer.generateDynamicColumnName Instance.num_toString
    Instance.num_toLocaleString Instance.num_truthy Instance.obj_toString
    Instance.JSON_stringify Instance.fn_toString Instance.fn_call
    Instance.proto
    (u " {% if row_count == '0' %}No data{% else %}{{row_count}} rows{% endif %} ")
    [(u "row_count", VNum 1234%Z)] None
  = Ok (u "1,234 rows").
Proof. reflexivity. Qed.

Lemma escapeHtml_injective_witness :
  u "<b>a & b</b>" = u "<b>a & b</b>".
Proof.
  apply (@escapeHtml_injective (u "<b>a & b</b>") (u "<b>a & b</b>")).
  reflexivity.
Defined.

Example escapeHtml_script :
  escapeHtml (u "<script>alert('x' & 1)</script>")
  = u "&lt;script&gt;alert('x' &amp; 1)&lt;/script&gt;".
Proof. reflexivity. Qed.


Lemma count_within_row_count_witness :
  let ctx := Instance.buildVariables (sales_column (VBool true))
               ([(u "k", VNull)] :: sales_rows) false None in
  own ctx (u "count") = Some (VNum 3%Z)
  /\ own ctx (u "row_count") = Some (VNum 4%Z)
  /\ 0 < 3 <= 4.
Proof.
  apply (@count_within_row_count Z num_truthy obj builtin proto
           (fun n => Z.of_nat n) 0%Z Z.add Z.div Math_min Math_max
           obj_of_record obj_of_array (sales_column (VBool true))
           ([(u "k", VNull)] :: sales_rows) false None).
  reflexivity.
Defined.

Lemma no_rows_no_values_witness :
  let ctx := Instance.buildVariables (sales_column (VBool true)) [] true
               (Some [VStr (u "SUM(k)")]) in
  own ctx (u "row_count") = Some (VNum 0%Z)
  /\ own ctx (u "sum") = None /\ own ctx (u "count") = None
  /\ own ctx (u "first_value") = None /\ own ctx (u "last_value") = None
  /\ Instance.generateDynamicColumnName (sales_column (VBool true)) []
       (u "{{first_value}} - {{last_value}}") true (Some [VStr (u "SUM(k)")])
     = Ok (u "{{first_value}} - {{last_value}}").
Proof.
  destruct (@no_rows_no_values Z num_toString num_toLocaleString num_truthy
              obj obj_toString JSON_stringify builtin fn_toString proto
              (fun n => Z.of_nat n) 0%Z Z.add Z.div Math_min Math_max
              obj_of_record obj_of_array (sales_column (VBool true)) true
              (Some [VStr (u "SUM(k)")]) eq_refl)
    as (H1 & H2 & H3 & H4 & H5 & _ & H6).
  repeat (split; [assumption|]).
  apply H6. apply serialisable_forallb; reflexivity.
Defined.

(** A column whose key is a name that every object inherits: with no rows,
    the cell of the first row is the inherited function, and first_value is
    bound to it. *)
Example no_rows_inherited_key :
  own (Instance.buildVariables
         (Column (u "Ctor") VUndefined (u "constructor") (VNum 0%Z)
                 VUndefined VUndefined (VBool false)) [] false None)
      (u "first_value")
  = Some (VFun BObject).
Proof. reflexivity. Qed.

Lemma every_span_resolved_witness :
  Instance.processConditionalBlocks
    (u "A "
     ++ flat_map cspan_text
          [CSpan (u "x") (u "yes") [] None (u " B ");
           CSpan (u "y") (u "no") [] (Some (u " other ")) (u " C")])
    [(u "x", VBool true); (u "y", VBool false)]
  = Ok (u "A yes B other C").
Proof.
  apply (@every_span_resolved Z num_toString num_truthy obj obj_toString
           builtin fn_toString fn_call proto
           [(u "x", VBool true); (u "y", VBool false)] (u "A ")
           [CSpan (u "x") (u "yes") [] None (u " B ");
            CSpan (u "y") (u "no") [] (Some (u " other ")) (u " C")]).
  - apply no_percent_clean_body. vm_compute. intuition discriminate.
  - repeat constructor; try discriminate;
      try (apply no_percent_clean_body; vm_compute; intuition discriminate).
Defined.


Lemma single_key_value_verbatim_witness :
  Instance.renderJinjaTemplate (u "[{{ note }}]")
    [(u "note", VStr (u "{% if x %}{{x}}{% endif %}"))]
  = Ok (u "[{% if x %}{{x}}{% endif %}]").
Proof.
  apply (@single_key_value_verbatim Z Instance.num_toString
           Instance.num_toLocaleString Instance.num_truthy Instance.obj
           Instance.obj_toString Instance.JSON_stringify Instance.builtin
           Instance.fn_toString Instance.fn_call Instance.proto
           [Text (u "["); Hole (u "note") (u " ") (u " "); Text (u "]")]
           (u "note") (VStr (u "{% if x %}{{x}}{% endif %}"))
           (u "{% if x %}{{x}}{% endif %}")).
  - reflexivity.
  - repeat constructor; try reflexivity; discriminate.
  - reflexivity.
  - vm_compute. intuition discriminate.
Defined.

Lemma unquoted_condition_is_a_name_witness :
  Instance.evaluateCondition (u "row_count == 0")
    [(u "row_count", VNum 0%Z)] = false.
Proof.
  apply (@unquoted_condition_is_a_name Z Instance.num_toString
           Instance.num_truthy Instance.obj Instance.obj_toString
           Instance.builtin Instance.fn_toString Instance.fn_call
           Instance.proto (u "row_count == 0") [(u "row_count", VNum 0%Z)]).
  - reflexivity.
  - reflexivity.
Defined.

Example unquoted_comparison_rendered :
  Instance.renderJinjaTemplate
    (u "{% if row_count == 0 %}No data{% else %}{{row_count}} rows{% endif %}")
    [(u "row_count", VNum 0%Z)]
  = Ok (u "0 rows").
Proof. reflexivity. Qed.

End Examples.
